(** * joy_base_control: teleop_twist_joy.cpp

    A shallow embedding of the teleoperation node of the package
    joy_base_control (file src/teleop_twist_joy.cpp) and the properties of
    its command generation: the deadman gate, the axis lookup [getVal], the
    velocity scale adjustment [ModifyVelocity] and the callback
    [joyCallback].

    Layout: the arithmetic of C++ [float] and [double], the containers and
    messages the code reads and writes, the functions of the file, then the
    theory of rounding and the properties of the program.

    Platform: [float] is IEEE 754 binary32 and [double] is binary64, every
    operation rounds once, to nearest with ties to even, in the type of its
    operands (no extended precision); [int] has 32 bits and [size_t] 64. *)

From Stdlib Require Import ZArith QArith Qround Qpower Qabs Qreduction Lqa Lia List.
From Stdlib Require Import SpecFloat.
From stdpp Require Import gmap strings.

(* ===================================================================== *)
(** * Part I. Definitions *)
(* ===================================================================== *)

(** ** IEEE 754 values and rounding

    A floating-point datum is a NaN, an infinity, a signed zero, or a nonzero
    rational.  An arithmetic operation is the exact operation on rationals
    followed by one rounding to the format, which is how IEEE 754 defines
    the result.  Finite values are kept in lowest terms, so that two equal
    numbers are equal terms. *)

Inductive fval : Type :=
  | NaN
  | Inf (neg : bool)
  | Zero (neg : bool)
  | Fin (q : Q).

(** A binary format: [prec] bits of significand, and the exponents of the
    smallest and of the largest unit in the last place. *)
Record format : Type := { prec : Z; emin : Z; emax : Z }.

Definition binary32 : format := {| prec := 24; emin := -149; emax := 104 |}.
Definition binary64 : format := {| prec := 53; emin := -1074; emax := 971 |}.

Local Open Scope Q_scope.

(** [ilog2 q], for [q > 0], is the integer [k] with [2^k <= q < 2^(k+1)]. *)
Definition ilog2 (q : Q) : Z :=
  let k := (Z.log2 (Qnum q) - Z.log2 (Zpos (Qden q)))%Z in
  if Qle_bool (2 ^ k) q then k else (k - 1)%Z.

(** Nearest integer, a tie going to the even one. *)
Definition rne (q : Q) : Z :=
  let f := Qfloor q in
  match Qcompare (q - inject_Z f) (1 # 2) with
  | Lt => f
  | Gt => (f + 1)%Z
  | Eq => if Z.even f then f else (f + 1)%Z
  end.

(** Exponent of the unit in the last place of the format around [q > 0];
    the lower bound [emin] gives the subnormal range. *)
Definition ulp_exp (fmt : format) (q : Q) : Z :=
  Z.max (ilog2 q - prec fmt + 1) (emin fmt).

(** Rounding of a positive rational to the grid of the format, the exponent
    unbounded above. *)
Definition round_pos (fmt : format) (q : Q) : Q :=
  let e := ulp_exp fmt q in
  inject_Z (rne (q / 2 ^ e)) * 2 ^ e.

(** The nonnegative numbers of a format, the exponent unbounded above. *)
Definition on_grid (fmt : format) (r : Q) : Prop :=
  exists n e : Z,
    r == inject_Z n * 2 ^ e /\ (0 <= n < 2 ^ prec fmt)%Z /\ (emin fmt <= e)%Z.

Definition max_finite (fmt : format) : Q :=
  inject_Z (2 ^ prec fmt - 1) * 2 ^ emax fmt.

(** A rounded magnitude with its sign: underflow to a signed zero, overflow
    to a signed infinity. *)
Definition pack (fmt : format) (neg : bool) (r : Q) : fval :=
  if Qeq_bool r 0 then Zero neg
  else if Qle_bool r (max_finite fmt) then Fin (Qred (if neg then - r else r))
  else Inf neg.

(** [round fmt zneg q]: the datum of format [fmt] nearest to [q]; [zneg] is
    the sign of the result when [q] is zero. *)
Definition round (fmt : format) (zneg : bool) (q : Q) : fval :=
  match Qcompare q 0 with
  | Eq => Zero zneg
  | Gt => pack fmt false (round_pos fmt q)
  | Lt => pack fmt true (round_pos fmt (- q))
  end.

Definition sign (x : fval) : bool :=
  match x with
  | NaN => false
  | Inf s => s
  | Zero s => s
  | Fin q => match Qcompare q 0 with Lt => true | _ => false end
  end.

Definition fmul (fmt : format) (x y : fval) : fval :=
  let s := xorb (sign x) (sign y) in
  match x, y with
  | NaN, _ | _, NaN => NaN
  | Inf _, Zero _ | Zero _, Inf _ => NaN
  | Inf _, _ | _, Inf _ => Inf s
  | Zero _, _ | _, Zero _ => Zero s
  | Fin a, Fin b => round fmt s (a * b)
  end.

Definition fdiv (fmt : format) (x y : fval) : fval :=
  let s := xorb (sign x) (sign y) in
  match x, y with
  | NaN, _ | _, NaN => NaN
  | Inf _, Inf _ | Zero _, Zero _ => NaN
  | Inf _, _ => Inf s
  | _, Inf _ => Zero s
  | _, Zero _ => Inf s
  | Zero _, _ => Zero s
  | Fin a, Fin b => round fmt s (a / b)
  end.

(** The number a finite datum stands for (both zeros are 0). *)
Definition qval (x : fval) : Q :=
  match x with
  | Fin q => q
  | _ => 0
  end.

(** Comparison: unordered ([None]) as soon as a NaN is involved. *)
Definition fcompare (x y : fval) : option comparison :=
  match x, y with
  | NaN, _ | _, NaN => None
  | Inf s1, Inf s2 =>
      Some (match s1, s2 with
            | true, false => Lt
            | false, true => Gt
            | _, _ => Eq
            end)
  | Inf s, _ => Some (if s then Lt else Gt)
  | _, Inf s => Some (if s then Gt else Lt)
  | _, _ => Some (Qcompare (qval x) (qval y))
  end.

(** The C++ operators [<] and [<=] on floating-point operands. *)
Definition flt (x y : fval) : bool :=
  match fcompare x y with
  | Some Lt => true
  | _ => false
  end.

Definition fle (x y : fval) : bool :=
  match fcompare x y with
  | Some Lt | Some Eq => true
  | _ => false
  end.

Local Close Scope Q_scope.

(** ** The C++ types [float] and [double]

    Both are carried by [fval]; a [float] is a datum that conversion to
    binary32 leaves unchanged. *)

Definition float : Type := fval.
Definition double : Type := fval.

(** Implicit conversion [float -> double]: exact. *)
Definition f2d (x : float) : double := x.

(** Conversion [double -> float] (an assignment to a [float] variable):
    one rounding to binary32. *)
Definition d2f (x : double) : float :=
  match x with
  | Fin q => round binary32 false q
  | _ => x
  end.

Definition is_float (x : fval) : Prop := d2f x = x.

(** A decimal literal of type [double], and one stored into a [float]. *)
Definition double_lit (q : Q) : double := round binary64 false q.
Definition float_of_lit (q : Q) : float := d2f (double_lit q).

(** [a * b] and [a / b] on [double] operands. *)
Definition dmul (a b : double) : double := fmul binary64 a b.
Definition ddiv (a b : double) : double := fdiv binary64 a b.

(** [std::min(a, b)] is [(b < a) ? b : a]; [std::max(a, b)] is
    [(a < b) ? b : a]. *)
Definition std_min (a b : double) : double := if flt b a then b else a.
Definition std_max (a b : double) : double := if flt a b then b else a.

(** ** Reading the data of [SpecFloat]

    The Standard Library specifies the IEEE 754 operations on pairs of a
    mantissa and an exponent ([SpecFloat], the specification of the
    primitive floats).  [of_spec] reads such a datum as an [fval]; the
    operations above are checked against those of [SpecFloat] on
    [spec_samples], which hold the constants of the program, both zeros and
    infinities, a NaN, numbers at both ends of the binary64 range and
    beyond the binary32 range, and halfway cases of the conversion to
    binary32. *)

Definition of_spec (x : spec_float) : fval :=
  match x with
  | S754_zero s => Zero s
  | S754_infinity s => Inf s
  | S754_nan => NaN
  | S754_finite s m e =>
      Fin (Qred ((if s then -1 else 1) * inject_Z (Zpos m) * 2 ^ e)%Q)
  end.

Definition fval_eqb (x y : fval) : bool :=
  match x, y with
  | NaN, NaN => true
  | Inf s, Inf t | Zero s, Zero t => Bool.eqb s t
  | Fin a, Fin b => (Qnum a =? Qnum b)%Z && (Qden a =? Qden b)%positive
  | _, _ => false
  end.

(** binary64 datum of the integer [m] scaled by [2^e], and the quotient of
    two such data. *)
Definition spec_int (m e : Z) : spec_float := binary_normalize 53 1024 m e false.
Definition spec_quot (a b : Z) : spec_float :=
  SFdiv 53 1024 (spec_int a 0) (spec_int b 0).

(** Conversion to binary32 as [SpecFloat] rounds it. *)
Definition spec_to_binary32 (x : spec_float) : spec_float :=
  match x with
  | S754_finite s m e => binary_normalize 24 128 (if s then Zneg m else Zpos m) e s
  | _ => x
  end.

(** A binary32 datum written back with a binary64 mantissa: the
    comparisons of [SpecFloat] want both operands in one format. *)
Definition spec_to_binary64 (x : spec_float) : spec_float :=
  match x with
  | S754_finite s m e => binary_normalize 53 1024 (if s then Zneg m else Zpos m) e s
  | _ => x
  end.

Definition spec_samples : list spec_float :=
  [S754_nan; S754_zero false; S754_zero true;
   S754_infinity false; S754_infinity true;
   spec_int 1 0; spec_quot 12 10; spec_quot 1 10; spec_quot 2 10;
   spec_quot (-5) 10; spec_quot 1 3;
   spec_to_binary64 (spec_to_binary32 (spec_quot 1 10));
   spec_int 3 1000; spec_int 5 (-1074);
   spec_int 33554431 103; spec_int 16777217 0; spec_int 1 (-150)].

Definition agrees_on (x y : spec_float) : bool :=
  fval_eqb (of_spec (SFmul 53 1024 x y)) (fmul binary64 (of_spec x) (of_spec y)) &&
  fval_eqb (of_spec (SFdiv 53 1024 x y)) (fdiv binary64 (of_spec x) (of_spec y)) &&
  Bool.eqb (SFltb x y) (flt (of_spec x) (of_spec y)) &&
  Bool.eqb (SFleb x y) (fle (of_spec x) (of_spec y)) &&
  fval_eqb (of_spec (spec_to_binary32 x)) (d2f (of_spec x)).

(** ** Faults

    [std::vector::operator[]] checks nothing: an index past the end is
    undefined behaviour.  [std::map::at] throws [std::out_of_range] on a
    missing key.  A computation either returns or stops on one of the two. *)

Inductive fault : Type :=
  | out_of_bounds   (* operator[] outside the vector *)
  | out_of_range.   (* exception of std::map::at *)

Inductive result (A : Type) : Type :=
  | Ok (a : A)
  | Fault (f : fault).
Arguments Ok {A} a.
Arguments Fault {A} f.

Definition bind {A B : Type} (m : result A) (k : A -> result B) : result B :=
  match m with
  | Ok a => k a
  | Fault f => Fault f
  end.

Notation "'do' x <- m ; k" := (bind m (fun x => k))
  (at level 10, x name, m at level 100, k at level 200).

(** An [int] used as a vector index is converted to [size_t] (64 bits,
    unsigned): a negative index becomes a huge one. *)
Definition size_t_of_int (i : Z) : Z := i mod 2 ^ 64.

(** [v[i]] for a [std::vector] [v] and an [int] index [i]. *)
Definition vec_at {A : Type} (v : list A) (i : Z) : result A :=
  let j := size_t_of_int i in
  if (j <? Z.of_nat (length v))%Z then
    match nth_error v (Z.to_nat j) with
    | Some a => Ok a
    | None => Fault out_of_bounds
    end
  else Fault out_of_bounds.

(** [m.at(k)] for a [std::map<std::string, int>]. *)
Definition map_at (m : gmap string Z) (k : string) : result Z :=
  match m !! k with
  | Some i => Ok i
  | None => Fault out_of_range
  end.

(** Conversion of an [int] to [bool] in a condition. *)
Definition truthy (b : Z) : bool := negb (b =? 0)%Z.

(** The values of an [int] (32 bits), and the largest size a [std::vector]
    of 4-byte elements ([float], [int32_t]) can have on a 64-bit platform
    ([PTRDIFF_MAX / 4]). *)
Definition int_range (i : Z) : Prop := (- 2 ^ 31 <= i < 2 ^ 31)%Z.
Definition vector_max_size : Z := 2 ^ 61 - 1.

(** ** Messages *)

(** geometry_msgs/Vector3 and geometry_msgs/Twist: six [double] fields,
    all zero in a freshly constructed message. *)
Module geometry_msgs.
Record Vector3 : Type := { x : double; y : double; z : double }.
Record Twist : Type := { linear : Vector3; angular : Vector3 }.
Definition zero3 : Vector3 :=
  {| x := Zero false; y := Zero false; z := Zero false |}.
Definition Twist_new : Twist := {| linear := zero3; angular := zero3 |}.
End geometry_msgs.

(** sensor_msgs/Joy: [float32[] axes] and [int32[] buttons]. *)
Module sensor_msgs.
Record Joy : Type := { axes : list float; buttons : list Z }.
End sensor_msgs.

Import geometry_msgs sensor_msgs.

(** [joy_msg->buttons[i]] read as a condition. *)
Definition button (joy_msg : Joy) (i : Z) : result bool :=
  do b <- vec_at (buttons joy_msg) i;
  Ok (truthy b).

(** What a call does to the outside: a log line ([ROS_INFO] with its format
    and arguments), a message published on cmd_base_vel, a blocking
    [ros::Duration(d).sleep()]. *)
Inductive arg : Type :=
  | arg_s (s : string)
  | arg_f (d : double).

Inductive event : Type :=
  | ROS_INFO (fmt : string) (args : list arg)
  | publish (msg : Twist)
  | sleep (d : double).

(** ** The state of the node: [struct TeleopTwistJoy::Impl]

    The subscriber and publisher handles are left out (publishing is an
    [event]), and so is [orientation_vel], which no code reads or writes. *)
Record Impl : Type := {
  cmd_vel_msg : Twist;
  enable_mov : Z;
  increment_vel : Z;
  decrement_vel : Z;
  mov_vel : float;
  min_vel : float;
  max_vel : float;
  reaction_t : float;
  axis_position_map : gmap string Z;
  axis_orientation_map : gmap string Z
}.

(** The parameters read by the constructor; [None] is a parameter that is
    not set.  [max_displacement_in_a_second] is taken as set: without it
    [getParam] leaves [max_vel] uninitialised. *)
Record params : Type := {
  p_enable_mov : option Z;
  p_increment_velocity : option Z;
  p_decrement_velocity : option Z;
  p_axis_position_map : option (gmap string Z);
  p_axis_orientation_map : option (gmap string Z);
  p_max_displacement_in_a_second : float
}.

(** The default member initialisers [min_vel = 0.1] and [reaction_t = 0.5],
    and the literal [1.2] of [ModifyVelocity]. *)
Definition min_vel_default : float := float_of_lit (1 # 10).
Definition reaction_t_default : float := float_of_lit (5 # 10).
Definition lit_1_2 : double := double_lit (12 # 10).

(** The constructor [TeleopTwistJoy::TeleopTwistJoy]. *)
Definition TeleopTwistJoy (nh_param : params) : Impl :=
  {| cmd_vel_msg := Twist_new;
     enable_mov := default 0%Z (p_enable_mov nh_param);
     increment_vel := default (-1)%Z (p_increment_velocity nh_param);
     decrement_vel := default (-1)%Z (p_decrement_velocity nh_param);
     mov_vel := float_of_lit (5 # 10);
     min_vel := min_vel_default;
     max_vel := p_max_displacement_in_a_second nh_param;
     reaction_t := reaction_t_default;
     axis_position_map := default ∅ (p_axis_position_map nh_param);
     axis_orientation_map := default ∅ (p_axis_orientation_map nh_param) |}.

(** ** The functions of the file *)

(** [printTwistInfo]: one log line. *)
Definition printTwistInfo (velocity : Twist) (info_string : string) : list event :=
  [ROS_INFO "%s - Lineal (x, y): (%.5f, %.5f), Angular (z): (%.5f)"
     [arg_s info_string;
      arg_f (x (linear velocity)); arg_f (y (linear velocity));
      arg_f (z (angular velocity))]].

(** [getVal]: the test is [find == end || axes.size() <= at(fieldname)],
    the right operand evaluated only when the key is present, its [int]
    converted to [size_t] for the comparison. *)
Definition getVal (joy_msg : Joy) (axis_map : gmap string Z) (fieldname : string)
  : result double :=
  do guard <-
    (if bool_decide (axis_map !! fieldname = None) then Ok true
     else do i <- map_at axis_map fieldname;
          Ok (Z.of_nat (length (axes joy_msg)) <=? size_t_of_int i)%Z);
  if (guard : bool) then Ok (Zero false)
  else
    do i <- map_at axis_map fieldname;
    do a <- vec_at (axes joy_msg) i;
    Ok (f2d a).

(** [ModifyVelocity]: [scale] and [max_vel] are reference parameters; the
    new value of [scale] is returned with the events of the call. *)
Definition ModifyVelocity (this : Impl) (joy_msg : Joy) (scale max_vel : float)
  : result (float * list event) :=
  do inc <- button joy_msg (increment_vel this);
  if (inc : bool) then
    let scale' := d2f (std_min (dmul (f2d scale) lit_1_2) (f2d max_vel)) in
    Ok (scale',
        [ROS_INFO "Escala de velocidad incrementada a %f" [arg_f (f2d scale')];
         sleep (f2d (reaction_t this))])
  else
    do dec <- button joy_msg (decrement_vel this);
    if (dec : bool) then
      let scale' := d2f (std_max (ddiv (f2d scale) lit_1_2) (f2d (min_vel this))) in
      Ok (scale',
          [ROS_INFO "Escala de velocidad decrementada a %f" [arg_f (f2d scale')];
           sleep (f2d (reaction_t this))])
    else Ok (scale, [sleep (f2d (reaction_t this))]).

Definition set_cmd_vel_msg (this : Impl) (msg : Twist) : Impl :=
  {| cmd_vel_msg := msg;
     enable_mov := enable_mov this;
     increment_vel := increment_vel this;
     decrement_vel := decrement_vel this;
     mov_vel := mov_vel this;
     min_vel := min_vel this;
     max_vel := max_vel this;
     reaction_t := reaction_t this;
     axis_position_map := axis_position_map this;
     axis_orientation_map := axis_orientation_map this |}.

Definition set_mov_vel (this : Impl) (v : float) : Impl :=
  {| cmd_vel_msg := cmd_vel_msg this;
     enable_mov := enable_mov this;
     increment_vel := increment_vel this;
     decrement_vel := decrement_vel this;
     mov_vel := v;
     min_vel := min_vel this;
     max_vel := max_vel this;
     reaction_t := reaction_t this;
     axis_position_map := axis_position_map this;
     axis_orientation_map := axis_orientation_map this |}.

(** The three assignments of the motion branch and of the stop branch: the
    fields [linear.z], [angular.x] and [angular.y] are not written. *)
Definition set_xy_z (msg : Twist) (lx ly az : double) : Twist :=
  {| linear := {| x := lx; y := ly; z := z (linear msg) |};
     angular := {| x := x (angular msg); y := y (angular msg); z := az |} |}.

(** [joyCallback]: the branches, each giving the new state and its log
    lines, then the publication of [cmd_vel_msg] and the log line of
    [printTwistInfo], which are common to the three. *)
Definition joyCallback (this : Impl) (joy_msg : Joy) : result (Impl * list event) :=
  do r <-
    (do en <- button joy_msg (enable_mov this);
     if (en : bool) then
       do adjust <-
         (do inc <- button joy_msg (increment_vel this);
          if (inc : bool) then Ok true
          else button joy_msg (decrement_vel this));
       if (adjust : bool) then
         do m <- ModifyVelocity this joy_msg (mov_vel this) (max_vel this);
         Ok (set_mov_vel this (fst m), ROS_INFO "Boton B pulsado" [] :: snd m)
       else
         do vx <- getVal joy_msg (axis_position_map this) "x";
         do vy <- getVal joy_msg (axis_position_map this) "y";
         do vz <- getVal joy_msg (axis_orientation_map this) "z";
         Ok (set_cmd_vel_msg this
               (set_xy_z (cmd_vel_msg this)
                  (dmul (f2d (mov_vel this)) vx)
                  (dmul (f2d (mov_vel this)) vy)
                  (dmul (f2d (mov_vel this)) vz)),
             [ROS_INFO "Boton B pulsado" []; ROS_INFO "Boton B pulsado" []])
     else
       Ok (set_cmd_vel_msg this
             (set_xy_z (cmd_vel_msg this) (Zero false) (Zero false) (Zero false)),
           []));
  Ok (fst r,
      snd r ++ publish (cmd_vel_msg (fst r))
            :: printTwistInfo (cmd_vel_msg (fst r)) "Velocidad publicada").

(** The node handles one frame after the other: [run] threads the state
    through the callbacks and collects the events in order. *)
Fixpoint run (this : Impl) (frames : list Joy) : result (Impl * list event) :=
  match frames with
  | [] => Ok (this, [])
  | joy_msg :: rest =>
      do r <- joyCallback this joy_msg;
      do r' <- run (fst r) rest;
      Ok (fst r', snd r ++ snd r')
  end.

(** The scale the node holds after a run. *)
Definition scale_after (this : Impl) (frames : list Joy) : result float :=
  do r <- run this frames;
  Ok (mov_vel (fst r)).

(** The states the node can be in: the constructed one, and those a
    callback that returned leaves behind. *)
Inductive reachable : Impl -> Prop :=
  | reachable_init (nh_param : params) : reachable (TeleopTwistJoy nh_param)
  | reachable_step (this this' : Impl) (joy_msg : Joy) (evs : list event) :
      reachable this ->
      joyCallback this joy_msg = Ok (this', evs) ->
      reachable this'.

(** The messages published by a list of events, in order. *)
Definition published (evs : list event) : list Twist :=
  omap (fun e => match e with publish msg => Some msg | _ => None end) evs.

Definition is_sleep (e : event) : bool :=
  match e with
  | sleep _ => true
  | _ => false
  end.


(** ** Kinds of frame

    What the callback does with a frame depends on three button reads.  A
    frame is of one of these kinds when the reads it needs are inside the
    [buttons] array; the increment button is read first, the decrement
    button only when the increment button is not held. *)

Definition gate_closed (this : Impl) (joy_msg : Joy) : Prop :=
  button joy_msg (enable_mov this) = Ok false.

Definition increment_frame (this : Impl) (joy_msg : Joy) : Prop :=
  button joy_msg (enable_mov this) = Ok true /\
  button joy_msg (increment_vel this) = Ok true.

Definition decrement_frame (this : Impl) (joy_msg : Joy) : Prop :=
  button joy_msg (enable_mov this) = Ok true /\
  button joy_msg (increment_vel this) = Ok false /\
  button joy_msg (decrement_vel this) = Ok true.

Definition scaling_frame (this : Impl) (joy_msg : Joy) : Prop :=
  increment_frame this joy_msg \/ decrement_frame this joy_msg.

Definition motion_frame (this : Impl) (joy_msg : Joy) : Prop :=
  button joy_msg (enable_mov this) = Ok true /\
  button joy_msg (increment_vel this) = Ok false /\
  button joy_msg (decrement_vel this) = Ok false.

(** A frame whose button reads all fall inside [buttons]. *)
Definition readable (this : Impl) (joy_msg : Joy) : Prop :=
  gate_closed this joy_msg \/ scaling_frame this joy_msg \/ motion_frame this joy_msg.

(** Two states of the node with the same button assignment. *)
Definition same_buttons (this this' : Impl) : Prop :=
  enable_mov this' = enable_mov this /\
  increment_vel this' = increment_vel this /\
  decrement_vel this' = decrement_vel this.

(** ** Abbreviations used in the proofs *)

(** A positive datum: a positive number or plus infinity. *)
Definition fpos (x : fval) : bool := flt (Zero false) x.

(** The values written to [scale] by the two branches of [ModifyVelocity]. *)
Definition incremented (max_vel scale : float) : float :=
  d2f (std_min (dmul (f2d scale) lit_1_2) (f2d max_vel)).

Definition decremented (min_vel scale : float) : float :=
  d2f (std_max (ddiv (f2d scale) lit_1_2) (f2d min_vel)).

Fixpoint decrements (n : nat) (min_vel scale : float) : float :=
  match n with
  | O => scale
  | S n' => decrements n' min_vel (decremented min_vel scale)
  end.

(** The message of the stop branch and the message of the motion branch of
    [joyCallback]. *)
Definition stop_msg (msg : Twist) : Twist :=
  set_xy_z msg (Zero false) (Zero false) (Zero false).

Definition motion_msg (this : Impl) (vx vy vz : double) : Twist :=
  set_xy_z (cmd_vel_msg this)
    (dmul (f2d (mov_vel this)) vx)
    (dmul (f2d (mov_vel this)) vy)
    (dmul (f2d (mov_vel this)) vz).

(** The numbers behind [min_vel_default] and [lit_1_2]: the [float] nearest
    to the [double] nearest to 0.1, and the [double] nearest to 1.2. *)
Definition min_vel_q : Q := 13421773 # 134217728.
Definition lit_1_2_q : Q := 5404319552844595 # 4503599627370496.

(** ** The adjustment as the specification words it (section 4.2)

    For comparison with [ModifyVelocity]: the state carries the time of the
    last adjustment and a cooldown, in seconds; a request is a candidate
    scale; it is applied when the cooldown has elapsed, dropped otherwise. *)
Record ScaleState : Type := {
  currentScale : float;
  lastAdjustmentTime : option Q;
  cooldown : Q
}.

Definition spec_adjust (state : ScaleState) (candidate : option float) (now : Q)
  : ScaleState :=
  match candidate with
  | None => state
  | Some c =>
      let elapsed :=
        match lastAdjustmentTime state with
        | None => true
        | Some t => Qle_bool (cooldown state) (now - t)
        end in
      if elapsed then
        {| currentScale := c; lastAdjustmentTime := Some now;
           cooldown := cooldown state |}
      else state
  end.

(** ** Nodes and frames of the scenarios *)

Definition no_params (max_displacement : float) : params :=
  {| p_enable_mov := None;
     p_increment_velocity := None;
     p_decrement_velocity := None;
     p_axis_position_map := None;
     p_axis_orientation_map := None;
     p_max_displacement_in_a_second := max_displacement |}.

(** Buttons 0, 1, 2 for enable, increment, decrement; axes 0, 1 for x, y
    and axis 2 for z. *)
Definition pad_params (max_displacement : float) : params :=
  {| p_enable_mov := Some 0%Z;
     p_increment_velocity := Some 1%Z;
     p_decrement_velocity := Some 2%Z;
     p_axis_position_map := Some (<["x" := 0%Z]> (<["y" := 1%Z]> ∅));
     p_axis_orientation_map := Some (<["z" := 2%Z]> ∅);
     p_max_displacement_in_a_second := max_displacement |}.

Definition frame (a : list Q) (b : list Z) : Joy :=
  {| axes := map float_of_lit a; buttons := b |}.

(** ** Frames by their indices

    The same kinds of frame, told from the three configured indices and the
    [buttons] array: an index is inside the array, and the button there is
    held. *)
Definition in_buttons (joy_msg : Joy) (i : Z) : Prop :=
  (0 <= i < Z.of_nat (length (buttons joy_msg)))%Z.

Definition pressed (joy_msg : Joy) (i : Z) : bool :=
  match nth_error (buttons joy_msg) (Z.to_nat i) with
  | Some b => truthy b
  | None => false
  end.

(** The reads the callback performs are all inside [buttons]: the enable
    button always, the increment button when the gate is open, the decrement
    button when moreover the increment button is released. *)
Definition well_indexed (this : Impl) (joy_msg : Joy) : Prop :=
  in_buttons joy_msg (enable_mov this) /\
  (pressed joy_msg (enable_mov this) = true ->
   in_buttons joy_msg (increment_vel this) /\
   (pressed joy_msg (increment_vel this) = false ->
    in_buttons joy_msg (decrement_vel this))).

(** The node's configuration: everything but the command and the scale. *)
Definition same_config (this this' : Impl) : Prop :=
  enable_mov this' = enable_mov this /\
  increment_vel this' = increment_vel this /\
  decrement_vel this' = decrement_vel this /\
  min_vel this' = min_vel this /\
  max_vel this' = max_vel this /\
  reaction_t this' = reaction_t this /\
  axis_position_map this' = axis_position_map this /\
  axis_orientation_map this' = axis_orientation_map this.

(** The blocking sleeps of a list of events, in order. *)
Definition sleeps (evs : list event) : list double :=
  omap (fun e => match e with sleep d => Some d | _ => None end) evs.

(** The scale after [n] increments. *)
Fixpoint increments (n : nat) (max_vel scale : float) : float :=
  match n with
  | O => scale
  | S n' => increments n' max_vel (incremented max_vel scale)
  end.

(** A datum of magnitude at most [b]: a zero, or a number between [-b] and
    [b]; and a command whose three written fields are such. *)
Definition within (b : Q) (v : fval) : Prop :=
  match v with
  | Zero _ => True
  | Fin r => (Qabs r <= b)%Q
  | _ => False
  end.

Definition Twist_within (b : Q) (msg : Twist) : Prop :=
  within b (x (linear msg)) /\ within b (y (linear msg)) /\ within b (z (angular msg)).

(** A frame as the joystick driver sends it: every axis between -1 and 1. *)
Definition normalized (joy_msg : Joy) : Prop := Forall (within 1) (axes joy_msg).

(* ===================================================================== *)
(** * Part II. Rounding *)
(* ===================================================================== *)

(** Case analysis on every comparison of rationals in sight. *)
Ltac qcmp :=
  repeat match goal with
  | H : context [Qcompare ?a ?b] |- _ => destruct (Qcompare_spec a b)
  | |- context [Qcompare ?a ?b] => destruct (Qcompare_spec a b)
  end.

(** On the samples the operations are those of [SpecFloat]: product and
    quotient in binary64, the two comparisons, the conversion to binary32. *)
Lemma agrees_with_SpecFloat_on_samples :
  forallb (fun x => forallb (agrees_on x) spec_samples) spec_samples = true.
Proof. vm_compute. reflexivity. Qed.

(** ** Powers of two *)

Section Pow2.
Local Open Scope Q_scope.

Lemma two_neq_0 : ~ 2 == 0.
Proof. intros H; discriminate H. Qed.

Lemma pow2_pos (k : Z) : 0 < 2 ^ k.
Proof. apply Qpower_0_lt; reflexivity. Qed.

Lemma pow2_add (a b : Z) : 2 ^ (a + b) == 2 ^ a * 2 ^ b.
Proof. apply Qpower_plus, two_neq_0. Qed.

Lemma pow2_sub (a b : Z) : 2 ^ (a - b) == 2 ^ a / 2 ^ b.
Proof. apply Qpower_minus, two_neq_0. Qed.

Lemma pow2_le (a b : Z) : (a <= b)%Z -> 2 ^ a <= 2 ^ b.
Proof. intros H; apply Qpower_le_compat_l; [exact H | discriminate]. Qed.

Lemma pow2_lt_inv (a b : Z) : 2 ^ a < 2 ^ b -> (a < b)%Z.
Proof. intros H; apply (Qpower_lt_compat_l_inv 2); [exact H | reflexivity]. Qed.

Lemma pow2_Z (n : Z) : (0 <= n)%Z -> inject_Z (2 ^ n) == 2 ^ n.
Proof. intros H; apply (Zpower_Qpower 2 n H). Qed.

Lemma pow2_succ (a : Z) : 2 ^ (a + 1) == 2 * 2 ^ a.
Proof. rewrite pow2_add; change (2 ^ 1) with 2; ring. Qed.

(** A quotient of powers of two is an integer when the exponents allow. *)
Lemma pow2_quot_Z (a b : Z) :
  (b <= a)%Z -> 2 ^ a / 2 ^ b == inject_Z (2 ^ (a - b)).
Proof.
  intros H. rewrite pow2_Z by lia. symmetry; apply pow2_sub.
Qed.
End Pow2.

(** ** The binary order of magnitude *)

Section Ilog2.
Local Open Scope Q_scope.

Lemma Qlt_inject_Z (a b : Z) : (a < b)%Z -> inject_Z a < inject_Z b.
Proof. rewrite <- Zlt_Qlt. trivial. Qed.

Lemma Q_as_quot (q : Q) : q == inject_Z (Qnum q) / inject_Z (Zpos (Qden q)).
Proof. destruct q as [a b]; simpl. rewrite Qmake_Qdiv. reflexivity. Qed.

(** [ilog2] finds the window of powers of two around a positive number. *)
Lemma ilog2_spec (q : Q) : 0 < q -> 2 ^ ilog2 q <= q /\ q < 2 ^ (ilog2 q + 1).
Proof.
  intros Hq. unfold ilog2.
  set (a := Qnum q). set (b := Zpos (Qden q)).
  assert (Ha : (0 < a)%Z) by (destruct q as [n d]; unfold Qlt in Hq; simpl in *; subst a; simpl; lia).
  assert (Hb : (0 < b)%Z) by (subst b; lia).
  destruct (Z.log2_spec a Ha) as [Ha1 Ha2].
  destruct (Z.log2_spec b Hb) as [Hb1 Hb2].
  set (la := Z.log2 a) in *. set (lb := Z.log2 b) in *.
  assert (Hla : (0 <= la)%Z) by apply Z.log2_nonneg.
  assert (Hlb : (0 <= lb)%Z) by apply Z.log2_nonneg.
  assert (Hq' : q * inject_Z b == inject_Z a).
  { rewrite (Q_as_quot q) at 1. fold a b. field. intros H.
    apply (Qlt_irrefl 0). rewrite <- H at 2. apply (Qlt_inject_Z 0 b Hb). }
  assert (Qa1 : 2 ^ la <= inject_Z a) by (rewrite <- pow2_Z by lia; rewrite <- Zle_Qle; exact Ha1).
  assert (Qa2 : inject_Z a < 2 ^ (la + 1)).
  { rewrite <- pow2_Z by lia. rewrite <- Zlt_Qlt. replace (la + 1)%Z with (Z.succ la) by lia. exact Ha2. }
  assert (Qb1 : 2 ^ lb <= inject_Z b) by (rewrite <- pow2_Z by lia; rewrite <- Zle_Qle; exact Hb1).
  assert (Qb2 : inject_Z b < 2 ^ (lb + 1)).
  { rewrite <- pow2_Z by lia. rewrite <- Zlt_Qlt. replace (lb + 1)%Z with (Z.succ lb) by lia. exact Hb2. }
  rewrite pow2_succ in Qa2, Qb2.
  pose proof (pow2_pos la) as Pla. pose proof (pow2_pos lb) as Plb.
  pose proof (pow2_pos (la - lb)) as Pk.
  assert (Ek : 2 ^ (la - lb) * 2 ^ lb == 2 ^ la).
  { rewrite <- pow2_add. replace (la - lb + lb)%Z with la by lia. reflexivity. }
  assert (Hup : q < 2 * 2 ^ (la - lb)).
  { apply Qnot_le_lt; intros Hc.
    assert (2 * 2 ^ (la - lb) * 2 ^ lb <= q * inject_Z b) by nra.
    nra. }
  assert (Hlo : 2 ^ (la - lb) < 2 * q).
  { apply Qnot_le_lt; intros Hc.
    assert (2 * q * inject_Z b <= 2 ^ (la - lb) * (2 * 2 ^ lb)) by nra.
    nra. }
  destruct (Qle_bool (2 ^ (la - lb)) q) eqn:E.
  - apply Qle_bool_iff in E. split; [exact E|]. rewrite pow2_succ. exact Hup.
  - assert (Hlt : q < 2 ^ (la - lb)).
    { apply Qnot_le_lt; intros Hc. apply Qle_bool_iff in Hc. congruence. }
    replace (la - lb - 1 + 1)%Z with (la - lb)%Z by lia.
    split; [|exact Hlt].
    assert (E1 : 2 ^ (la - lb) == 2 * 2 ^ (la - lb - 1)).
    { rewrite <- pow2_succ. replace (la - lb - 1 + 1)%Z with (la - lb)%Z by lia. reflexivity. }
    rewrite E1 in Hlo. lra.
Qed.
Lemma pow2_window_unique (q : Q) (j k : Z) :
  2 ^ j <= q -> q < 2 ^ (j + 1) -> 2 ^ k <= q -> q < 2 ^ (k + 1) -> j = k.
Proof.
  intros J1 J2 K1 K2.
  assert (H1 : (j < k + 1)%Z) by (apply pow2_lt_inv; lra).
  assert (H2 : (k < j + 1)%Z) by (apply pow2_lt_inv; lra).
  lia.
Qed.

Lemma ilog2_unique (q : Q) (k : Z) :
  2 ^ k <= q -> q < 2 ^ (k + 1) -> ilog2 q = k.
Proof.
  intros K1 K2.
  assert (Hq : 0 < q) by (pose proof (pow2_pos k); lra).
  destruct (ilog2_spec q Hq) as [J1 J2].
  eapply pow2_window_unique; eassumption.
Qed.

Lemma ilog2_mono (p q : Q) : 0 < p -> p <= q -> (ilog2 p <= ilog2 q)%Z.
Proof.
  intros Hp Hpq.
  destruct (ilog2_spec p Hp) as [P1 _].
  destruct (ilog2_spec q) as [_ Q2]; [lra|].
  assert (H : (ilog2 p < ilog2 q + 1)%Z) by (apply pow2_lt_inv; lra).
  lia.
Qed.

Lemma ilog2_comp (p q : Q) : 0 < p -> p == q -> ilog2 p = ilog2 q.
Proof.
  intros Hp E.
  destruct (ilog2_spec p Hp) as [P1 P2].
  symmetry; apply ilog2_unique; rewrite <- E; assumption.
Qed.

(** [2^k <= q] is read off [ilog2]. *)
Lemma ilog2_ge (q : Q) (k : Z) : 2 ^ k <= q -> (k <= ilog2 q)%Z.
Proof.
  intros K.
  assert (Hq : 0 < q) by (pose proof (pow2_pos k); lra).
  destruct (ilog2_spec q Hq) as [_ Q2].
  assert (H : (k < ilog2 q + 1)%Z) by (apply pow2_lt_inv; lra).
  lia.
Qed.

Lemma ilog2_lt (q : Q) (k : Z) : 0 < q -> q < 2 ^ k -> (ilog2 q < k)%Z.
Proof.
  intros Hq K.
  destruct (ilog2_spec q Hq) as [Q1 _].
  apply pow2_lt_inv; lra.
Qed.
End Ilog2.

(** ** Rounding to the nearest integer *)

Section Rne.
Local Open Scope Q_scope.

Lemma rne_comp (p q : Q) : p == q -> rne p = rne q.
Proof.
  intros E. unfold rne.
  rewrite (Qfloor_comp _ _ E).
  assert (E' : Qcompare (p - inject_Z (Qfloor q)) (1 # 2) = Qcompare (q - inject_Z (Qfloor q)) (1 # 2)).
  { apply Qcompare_comp; [rewrite E|]; reflexivity. }
  rewrite E'. reflexivity.
Qed.

Lemma rne_Z (n : Z) : rne (inject_Z n) = n.
Proof.
  unfold rne. rewrite Qfloor_Z.
  assert (E : Qcompare (inject_Z n - inject_Z n) (1 # 2) = Lt).
  { rewrite <- Qlt_alt. lra. }
  rewrite E. reflexivity.
Qed.

Lemma rne_floor (q : Q) : (Qfloor q <= rne q <= Qfloor q + 1)%Z.
Proof.
  unfold rne. destruct (Qcompare _ _); [destruct (Z.even _)| |]; lia.
Qed.

(** Rounding to the nearest integer is monotone and fixes the integers. *)
Lemma rne_mono (p q : Q) : p <= q -> (rne p <= rne q)%Z.
Proof.
  intros Hpq.
  pose proof (Qfloor_resp_le _ _ Hpq) as Hf.
  destruct (Z.eq_dec (Qfloor p) (Qfloor q)) as [E|NE].
  - unfold rne. rewrite E.
    destruct (Qcompare (p - inject_Z (Qfloor q)) (1 # 2)) eqn:Cp;
    destruct (Qcompare (q - inject_Z (Qfloor q)) (1 # 2)) eqn:Cq;
    try (destruct (Z.even (Qfloor q))); try lia;
    try rewrite <- Qeq_alt in Cp; try rewrite <- Qlt_alt in Cp; try rewrite <- Qgt_alt in Cp;
    try rewrite <- Qeq_alt in Cq; try rewrite <- Qlt_alt in Cq; try rewrite <- Qgt_alt in Cq;
    exfalso; lra.
  - pose proof (rne_floor p). pose proof (rne_floor q). lia.
Qed.

Lemma rne_le_Z (q : Q) (n : Z) : q <= inject_Z n -> (rne q <= n)%Z.
Proof. intros H. rewrite <- (rne_Z n). apply rne_mono, H. Qed.

Lemma rne_ge_Z (q : Q) (n : Z) : inject_Z n <= q -> (n <= rne q)%Z.
Proof. intros H. rewrite <- (rne_Z n) at 1. apply rne_mono, H. Qed.
End Rne.

(** ** Rounding to the grid of a format *)

Section RoundPos.
Local Open Scope Q_scope.
Variable fmt : format.
Hypothesis prec_pos : (1 <= prec fmt)%Z.

Lemma ulp_exp_ge_emin (q : Q) : (emin fmt <= ulp_exp fmt q)%Z.
Proof. unfold ulp_exp; lia. Qed.

Lemma ulp_exp_mono (p q : Q) : 0 < p -> p <= q -> (ulp_exp fmt p <= ulp_exp fmt q)%Z.
Proof. intros Hp Hpq. pose proof (ilog2_mono p q Hp Hpq). unfold ulp_exp; lia. Qed.

Lemma ulp_exp_comp (p q : Q) : 0 < p -> p == q -> ulp_exp fmt p = ulp_exp fmt q.
Proof. intros Hp E. unfold ulp_exp. rewrite (ilog2_comp p q Hp E). reflexivity. Qed.

Lemma round_pos_comp (p q : Q) : 0 < p -> p == q -> round_pos fmt p == round_pos fmt q.
Proof.
  intros Hp E. unfold round_pos. rewrite (ulp_exp_comp p q Hp E).
  rewrite (rne_comp (p / 2 ^ ulp_exp fmt q) (q / 2 ^ ulp_exp fmt q)); [reflexivity|].
  rewrite E; reflexivity.
Qed.

(** Scaling by the unit in the last place and back. *)
Lemma div_mul_pow2 (q : Q) (e : Z) : q / 2 ^ e * 2 ^ e == q.
Proof. field. pose proof (pow2_pos e); lra. Qed.

Lemma div_pow2_le (p q : Q) (e : Z) : p <= q -> p / 2 ^ e <= q / 2 ^ e.
Proof.
  intros H. unfold Qdiv. apply Qmult_le_compat_r; [exact H|].
  apply Qlt_le_weak, Qinv_lt_0_compat, pow2_pos.
Qed.

Lemma round_pos_nonneg (q : Q) : 0 < q -> 0 <= round_pos fmt q.
Proof.
  intros Hq. unfold round_pos.
  pose proof (pow2_pos (ulp_exp fmt q)) as He.
  assert (H : (0 <= rne (q / 2 ^ ulp_exp fmt q))%Z).
  { apply rne_ge_Z. apply Qlt_le_weak, Qlt_shift_div_l; [exact He|rewrite Qmult_0_l; exact Hq]. }
  rewrite Zle_Qle in H. apply Qmult_le_0_compat; [exact H|apply Qlt_le_weak, He].
Qed.

(** The rounded value on the grid: an integer of at most [prec] bits (or
    the next power of two) times the unit in the last place. *)
Lemma round_pos_shape (q : Q) :
  0 < q ->
  let e := ulp_exp fmt q in
  let n := rne (q / 2 ^ e) in
  round_pos fmt q == inject_Z n * 2 ^ e /\ (0 <= n <= 2 ^ prec fmt)%Z.
Proof.
  intros Hq e n. split; [reflexivity|].
  pose proof (pow2_pos e) as He.
  split.
  - apply rne_ge_Z. apply Qlt_le_weak, Qlt_shift_div_l; [exact He|rewrite Qmult_0_l; exact Hq].
  - apply rne_le_Z. rewrite pow2_Z by lia.
    apply Qle_shift_div_r; [exact He|].
    rewrite <- pow2_add.
    destruct (ilog2_spec q Hq) as [_ Hu].
    apply Qlt_le_weak. eapply Qlt_le_trans; [exact Hu|].
    apply pow2_le. subst e; unfold ulp_exp; lia.
Qed.

(** A number on the grid of the format is its own rounding. *)
Lemma round_pos_repr (q : Q) (n e : Z) :
  q == inject_Z n * 2 ^ e -> (0 < n < 2 ^ prec fmt)%Z -> (emin fmt <= e)%Z ->
  round_pos fmt q == q.
Proof.
  intros Eq [Hn0 Hn] He.
  pose proof (pow2_pos e) as Pe.
  assert (Qn0 : 0 < inject_Z n) by (apply (Qlt_inject_Z 0 n Hn0)).
  assert (Qn : inject_Z n < 2 ^ prec fmt).
  { rewrite <- pow2_Z by lia. apply Qlt_inject_Z, Hn. }
  assert (Hq : 0 < q) by (rewrite Eq; nra).
  assert (Hup : q < 2 ^ (prec fmt + e)).
  { rewrite Eq, pow2_add. nra. }
  pose proof (ilog2_lt q _ Hq Hup) as Hl.
  set (E := ulp_exp fmt q).
  assert (HE : (E <= e)%Z) by (subst E; unfold ulp_exp; lia).
  unfold round_pos. fold E.
  assert (Hquot : q / 2 ^ E == inject_Z (n * 2 ^ (e - E))).
  { rewrite inject_Z_mult, <- pow2_quot_Z by lia. rewrite Eq. field.
    pose proof (pow2_pos E); lra. }
  rewrite (rne_comp _ _ Hquot), rne_Z, <- Hquot.
  apply div_mul_pow2.
Qed.

Lemma round_pos_idem (q : Q) :
  0 < q -> 0 < round_pos fmt q -> round_pos fmt (round_pos fmt q) == round_pos fmt q.
Proof.
  intros Hq Hr.
  destruct (round_pos_shape q Hq) as [E [Hn0 Hn]].
  set (e := ulp_exp fmt q) in *. set (n := rne (q / 2 ^ e)) in *.
  pose proof (pow2_pos e) as Pe.
  assert (Hnpos : (0 < n)%Z).
  { destruct (Z.eq_dec n 0%Z) as [Z0|]; [|lia].
    rewrite E, Z0 in Hr. exfalso. revert Hr. change (inject_Z 0) with 0. lra. }
  destruct (Z.eq_dec n (2 ^ prec fmt)%Z) as [Top|NTop].
  - apply (round_pos_repr _ (2 ^ (prec fmt - 1))%Z (e + 1)%Z).
    + rewrite E, Top. rewrite !pow2_Z by lia. rewrite <- !pow2_add.
      replace (prec fmt - 1 + (e + 1))%Z with (prec fmt + e)%Z by lia. reflexivity.
    + split; [apply Z.pow_pos_nonneg; lia|apply Z.pow_lt_mono_r; lia].
    + pose proof (ulp_exp_ge_emin q). fold e in H. lia.
  - apply (round_pos_repr _ n e); [exact E|lia|apply ulp_exp_ge_emin].
Qed.

(** Rounding is monotone. *)
Lemma round_pos_mono (p q : Q) :
  0 < p -> p <= q -> round_pos fmt p <= round_pos fmt q.
Proof.
  intros Hp Hpq.
  assert (Hq : 0 < q) by lra.
  pose proof (ulp_exp_mono p q Hp Hpq) as He.
  unfold round_pos.
  set (e1 := ulp_exp fmt p) in *. set (e2 := ulp_exp fmt q) in *.
  pose proof (pow2_pos e1) as P1. pose proof (pow2_pos e2) as P2.
  destruct (Z.eq_dec e1 e2) as [E|NE].
  - rewrite E. apply Qmult_le_compat_r; [|lra].
    rewrite <- Zle_Qle. apply rne_mono, div_pow2_le, Hpq.
  - assert (He2 : e2 = (ilog2 q - prec fmt + 1)%Z).
    { pose proof (ulp_exp_ge_emin p). fold e1 in H. subst e2. unfold ulp_exp in *. lia. }
    assert (He1 : (ilog2 p - prec fmt + 1 <= e1)%Z) by (subst e1; unfold ulp_exp; lia).
    destruct (ilog2_spec p Hp) as [_ Pu].
    destruct (ilog2_spec q Hq) as [Ql _].
    set (b := (e2 + prec fmt - 1)%Z).
    assert (Hb : ilog2 q = b) by (subst b; lia).
    assert (Hpb : p <= 2 ^ b).
    { apply Qlt_le_weak. eapply Qlt_le_trans; [exact Pu|]. apply pow2_le. lia. }
    assert (Hbq : 2 ^ b <= q) by (rewrite <- Hb; exact Ql).
    apply Qle_trans with (2 ^ b).
    + assert (H : (rne (p / 2 ^ e1) <= 2 ^ (b - e1))%Z).
      { apply rne_le_Z. rewrite <- pow2_quot_Z by lia. apply div_pow2_le, Hpb. }
      rewrite Zle_Qle in H. rewrite <- pow2_quot_Z in H by lia.
      rewrite <- (div_mul_pow2 (2 ^ b) e1).
      apply Qmult_le_compat_r; [exact H|lra].
    + assert (H : (2 ^ (b - e2) <= rne (q / 2 ^ e2))%Z).
      { apply rne_ge_Z. rewrite <- pow2_quot_Z by lia. apply div_pow2_le, Hbq. }
      rewrite Zle_Qle in H. rewrite <- pow2_quot_Z in H by lia.
      rewrite <- (div_mul_pow2 (2 ^ b) e2) at 1.
      apply Qmult_le_compat_r; [exact H|lra].
Qed.
End RoundPos.

(** ** Rounding is to nearest, ties to even *)

Section Nearest.
Local Open Scope Q_scope.

Lemma Qabs_ge_l (a b : Q) : b <= a -> b <= Qabs a.
Proof. intros H. eapply Qle_trans; [exact H|apply Qle_Qabs]. Qed.

Lemma Qabs_ge_r (a b : Q) : b <= - a -> b <= Qabs a.
Proof. intros H. rewrite <- Qabs_opp. apply Qabs_ge_l, H. Qed.

Lemma Qabs_le_both (a b : Q) : a <= b -> - a <= b -> Qabs a <= b.
Proof. intros H1 H2. apply Qabs_Qle_condition. split; lra. Qed.

(** [rne] gives an integer nearest to its argument. *)
Lemma rne_nearest (x : Q) (m : Z) :
  Qabs (inject_Z (rne x) - x) <= Qabs (inject_Z m - x).
Proof.
  pose proof (Qfloor_le x) as Lo. pose proof (Qlt_floor x) as Hi.
  rewrite inject_Z_plus in Hi. change (inject_Z 1) with 1 in Hi.
  assert (Hm : inject_Z m <= inject_Z (Qfloor x) \/ inject_Z (Qfloor x) + 1 <= inject_Z m).
  { destruct (Z_le_gt_dec m (Qfloor x)) as [L|G].
    - left. rewrite <- Zle_Qle. exact L.
    - right. change 1 with (inject_Z 1). rewrite <- inject_Z_plus, <- Zle_Qle. lia. }
  unfold rne.
  destruct (Qcompare_spec (x - inject_Z (Qfloor x)) (1 # 2)) as [E|L|G];
    [destruct (Z.even (Qfloor x))| |];
    rewrite ?inject_Z_plus; change (inject_Z 1) with 1;
    set (f := inject_Z (Qfloor x)) in *; set (z := inject_Z m) in *;
    apply Qabs_le_both;
    destruct Hm as [Hm|Hm];
    try (apply Qabs_ge_l; lra); try (apply Qabs_ge_r; lra).
Qed.

(** On a tie it is the even one. *)
Lemma rne_tie_even (x : Q) :
  Qabs (inject_Z (rne x) - x) == 1 # 2 -> Z.even (rne x) = true.
Proof.
  pose proof (Qfloor_le x) as Lo. pose proof (Qlt_floor x) as Hi.
  rewrite inject_Z_plus in Hi. change (inject_Z 1) with 1 in Hi.
  unfold rne.
  destruct (Qcompare_spec (x - inject_Z (Qfloor x)) (1 # 2)) as [E|L|G].
  - intros _. destruct (Z.even (Qfloor x)) eqn:Ev; [exact Ev|].
    rewrite Z.even_add, Ev. reflexivity.
  - intros H. exfalso.
    set (f := inject_Z (Qfloor x)) in *.
    assert (A : Qabs (f - x) == x - f).
    { rewrite <- Qabs_opp. rewrite Qabs_pos; lra. }
    rewrite A in H. lra.
  - intros H. exfalso. rewrite inject_Z_plus in H. change (inject_Z 1) with 1 in H.
    set (f := inject_Z (Qfloor x)) in *.
    assert (A : Qabs (f + 1 - x) == f + 1 - x) by (rewrite Qabs_pos; lra).
    rewrite A in H. lra.
Qed.

Variable fmt : format.
Hypothesis prec_pos : (1 <= prec fmt)%Z.

(** Among the multiples of the unit in the last place, the rounding of [q]
    is one nearest to [q]. *)
Lemma round_pos_nearest_multiple (q : Q) (m : Z) :
  0 < q ->
  Qabs (round_pos fmt q - q) <= Qabs (inject_Z m * 2 ^ ulp_exp fmt q - q).
Proof.
  intros Hq. unfold round_pos. set (e := ulp_exp fmt q).
  pose proof (pow2_pos e) as Pe.
  assert (S : forall n : Z,
             inject_Z n * 2 ^ e - q == (inject_Z n - q / 2 ^ e) * 2 ^ e).
  { intros n. field. lra. }
  rewrite (S (rne (q / 2 ^ e))), (S m), !Qabs_Qmult.
  rewrite (Qabs_pos (2 ^ e)) by lra.
  apply Qmult_le_compat_r; [apply rne_nearest|lra].
Qed.

(** The rounding of [q] is as close to [q] as any number of the format. *)
Lemma round_pos_nearest (q r : Q) :
  0 < q -> on_grid fmt r ->
  Qabs (round_pos fmt q - q) <= Qabs (r - q).
Proof.
  intros Hq (n & e' & Er & [Hn0 Hn] & He').
  set (e := ulp_exp fmt q).
  destruct (Z_le_gt_dec e e') as [L|G].
  - (* r is a multiple of the unit in the last place of q *)
    assert (E : r == inject_Z (n * 2 ^ (e' - e)) * 2 ^ e).
    { rewrite Er, inject_Z_mult, pow2_Z by lia.
      rewrite <- Qmult_assoc, <- pow2_add.
      replace (e' - e + e)%Z with e' by lia. reflexivity. }
    rewrite E. apply round_pos_nearest_multiple, Hq.
  - (* r lies below the binade of q *)
    destruct (ilog2_spec q Hq) as [K1 _].
    set (k := ilog2 q) in *.
    assert (Ee : e = (k - prec fmt + 1)%Z).
    { subst e. unfold ulp_exp in *. fold k in G |- *. lia. }
    assert (Hr : r <= 2 ^ k).
    { rewrite Er.
      assert (A : inject_Z n <= 2 ^ prec fmt).
      { rewrite <- pow2_Z by lia. rewrite <- Zle_Qle. lia. }
      apply Qle_trans with (2 ^ prec fmt * 2 ^ e').
      - apply Qmult_le_compat_r; [exact A|apply Qlt_le_weak, pow2_pos].
      - rewrite <- pow2_add. apply pow2_le. lia. }
    assert (Ek : 2 ^ k == inject_Z (2 ^ (prec fmt - 1)) * 2 ^ e).
    { rewrite pow2_Z by lia. rewrite <- pow2_add. rewrite Ee.
      replace (prec fmt - 1 + (k - prec fmt + 1))%Z with k by lia. reflexivity. }
    pose proof (round_pos_nearest_multiple q (2 ^ (prec fmt - 1)) Hq) as N.
    fold e in N. rewrite <- Ek in N.
    eapply Qle_trans; [exact N|].
    rewrite (Qabs_neg (2 ^ k - q)) by lra.
    apply Qabs_ge_r. lra.
Qed.
(** The rounding of [q] is a number of the format. *)
Lemma round_pos_on_grid (q : Q) : 0 < q -> on_grid fmt (round_pos fmt q).
Proof.
  intros Hq. destruct (round_pos_shape fmt prec_pos q Hq) as [E [Hn0 Hn]].
  set (e := ulp_exp fmt q) in *. set (n := rne (q / 2 ^ e)) in *.
  destruct (Z.eq_dec n (2 ^ prec fmt)%Z) as [Top|NTop].
  - exists (2 ^ (prec fmt - 1))%Z, (e + 1)%Z. split; [|split].
    + rewrite E, Top. rewrite !pow2_Z by lia. rewrite <- !pow2_add.
      replace (prec fmt - 1 + (e + 1))%Z with (prec fmt + e)%Z by lia. reflexivity.
    + split; [apply Z.pow_nonneg; lia|apply Z.pow_lt_mono_r; lia].
    + pose proof (ulp_exp_ge_emin fmt q) as H. fold e in H. lia.
  - exists n, e. split; [exact E|]. split; [lia|apply ulp_exp_ge_emin].
Qed.
End Nearest.

(** ** The order on data *)

Section Order.
Local Open Scope Q_scope.

Lemma fle_Fin (a b : Q) : fle (Fin a) (Fin b) = true <-> a <= b.
Proof.
  unfold fle; simpl. destruct (Qcompare_spec a b); split; intros; try easy; try lra.
Qed.

Lemma flt_Fin (a b : Q) : flt (Fin a) (Fin b) = true <-> a < b.
Proof.
  unfold flt; simpl. destruct (Qcompare_spec a b); split; intros; try easy; try lra.
Qed.

Lemma fle_not_nan (x y : fval) : fle x y = true -> x <> NaN /\ y <> NaN.
Proof. unfold fle; destruct x, y; simpl; intros H; split; easy. Qed.

Lemma fle_refl (x : fval) : x <> NaN -> fle x x = true.
Proof.
  destruct x as [|[]|[]|q]; intros H; try easy.
  apply fle_Fin; lra.
Qed.

(** On data other than NaN, [fle] is a total preorder. *)
Lemma fle_trans (x y z : fval) : fle x y = true -> fle y z = true -> fle x z = true.
Proof.
  unfold fle.
  destruct x as [|[]|[]|a], y as [|[]|[]|b], z as [|[]|[]|c]; simpl; try easy;
    intros; qcmp; try easy; exfalso; lra.
Qed.

Lemma flt_false_fle (x y : fval) :
  flt x y = false -> x <> NaN -> y <> NaN -> fle y x = true.
Proof.
  unfold fle, flt.
  destruct x as [|[]|[]|a], y as [|[]|[]|b]; simpl; try easy;
    intros; qcmp; try easy; exfalso; lra.
Qed.

Lemma fpos_cases (x : fval) :
  fpos x = true -> x = Inf false \/ exists q, x = Fin q /\ 0 < q.
Proof.
  unfold fpos, flt.
  destruct x as [|[]|[]|q]; simpl; try easy; [left; reflexivity|].
  intros H. right. exists q. split; [reflexivity|].
  destruct (Qcompare_spec 0 q); easy.
Qed.

Lemma fpos_Fin (q : Q) : 0 < q -> fpos (Fin q) = true.
Proof. intros H. apply flt_Fin in H. exact H. Qed.

Lemma fle_fpos (x y : fval) : fpos x = true -> fle x y = true -> fpos y = true.
Proof.
  unfold fpos, fle, flt.
  destruct x as [|[]|[]|a], y as [|[]|[]|b]; simpl; try easy;
    intros; qcmp; try easy; exfalso; lra.
Qed.

(** [std::min] and [std::max] return one of their arguments. *)
Lemma std_min_cases (a b : fval) : std_min a b = a \/ std_min a b = b.
Proof. unfold std_min. destruct (flt b a); auto. Qed.

Lemma std_max_cases (a b : fval) : std_max a b = a \/ std_max a b = b.
Proof. unfold std_max. destruct (flt a b); auto. Qed.

Lemma std_min_le_r (a b : fval) : a <> NaN -> b <> NaN -> fle (std_min a b) b = true.
Proof.
  intros Ha Hb. unfold std_min. destruct (flt b a) eqn:E.
  - apply fle_refl, Hb.
  - apply flt_false_fle; assumption.
Qed.

Lemma std_max_ge_r (a b : fval) : a <> NaN -> b <> NaN -> fle b (std_max a b) = true.
Proof.
  intros Ha Hb. unfold std_max. destruct (flt a b) eqn:E.
  - apply fle_refl, Hb.
  - apply flt_false_fle; assumption.
Qed.
End Order.

(** ** Rounding to a datum: zero, finite or infinite *)

Section RoundVal.
Local Open Scope Q_scope.
Variable fmt : format.
Hypothesis prec_pos : (1 <= prec fmt)%Z.

Lemma round_gt (z : bool) (q : Q) :
  0 < q -> round fmt z q = pack fmt false (round_pos fmt q).
Proof.
  intros H. unfold round. destruct (Qcompare_spec q 0); try lra. reflexivity.
Qed.

Lemma round_lt (z : bool) (q : Q) :
  q < 0 -> round fmt z q = pack fmt true (round_pos fmt (- q)).
Proof.
  intros H. unfold round. destruct (Qcompare_spec q 0); try lra. reflexivity.
Qed.

Lemma pack_comp (s : bool) (r r' : Q) : r == r' -> pack fmt s r = pack fmt s r'.
Proof.
  intros E. unfold pack.
  assert (E0 : Qeq_bool r 0 = Qeq_bool r' 0).
  { apply eq_true_iff_eq. rewrite !Qeq_bool_iff, E. reflexivity. }
  assert (E1 : Qle_bool r (max_finite fmt) = Qle_bool r' (max_finite fmt)).
  { apply eq_true_iff_eq. rewrite !Qle_bool_iff, E. reflexivity. }
  rewrite E0, E1.
  assert (E2 : Qred (if s then - r else r) = Qred (if s then - r' else r')).
  { apply Qred_complete. destruct s; rewrite E; reflexivity. }
  rewrite E2. reflexivity.
Qed.

(** The three outcomes of [pack]. *)
Lemma pack_cases (s : bool) (r : Q) :
  0 <= r ->
  (r == 0 /\ pack fmt s r = Zero s) \/
  (0 < r /\ r <= max_finite fmt /\ pack fmt s r = Fin (Qred (if s then - r else r))) \/
  (max_finite fmt < r /\ 0 < r /\ pack fmt s r = Inf s).
Proof.
  intros Hr. unfold pack.
  destruct (Qeq_bool r 0) eqn:E0.
  - left. apply Qeq_bool_iff in E0. auto.
  - assert (N0 : ~ r == 0) by (intros H; apply Qeq_bool_iff in H; congruence).
    assert (P : 0 < r) by (apply Qnot_le_lt; intros H; apply N0; lra).
    right. destruct (Qle_bool r (max_finite fmt)) eqn:E1.
    + left. apply Qle_bool_iff in E1. auto.
    + right. split; [|auto].
      apply Qnot_le_lt; intros H. apply Qle_bool_iff in H. congruence.
Qed.

Lemma round_not_nan (z : bool) (q : Q) : round fmt z q <> NaN.
Proof.
  unfold round, pack. destruct (Qcompare q 0); try easy;
    destruct (Qeq_bool _ 0); try easy; destruct (Qle_bool _ _); easy.
Qed.

Lemma round_mono (z1 z2 : bool) (p q : Q) :
  0 < p -> p <= q -> fle (round fmt z1 p) (round fmt z2 q) = true.
Proof.
  intros Hp Hpq. assert (Hq : 0 < q) by lra.
  rewrite (round_gt z1 p Hp), (round_gt z2 q Hq).
  pose proof (round_pos_mono fmt prec_pos p q Hp Hpq) as M.
  pose proof (round_pos_nonneg fmt p Hp) as Np.
  pose proof (round_pos_nonneg fmt q Hq) as Nq.
  destruct (pack_cases false _ Np) as [[A ->]|[[A [B ->]]|[A [B ->]]]];
  destruct (pack_cases false _ Nq) as [[C ->]|[[C [D ->]]|[C [D ->]]]];
    try reflexivity; try (exfalso; lra).
  - apply fle_Fin. rewrite Qred_correct. change (qval (Zero false)) with 0. lra.
  - apply fle_Fin. rewrite !Qred_correct. exact M.
Qed.

(** A positive datum of the format: on the grid, in lowest terms, in range. *)
Lemma round_fix_inv (z : bool) (q : Q) :
  0 < q -> round fmt z q = Fin q ->
  round_pos fmt q == q /\ Qred q = q /\ q <= max_finite fmt.
Proof.
  intros Hq H. rewrite (round_gt z q Hq) in H.
  destruct (pack_cases false _ (round_pos_nonneg fmt q Hq))
    as [[A E]|[[A [B E]]|[A [B E]]]]; rewrite E in H; try discriminate.
  injection H as H.
  assert (Eq : round_pos fmt q == q) by (rewrite <- H at 2; symmetry; apply Qred_correct).
  split; [exact Eq|]. split.
  - rewrite <- H at 2. apply Qred_complete. symmetry; exact Eq.
  - rewrite <- Eq. exact B.
Qed.

Lemma round_fix (z : bool) (q : Q) :
  0 < q -> round_pos fmt q == q -> Qred q = q -> q <= max_finite fmt ->
  round fmt z q = Fin q.
Proof.
  intros Hq E C B. rewrite (round_gt z q Hq), (pack_comp false _ q E).
  destruct (pack_cases false q (Qlt_le_weak _ _ Hq))
    as [[A ->]|[[A [B' ->]]|[A [B' ->]]]]; try (exfalso; lra).
  rewrite C. reflexivity.
Qed.

(** Rounding a rounded datum changes nothing. *)
Lemma round_idem (z z' : bool) (q r : Q) :
  round fmt z q = Fin r -> round fmt z' r = Fin r.
Proof.
  intros H. unfold round in H. destruct (Qcompare_spec q 0) as [E|L|G]; [discriminate| |].
  - assert (Hq : 0 < - q) by lra.
    destruct (pack_cases true _ (round_pos_nonneg fmt _ Hq))
      as [[A E]|[[A [B E]]|[A [B E]]]]; rewrite E in H; try discriminate.
    injection H as H.
    set (r0 := round_pos fmt (- q)) in *.
    assert (Er : r == - r0) by (rewrite <- H; apply Qred_correct).
    assert (Hr : r < 0) by lra.
    rewrite (round_lt z' r Hr).
    assert (E1 : round_pos fmt (- r) == r0).
    { rewrite (round_pos_comp fmt (- r) r0); [|lra|lra].
      apply round_pos_idem; assumption. }
    rewrite (pack_comp true _ _ E1), E, H. reflexivity.
  - destruct (pack_cases false _ (round_pos_nonneg fmt _ G))
      as [[A E]|[[A [B E]]|[A [B E]]]]; rewrite E in H; try discriminate.
    injection H as H.
    set (r0 := round_pos fmt q) in *.
    assert (Er : r == r0) by (rewrite <- H; apply Qred_correct).
    assert (Hr : 0 < r) by lra.
    rewrite (round_gt z' r Hr).
    assert (E1 : round_pos fmt r == r0).
    { rewrite (round_pos_comp fmt r r0); [|lra|lra].
      apply round_pos_idem; assumption. }
    rewrite (pack_comp false _ _ E1), E, H. reflexivity.
Qed.

End RoundVal.

(** ** [float] within [double], and the two adjustments *)

Section FloatDouble.
Local Open Scope Q_scope.

Lemma prec32 : (1 <= prec binary32)%Z.
Proof. simpl; lia. Qed.

Lemma prec64 : (1 <= prec binary64)%Z.
Proof. simpl; lia. Qed.

Lemma lit_1_2_eq : lit_1_2 = Fin lit_1_2_q.
Proof. vm_compute. reflexivity. Qed.

Lemma min_vel_default_eq : min_vel_default = Fin min_vel_q.
Proof. vm_compute. reflexivity. Qed.

Lemma is_float_min_vel_default : is_float min_vel_default.
Proof. vm_compute. reflexivity. Qed.

Lemma fpos_min_vel_default : fpos min_vel_default = true.
Proof. vm_compute. reflexivity. Qed.

(** Every result of a conversion to [float] is a [float]. *)
Lemma d2f_idem (x : fval) : d2f (d2f x) = d2f x.
Proof.
  destruct x as [| | |q]; try reflexivity. simpl.
  destruct (round binary32 false q) as [| | |r] eqn:E; try reflexivity.
  simpl. apply (round_idem binary32 prec32 false false q r E).
Qed.

Lemma is_float_d2f (x : fval) : is_float (d2f x).
Proof. apply d2f_idem. Qed.

(** The conversion to [float] keeps the order of positive data. *)
Lemma d2f_mono (x y : fval) :
  fpos x = true -> fle x y = true -> fle (d2f x) (d2f y) = true.
Proof.
  intros Px Hxy.
  destruct (fpos_cases x Px) as [->|[p [-> Hp]]].
  - destruct y as [|[]|[]|q]; try discriminate. reflexivity.
  - pose proof (fle_fpos _ _ Px Hxy) as Py.
    destruct (fpos_cases y Py) as [->|[q [-> Hq]]].
    + simpl. pose proof (round_not_nan binary32 false p).
      destruct (round binary32 false p) as [|[]|[]|r]; easy.
    + apply fle_Fin in Hxy. simpl. apply round_mono; [apply prec32|exact Hp|exact Hxy].
Qed.

Lemma max_finite_32_64 : max_finite binary32 <= max_finite binary64.
Proof. apply Qle_bool_iff. vm_compute. reflexivity. Qed.

(** A positive [float] is a [double]. *)
Lemma float_is_double (z : bool) (q : Q) :
  0 < q -> is_float (Fin q) -> round binary64 z q = Fin q.
Proof.
  intros Hq F. unfold is_float in F; simpl in F.
  destruct (round_fix_inv binary32 false q Hq F) as [E [C B]].
  destruct (round_pos_shape binary32 prec32 q Hq) as [S [N0 N]].
  set (e := ulp_exp binary32 q) in *. set (n := rne (q / 2 ^ e)) in *.
  assert (Hn : (0 < n)%Z).
  { destruct (Z.eq_dec n 0%Z) as [Z0|]; [|lia].
    rewrite S, Z0 in E. exfalso. revert E. change (inject_Z 0) with 0. intros E.
    rewrite Qmult_0_l in E. rewrite <- E in Hq. apply (Qlt_irrefl 0), Hq. }
  apply round_fix; [exact Hq| |exact C|].
  - apply (round_pos_repr binary64 prec64 q n e).
    + rewrite <- E at 1. exact S.
    + simpl in *. lia.
    + pose proof (ulp_exp_ge_emin binary32 q). fold e in H. simpl in *. lia.
  - eapply Qle_trans; [exact B|apply max_finite_32_64].
Qed.

(** Multiplying a positive [float] by 1.2 in [double] does not lower it,
    dividing it by 1.2 does not raise it. *)
Lemma dmul_ge (s : fval) :
  is_float s -> fpos s = true -> fle s (dmul s lit_1_2) = true.
Proof.
  intros F P. rewrite lit_1_2_eq.
  destruct (fpos_cases s P) as [->|[q [-> Hq]]]; [reflexivity|].
  unfold dmul, fmul.
  rewrite <- (float_is_double false q Hq F) at 1.
  apply round_mono; [apply prec64|exact Hq|].
  assert (1 <= lit_1_2_q) by (apply Qle_bool_iff; reflexivity).
  nra.
Qed.

Lemma ddiv_le (s : fval) :
  is_float s -> fpos s = true -> fle (ddiv s lit_1_2) s = true.
Proof.
  intros F P. rewrite lit_1_2_eq.
  destruct (fpos_cases s P) as [->|[q [-> Hq]]]; [reflexivity|].
  unfold ddiv, fdiv.
  rewrite <- (float_is_double false q Hq F) at 2.
  set (c := lit_1_2_q).
  assert (Hc : 1 <= c) by (apply Qle_bool_iff; reflexivity).
  assert (Hd : 0 < q / c) by (apply Qlt_shift_div_l; lra).
  apply round_mono; [apply prec64|exact Hd|].
  apply Qle_shift_div_r; [lra|nra].
Qed.

Lemma ddiv_fpos (s : fval) : fpos s = true -> ddiv s lit_1_2 <> NaN.
Proof.
  intros P. rewrite lit_1_2_eq.
  destruct (fpos_cases s P) as [->|[q [-> Hq]]]; [easy|].
  apply round_not_nan.
Qed.

(** The scale after an increment and after a decrement stays between the
    bounds. *)
Lemma increment_bounds (m s M : fval) :
  is_float m -> is_float s -> is_float M -> fpos m = true ->
  fle m s = true -> fle s M = true ->
  let s' := d2f (std_min (dmul (f2d s) lit_1_2) (f2d M)) in
  is_float s' /\ fle m s' = true /\ fle s' M = true.
Proof.
  intros Fm Fs FM Pm Hms HsM s'. unfold f2d in s'.
  pose proof Fm as Em. pose proof Fs as Es. pose proof FM as EM.
  unfold is_float in Em, Es, EM.
  pose proof (fle_fpos _ _ Pm Hms) as Ps.
  pose proof (dmul_ge s Fs Ps) as Hp.
  set (p := dmul s lit_1_2) in *.
  destruct (fle_not_nan _ _ Hp) as [_ Np].
  destruct (fle_not_nan _ _ HsM) as [_ NM].
  assert (Lo : fle m (std_min p M) = true).
  { destruct (std_min_cases p M) as [-> | ->].
    - eapply fle_trans; eassumption.
    - eapply fle_trans; eassumption. }
  assert (Hi : fle (std_min p M) M = true) by (apply std_min_le_r; assumption).
  split; [apply is_float_d2f|]. split.
  - pose proof (d2f_mono _ _ Pm Lo) as H. rewrite Em in H. exact H.
  - assert (P : fpos (std_min p M) = true) by (apply (fle_fpos m _ Pm Lo)).
    pose proof (d2f_mono _ _ P Hi) as H. rewrite EM in H. exact H.
Qed.

Lemma decrement_bounds (m s M : fval) :
  is_float m -> is_float s -> is_float M -> fpos m = true ->
  fle m s = true -> fle s M = true ->
  let s' := d2f (std_max (ddiv (f2d s) lit_1_2) (f2d m)) in
  is_float s' /\ fle m s' = true /\ fle s' s = true.
Proof.
  intros Fm Fs FM Pm Hms HsM s'. unfold f2d in s'.
  pose proof Fm as Em. pose proof Fs as Es. pose proof FM as EM.
  unfold is_float in Em, Es, EM.
  pose proof (fle_fpos _ _ Pm Hms) as Ps.
  pose proof (ddiv_le s Fs Ps) as Ht.
  set (t := ddiv s lit_1_2) in *.
  destruct (fle_not_nan _ _ Ht) as [Nt _].
  destruct (fle_not_nan _ _ Hms) as [Nm _].
  assert (Lo : fle m (std_max t m) = true) by (apply std_max_ge_r; assumption).
  assert (Hi : fle (std_max t m) s = true).
  { destruct (std_max_cases t m) as [-> | ->]; assumption. }
  split; [apply is_float_d2f|]. split.
  - pose proof (d2f_mono _ _ Pm Lo) as H. rewrite Em in H. exact H.
  - assert (P : fpos (std_max t m) = true) by (apply (fle_fpos m _ Pm Lo)).
    pose proof (d2f_mono _ _ P Hi) as H. rewrite Es in H. exact H.
Qed.
End FloatDouble.

(** ** How much a decrement lowers the scale *)

Section Decrease.
Local Open Scope Q_scope.

Lemma fle_sandwich (x : fval) (a b : Q) :
  0 < a -> fle (Fin a) x = true -> fle x (Fin b) = true ->
  exists q, x = Fin q /\ a <= q /\ q <= b.
Proof.
  intros Ha L U. destruct x as [|[]|[]|q]; try discriminate.
  - exfalso. unfold fle in L; simpl in L.
    destruct (Qcompare_spec a 0); try discriminate; lra.
  - exfalso. unfold fle in L; simpl in L.
    destruct (Qcompare_spec a 0); try discriminate; lra.
  - exists q. apply fle_Fin in L. apply fle_Fin in U. auto.
Qed.

(** Below a [float] [q >= 2^-4] lies the float [q - 2^(k-3)], [k] the
    binary order of magnitude of [q]: eight steps of the binade below. *)
Lemma float_below (q : Q) :
  0 < q -> is_float (Fin q) -> 2 ^ (-4) <= q ->
  exists u, is_float (Fin u) /\ 0 < u /\ (7 # 8) * q <= u /\ u <= q - (1 # 128).
Proof.
  intros Hq F Hlo. unfold is_float in F; simpl in F.
  destruct (round_fix_inv binary32 false q Hq F) as [E [C B]].
  destruct (round_pos_shape binary32 prec32 q Hq) as [S [N0 N]].
  pose proof (ilog2_ge q (-4) Hlo) as Hk.
  destruct (ilog2_spec q Hq) as [K1 K2].
  set (k := ilog2 q) in *.
  assert (He : ulp_exp binary32 q = (k - 23)%Z).
  { unfold ulp_exp. fold k. simpl. lia. }
  rewrite He in S, N0, N. set (e := (k - 23)%Z) in *.
  set (n := rne (q / 2 ^ e)) in *.
  rewrite E in S.
  pose proof (pow2_pos e) as Pe.
  assert (P23 : 2 ^ k == inject_Z (2 ^ 23) * 2 ^ e).
  { rewrite pow2_Z by lia. rewrite <- pow2_add. subst e.
    replace (23 + (k - 23))%Z with k by lia. reflexivity. }
  assert (P20 : 2 ^ (k - 3) == inject_Z (2 ^ 20) * 2 ^ e).
  { rewrite pow2_Z by lia. rewrite <- pow2_add. subst e.
    replace (20 + (k - 23))%Z with (k - 3)%Z by lia. reflexivity. }
  assert (P8 : 2 ^ k == 8 * 2 ^ (k - 3)).
  { change 8 with (2 ^ 3). rewrite <- pow2_add.
    replace (3 + (k - 3))%Z with k by lia. reflexivity. }
  assert (Hn : (2 ^ 23 <= n)%Z).
  { rewrite Zle_Qle. apply Qmult_le_r with (z := 2 ^ e); [exact Pe|].
    rewrite <- P23, <- S. exact K1. }
  set (U := inject_Z (n - 2 ^ 20) * 2 ^ e).
  assert (EU : U == q - 2 ^ (k - 3)).
  { subst U. rewrite P20, S. unfold Zminus. rewrite inject_Z_plus, inject_Z_opp. ring. }
  assert (HU0 : 0 < U).
  { subst U. apply Qmult_lt_0_compat; [|exact Pe].
    apply (Qlt_inject_Z 0). lia. }
  assert (R32 : round_pos binary32 U == U).
  { apply (round_pos_repr binary32 prec32 U (n - 2 ^ 20) e); [reflexivity|simpl in *; lia|].
    subst e; simpl; lia. }
  assert (HUq : U <= q) by (rewrite EU; pose proof (pow2_pos (k - 3)); lra).
  exists (Qred U). split; [|split; [|split]].
  - unfold is_float; simpl.
    assert (HrU : 0 < Qred U) by (rewrite Qred_correct; exact HU0).
    apply round_fix; [exact HrU| | |].
    + rewrite (round_pos_comp binary32 (Qred U) U HrU (Qred_correct U)).
      rewrite R32. symmetry; apply Qred_correct.
    + apply Qred_complete, Qred_correct.
    + rewrite Qred_correct. lra.
  - rewrite Qred_correct; exact HU0.
  - rewrite Qred_correct, EU. lra.
  - rewrite Qred_correct, EU.
    assert (H7 : 2 ^ (-7) <= 2 ^ (k - 3)) by (apply pow2_le; lia).
    change (2 ^ (-7)) with (1 # 128) in H7. lra.
Qed.

(** One decrement from a finite scale [q >= min_vel]: the new scale is a
    float between [min_vel] and [max (q - 1/128) min_vel]. *)
Lemma decremented_step (q : Q) :
  is_float (Fin q) -> min_vel_q <= q ->
  exists q', decremented min_vel_default (Fin q) = Fin q' /\
             is_float (Fin q') /\ min_vel_q <= q' /\ q' <= q /\
             (q' == min_vel_q \/ q' <= q - (1 # 128)).
Proof.
  intros F Hm.
  assert (M0 : 0 < min_vel_q) by reflexivity.
  assert (Hq : 0 < q) by lra.
  assert (Hlo : 2 ^ (-4) <= q).
  { apply Qle_trans with min_vel_q; [|exact Hm]. apply Qle_bool_iff. reflexivity. }
  destruct (float_below q Hq F Hlo) as [u [Fu [Hu0 [Hu7 Hu]]]].
  pose proof (is_float_d2f (std_max (ddiv (f2d (Fin q)) lit_1_2) (f2d min_vel_default))) as Fs'.
  fold (decremented min_vel_default (Fin q)) in Fs'.
  assert (Pq : fpos (Fin q) = true) by (apply fpos_Fin, Hq).
  assert (Ht : fle (ddiv (Fin q) lit_1_2) (Fin u) = true).
  { rewrite lit_1_2_eq. unfold ddiv, fdiv. fold lit_1_2_q.
    rewrite <- (float_is_double false u Hu0 Fu).
    assert (Hc : 8 # 7 <= lit_1_2_q) by (apply Qle_bool_iff; reflexivity).
    assert (Hd : 0 < q / lit_1_2_q) by (apply Qlt_shift_div_l; lra).
    apply round_mono; [apply prec64|exact Hd|].
    apply Qle_shift_div_r; [lra|nra]. }
  assert (Nt : ddiv (Fin q) lit_1_2 <> NaN) by (apply ddiv_fpos, Pq).
  set (t := ddiv (Fin q) lit_1_2) in *.
  assert (Nm : min_vel_default <> NaN) by (rewrite min_vel_default_eq; discriminate).
  unfold decremented, f2d in *. fold t in Fs' |- *.
  unfold std_max in *.
  destruct (flt t min_vel_default) eqn:Cmp.
  - exists min_vel_q. rewrite is_float_min_vel_default, min_vel_default_eq.
    split; [reflexivity|]. split; [exact (eq_ind _ is_float is_float_min_vel_default _ min_vel_default_eq)|].
    split; [lra|]. split; [exact Hm|left; reflexivity].
  - pose proof (flt_false_fle _ _ Cmp Nt Nm) as Lo.
    pose proof (d2f_mono _ _ fpos_min_vel_default Lo) as Lo'.
    rewrite is_float_min_vel_default, min_vel_default_eq in Lo'.
    assert (Pt : fpos t = true) by (apply (fle_fpos _ _ fpos_min_vel_default Lo)).
    pose proof (d2f_mono _ _ Pt Ht) as Hi'.
    rewrite Fu in Hi'.
    destruct (fle_sandwich (d2f t) min_vel_q u M0 Lo' Hi') as [q' [Eq' [A B]]].
    exists q'. rewrite Eq' in Fs' |- *.
    split; [reflexivity|]. split; [exact Fs'|]. split; [exact A|].
    split; [lra|right; lra].
Qed.

Lemma Fin_min_vel (q : Q) : is_float (Fin q) -> q == min_vel_q -> Fin q = min_vel_default.
Proof.
  intros F E. rewrite min_vel_default_eq. f_equal.
  assert (Hq : 0 < q) by (rewrite E; reflexivity).
  unfold is_float in F; simpl in F.
  destruct (round_fix_inv binary32 false q Hq F) as [_ [C _]].
  rewrite <- C. apply (Qred_complete q min_vel_q E).
Qed.

(** After [n] decrements a scale that started at most [n/128] above
    [min_vel] is [min_vel]. *)
Lemma decrements_reach (n : nat) (q : Q) :
  is_float (Fin q) -> min_vel_q <= q -> q <= min_vel_q + inject_Z (Z.of_nat n) * (1 # 128) ->
  decrements n min_vel_default (Fin q) = min_vel_default.
Proof.
  revert q. induction n as [|n IH]; intros q F Hm Hn.
  - simpl. apply Fin_min_vel; [exact F|].
    change (inject_Z (Z.of_nat 0)) with 0 in Hn. lra.
  - cbn [decrements].
    destruct (decremented_step q F Hm) as [q' [-> [F' [A [_ B]]]]].
    apply IH; [exact F'|exact A|].
    rewrite Nat2Z.inj_succ in Hn. unfold Z.succ in Hn. rewrite inject_Z_plus in Hn.
    change (inject_Z 1) with 1 in Hn.
    assert (H0 : inject_Z 0 <= inject_Z (Z.of_nat n)) by (rewrite <- Zle_Qle; lia).
    change (inject_Z 0) with 0 in H0.
    destruct B as [B|B]; lra.
Qed.
End Decrease.

(** ** The two adjustments from any positive scale *)

Section ScaleAnywhere.
Local Open Scope Q_scope.

Lemma fle_antisym_pos (x y : fval) :
  is_float x -> is_float y -> fpos x = true ->
  fle x y = true -> fle y x = true -> x = y.
Proof.
  intros Fx Fy Px Hxy Hyx.
  pose proof (fle_fpos _ _ Px Hxy) as Py.
  destruct (fpos_cases x Px) as [->|[a [-> Ha]]];
    destruct (fpos_cases y Py) as [->|[b [-> Hb]]]; try reflexivity; try discriminate.
  apply fle_Fin in Hxy. apply fle_Fin in Hyx.
  unfold is_float in Fx, Fy; simpl in Fx, Fy.
  destruct (round_fix_inv binary32 false a Ha Fx) as [_ [Ca _]].
  destruct (round_fix_inv binary32 false b Hb Fy) as [_ [Cb _]].
  f_equal. rewrite <- Ca, <- Cb. apply Qred_complete. lra.
Qed.

Lemma fpos_not_nan (x : fval) : fpos x = true -> x <> NaN.
Proof. intros H E. rewrite E in H. discriminate. Qed.

Lemma std_min_le_l (a b : fval) : a <> NaN -> b <> NaN -> fle (std_min a b) a = true.
Proof.
  intros Ha Hb. unfold std_min. destruct (flt b a) eqn:E; [|apply fle_refl, Ha].
  unfold flt in E. unfold fle. destruct (fcompare b a) as [[]|]; easy.
Qed.

Lemma std_max_ge_l (a b : fval) : a <> NaN -> b <> NaN -> fle a (std_max a b) = true.
Proof.
  intros Ha Hb. unfold std_max. destruct (flt a b) eqn:E; [|apply fle_refl, Ha].
  unfold flt in E. unfold fle. destruct (fcompare a b) as [[]|]; easy.
Qed.

(** An increment from any positive scale lands at or below [max_vel], on
    [max_vel] itself when the scale was at or above it. *)
Lemma incremented_clamps (s M : fval) :
  is_float s -> fpos s = true -> is_float M -> M <> NaN ->
  fle (incremented M s) M = true /\
  (fle M s = true -> incremented M s = M).
Proof.
  intros Fs Ps FM NM. unfold incremented, f2d.
  pose proof (dmul_ge s Fs Ps) as Hp.
  set (p := dmul s lit_1_2) in *.
  destruct (fle_not_nan _ _ Hp) as [_ Np].
  pose proof (fle_fpos _ _ Ps Hp) as Pp.
  unfold std_min. destruct (flt M p) eqn:Cmp.
  - rewrite FM. split; [apply fle_refl, NM|reflexivity].
  - pose proof (flt_false_fle _ _ Cmp NM Np) as HpM.
    pose proof (d2f_mono _ _ Pp HpM) as Hi. rewrite FM in Hi.
    split; [exact Hi|]. intros HMs.
    pose proof (d2f_mono _ _ Ps Hp) as Lo. rewrite Fs in Lo.
    apply fle_antisym_pos.
    + apply is_float_d2f.
    + exact FM.
    + apply (fle_fpos s _ Ps Lo).
    + exact Hi.
    + eapply fle_trans; eassumption.
Qed.

(** A decrement from any positive scale lands at or above [min_vel]: on
    [min_vel] itself, or at or below the scale it started from. *)
Lemma decremented_clamps (s m : fval) :
  is_float s -> fpos s = true -> is_float m -> fpos m = true ->
  fle m (decremented m s) = true /\
  (decremented m s = m \/ fle (decremented m s) s = true) /\
  (fle s m = true -> decremented m s = m).
Proof.
  intros Fs Ps Fm Pm. unfold decremented, f2d.
  pose proof (ddiv_le s Fs Ps) as Ht.
  set (t := ddiv s lit_1_2) in *.
  destruct (fle_not_nan _ _ Ht) as [Nt _].
  pose proof (fpos_not_nan _ Pm) as Nm.
  unfold std_max. destruct (flt t m) eqn:Cmp.
  - rewrite Fm. split; [apply fle_refl, Nm|]. split; [left; reflexivity|reflexivity].
  - pose proof (flt_false_fle _ _ Cmp Nt Nm) as Hmt.
    pose proof (d2f_mono _ _ Pm Hmt) as Lo. rewrite Fm in Lo.
    pose proof (fle_fpos _ _ Pm Hmt) as Pt.
    pose proof (d2f_mono _ _ Pt Ht) as Hi. rewrite Fs in Hi.
    split; [exact Lo|]. split; [right; exact Hi|].
    intros Hsm. symmetry. apply fle_antisym_pos.
    + exact Fm.
    + apply is_float_d2f.
    + exact Pm.
    + exact Lo.
    + eapply fle_trans; eassumption.
Qed.

(** The bounds kept by both adjustments, for any [lo] below [min_vel] and
    [max_vel] and any [hi] above them. *)
Lemma adjust_between (lo hi m M s : fval) :
  is_float lo -> fpos lo = true -> is_float s -> is_float m -> is_float M ->
  fle lo m = true -> fle lo M = true -> fle m hi = true -> fle M hi = true ->
  fle lo s = true -> fle s hi = true ->
  (is_float (incremented M s) /\
   fle lo (incremented M s) = true /\ fle (incremented M s) hi = true) /\
  (is_float (decremented m s) /\
   fle lo (decremented m s) = true /\ fle (decremented m s) hi = true).
Proof.
  intros Fl Pl Fs Fm FM Hlm HlM Hmh HMh Hls Hsh.
  pose proof (fle_fpos _ _ Pl Hls) as Ps.
  pose proof (fle_fpos _ _ Pl Hlm) as Pm.
  destruct (fle_not_nan _ _ HlM) as [_ NM].
  split.
  - destruct (incremented_clamps s M Fs Ps FM NM) as [Hi _].
    split; [apply is_float_d2f|]. split; [|exact (fle_trans _ _ _ Hi HMh)].
    unfold incremented, f2d.
    pose proof (dmul_ge s Fs Ps) as Hp.
    assert (Lo : fle lo (std_min (dmul s lit_1_2) M) = true).
    { destruct (std_min_cases (dmul s lit_1_2) M) as [-> | ->]; [|exact HlM].
      exact (fle_trans _ _ _ Hls Hp). }
    pose proof (d2f_mono _ _ Pl Lo) as H. rewrite Fl in H. exact H.
  - destruct (decremented_clamps s m Fs Ps Fm Pm) as (Lo & [E|Hi] & _).
    + split; [apply is_float_d2f|]. split; [exact (fle_trans _ _ _ Hlm Lo)|].
      rewrite E. exact Hmh.
    + split; [apply is_float_d2f|].
      split; [exact (fle_trans _ _ _ Hlm Lo)|exact (fle_trans _ _ _ Hi Hsh)].
Qed.
(** The scale after an increment is the least of the rounded product and
    [max_vel]: below both, and one of the two. *)
Lemma incremented_is_min (s M : fval) :
  is_float s -> fpos s = true -> is_float M -> fpos M = true ->
  fle (incremented M s) M = true /\
  fle (incremented M s) (d2f (dmul s lit_1_2)) = true /\
  (incremented M s = M \/ incremented M s = d2f (dmul s lit_1_2)).
Proof.
  intros Fs Ps FM PM. unfold incremented, f2d.
  pose proof (dmul_ge s Fs Ps) as Hp.
  set (p := dmul s lit_1_2) in *.
  destruct (fle_not_nan _ _ Hp) as [_ Np].
  pose proof (fle_fpos _ _ Ps Hp) as Pp.
  pose proof (fpos_not_nan _ PM) as NM.
  unfold std_min. destruct (flt M p) eqn:Cmp.
  - rewrite FM. split; [apply fle_refl, NM|]. split; [|left; reflexivity].
    assert (HMp : fle M p = true).
    { unfold flt in Cmp. unfold fle. destruct (fcompare M p) as [[]|]; easy. }
    pose proof (d2f_mono _ _ PM HMp) as H. rewrite FM in H. exact H.
  - pose proof (flt_false_fle _ _ Cmp NM Np) as HpM.
    pose proof (d2f_mono _ _ Pp HpM) as Hi. rewrite FM in Hi.
    split; [exact Hi|]. split; [|right; reflexivity].
    apply fle_refl. apply (proj1 (fle_not_nan _ _ Hi)).
Qed.
End ScaleAnywhere.

(* ===================================================================== *)
(** * Part III. The program *)
(* ===================================================================== *)

(** ** Reads *)

Lemma size_t_of_int_nonneg (i : Z) : int_range i -> (0 <= i)%Z -> size_t_of_int i = i.
Proof.
  unfold int_range, size_t_of_int. intros H H0. apply Z.mod_small. lia.
Qed.

Lemma size_t_of_int_neg (i : Z) :
  int_range i -> (i < 0)%Z -> size_t_of_int i = (i + 2 ^ 64)%Z.
Proof.
  unfold int_range, size_t_of_int. intros H H0.
  symmetry. apply (Z.mod_unique_pos i (2 ^ 64) (-1) (i + 2 ^ 64)); lia.
Qed.

Lemma vec_at_Ok {A : Type} (v : list A) (i : Z) (a : A) :
  vec_at v i = Ok a ->
  (size_t_of_int i < Z.of_nat (length v))%Z /\
  nth_error v (Z.to_nat (size_t_of_int i)) = Some a.
Proof.
  unfold vec_at. destruct (Z.ltb_spec (size_t_of_int i) (Z.of_nat (length v))); [|discriminate].
  destruct (nth_error v (Z.to_nat (size_t_of_int i))); [|discriminate].
  intros E; injection E as ->. auto.
Qed.

Lemma vec_at_in_range {A : Type} (v : list A) (i : Z) :
  (size_t_of_int i < Z.of_nat (length v))%Z -> exists a, vec_at v i = Ok a.
Proof.
  intros H. unfold vec_at.
  destruct (Z.ltb_spec (size_t_of_int i) (Z.of_nat (length v))); [|lia].
  destruct (nth_error v (Z.to_nat (size_t_of_int i))) as [a|] eqn:E; [eauto|].
  apply nth_error_None in E.
  assert (0 <= size_t_of_int i)%Z by (apply Z.mod_pos_bound; lia).
  lia.
Qed.

(** A negative index is never inside the vector. *)
Lemma vec_at_negative {A : Type} (v : list A) (i : Z) :
  int_range i -> (i < 0)%Z -> (Z.of_nat (length v) <= vector_max_size)%Z ->
  vec_at v i = Fault out_of_bounds.
Proof.
  intros R N L. unfold vec_at. rewrite (size_t_of_int_neg i R N).
  unfold int_range in R. unfold vector_max_size in L.
  destruct (Z.ltb_spec (i + 2 ^ 64) (Z.of_nat (length v))); [lia|reflexivity].
Qed.

(** ** [getVal] *)

Lemma getVal_absent (joy_msg : Joy) (axis_map : gmap string Z) (fieldname : string) :
  axis_map !! fieldname = None ->
  getVal joy_msg axis_map fieldname = Ok (Zero false).
Proof.
  intros H. unfold getVal. rewrite bool_decide_eq_true_2 by exact H. reflexivity.
Qed.

Lemma getVal_present (joy_msg : Joy) (axis_map : gmap string Z) (fieldname : string) (i : Z) :
  axis_map !! fieldname = Some i ->
  getVal joy_msg axis_map fieldname =
  if (Z.of_nat (length (axes joy_msg)) <=? size_t_of_int i)%Z then Ok (Zero false)
  else do a <- vec_at (axes joy_msg) i; Ok (f2d a).
Proof.
  intros H. unfold getVal, map_at.
  rewrite bool_decide_eq_false_2 by (rewrite H; discriminate).
  rewrite H. simpl. destruct (_ <=? _)%Z; reflexivity.
Qed.

Lemma getVal_total (joy_msg : Joy) (axis_map : gmap string Z) (fieldname : string) :
  exists v, getVal joy_msg axis_map fieldname = Ok v.
Proof.
  destruct (axis_map !! fieldname) as [i|] eqn:E.
  - rewrite (getVal_present _ _ _ i E).
    destruct (Z.leb_spec (Z.of_nat (length (axes joy_msg))) (size_t_of_int i)) as [L|L]; [eauto|].
    destruct (vec_at_in_range (axes joy_msg) i L) as [a ->]. simpl. eauto.
  - rewrite (getVal_absent _ _ _ E). eauto.
Qed.

(** C4. [getVal] returns 0.0 when the axis name is not in the map and when
    the mapped index is at or beyond the length of [axes]; for an index
    inside [axes] it returns the element at that index, converted to
    [double] without change; whatever the frame, the map and the name, it
    returns a value: no exception of [at] and no read outside [axes].  It
    is a function of its three arguments and returns nothing else. *)
Theorem C4_getVal_fail_safe_or_axis
  (joy_msg : Joy) (axis_map : gmap string Z) (fieldname : string) :
  (axis_map !! fieldname = None ->
   getVal joy_msg axis_map fieldname = Ok (Zero false)) /\
  (forall i : Z,
     axis_map !! fieldname = Some i -> int_range i ->
     (Z.of_nat (length (axes joy_msg)) <= i)%Z ->
     getVal joy_msg axis_map fieldname = Ok (Zero false)) /\
  (forall i : Z,
     axis_map !! fieldname = Some i -> int_range i ->
     (0 <= i < Z.of_nat (length (axes joy_msg)))%Z ->
     exists a : float,
       nth_error (axes joy_msg) (Z.to_nat i) = Some a /\
       getVal joy_msg axis_map fieldname = Ok a) /\
  (exists v : double, getVal joy_msg axis_map fieldname = Ok v).
Proof.
  split; [apply getVal_absent|]. split; [|split; [|apply getVal_total]].
  - intros i E R L. rewrite (getVal_present _ _ _ i E).
    rewrite (size_t_of_int_nonneg i R) by lia.
    destruct (Z.leb_spec (Z.of_nat (length (axes joy_msg))) i); [reflexivity|lia].
  - intros i E R [L0 L]. rewrite (getVal_present _ _ _ i E).
    pose proof (size_t_of_int_nonneg i R L0) as S. rewrite S.
    destruct (Z.leb_spec (Z.of_nat (length (axes joy_msg))) i); [lia|].
    destruct (vec_at_in_range (axes joy_msg) i) as [a Ha]; [rewrite S; lia|].
    exists a. rewrite Ha. split; [|reflexivity].
    apply vec_at_Ok in Ha. rewrite S in Ha. apply Ha.
Qed.

Lemma C4_getVal_fail_safe_or_axis_witness :
  getVal (frame [5 # 10; -5 # 10]%Q []) (<["x" := 1%Z]> (<["y" := 7%Z]> ∅)) "z"
  = Ok (Zero false) /\
  getVal (frame [5 # 10; -5 # 10]%Q []) (<["x" := 1%Z]> (<["y" := 7%Z]> ∅)) "y"
  = Ok (Zero false) /\
  getVal (frame [5 # 10; -5 # 10]%Q []) (<["x" := 1%Z]> (<["y" := 7%Z]> ∅)) "x"
  = Ok (Fin (-1 # 2)%Q).
Proof.
  destruct (C4_getVal_fail_safe_or_axis
              (frame [5 # 10; -5 # 10]%Q [])
              (<["x" := 1%Z]> (<["y" := 7%Z]> ∅)) "z") as (Absent & _).
  destruct (C4_getVal_fail_safe_or_axis
              (frame [5 # 10; -5 # 10]%Q [])
              (<["x" := 1%Z]> (<["y" := 7%Z]> ∅)) "y") as (_ & Beyond & _).
  destruct (C4_getVal_fail_safe_or_axis
              (frame [5 # 10; -5 # 10]%Q [])
              (<["x" := 1%Z]> (<["y" := 7%Z]> ∅)) "x") as (_ & _ & Inside & _).
  split; [apply Absent; vm_compute; reflexivity|].
  split.
  - apply (Beyond 7%Z).
    + vm_compute; reflexivity.
    + unfold int_range; lia.
    + vm_compute; discriminate.
  - destruct (Inside 1%Z) as (a & Ha & ->).
    + vm_compute; reflexivity.
    + unfold int_range; lia.
    + split; vm_compute; [discriminate|reflexivity].
    + vm_compute in Ha. injection Ha as <-. reflexivity.
Defined.

(** C10. An axis name mapped to a negative index gives 0.0: the [int] is
    converted to [size_t] for the comparison with [axes.size()], becomes at
    least 2^64 - 2^31, and the guard returns before [axes] is indexed. *)
Theorem C10_getVal_negative_index
  (joy_msg : Joy) (axis_map : gmap string Z) (fieldname : string) (i : Z) :
  axis_map !! fieldname = Some i ->
  int_range i -> (i < 0)%Z ->
  (Z.of_nat (length (axes joy_msg)) <= vector_max_size)%Z ->
  (Z.of_nat (length (axes joy_msg)) <= size_t_of_int i)%Z /\
  getVal joy_msg axis_map fieldname = Ok (Zero false).
Proof.
  intros E R N L. rewrite (getVal_present _ _ _ i E).
  rewrite (size_t_of_int_neg i R N).
  unfold int_range in R. unfold vector_max_size in L.
  split; [lia|].
  destruct (Z.leb_spec (Z.of_nat (length (axes joy_msg))) (i + 2 ^ 64)); [reflexivity|lia].
Qed.

Lemma C10_getVal_negative_index_witness :
  getVal (frame [1; 1]%Q []) (<["x" := (-1)%Z]> ∅) "x" = Ok (Zero false).
Proof.
  apply (C10_getVal_negative_index (frame [1; 1]%Q []) (<["x" := (-1)%Z]> ∅) "x" (-1)).
  - reflexivity.
  - unfold int_range; lia.
  - lia.
  - vm_compute. discriminate.
Defined.

(** ** [joyCallback], one kind of frame at a time *)

Lemma joyCallback_gate_closed (this : Impl) (joy_msg : Joy) :
  gate_closed this joy_msg ->
  joyCallback this joy_msg =
  Ok (set_cmd_vel_msg this (stop_msg (cmd_vel_msg this)),
      publish (stop_msg (cmd_vel_msg this))
      :: printTwistInfo (stop_msg (cmd_vel_msg this)) "Velocidad publicada").
Proof.
  unfold gate_closed, joyCallback. intros ->. reflexivity.
Qed.

Lemma ModifyVelocity_increment (this : Impl) (joy_msg : Joy) (scale max_vel : float) :
  button joy_msg (increment_vel this) = Ok true ->
  ModifyVelocity this joy_msg scale max_vel =
  Ok (incremented max_vel scale,
      [ROS_INFO "Escala de velocidad incrementada a %f"
         [arg_f (f2d (incremented max_vel scale))];
       sleep (f2d (reaction_t this))]).
Proof. unfold ModifyVelocity. intros ->. reflexivity. Qed.

Lemma ModifyVelocity_decrement (this : Impl) (joy_msg : Joy) (scale max_vel : float) :
  button joy_msg (increment_vel this) = Ok false ->
  button joy_msg (decrement_vel this) = Ok true ->
  ModifyVelocity this joy_msg scale max_vel =
  Ok (decremented (min_vel this) scale,
      [ROS_INFO "Escala de velocidad decrementada a %f"
         [arg_f (f2d (decremented (min_vel this) scale))];
       sleep (f2d (reaction_t this))]).
Proof. unfold ModifyVelocity. intros -> ->. reflexivity. Qed.

Lemma ModifyVelocity_no_request (this : Impl) (joy_msg : Joy) (scale max_vel : float) :
  button joy_msg (increment_vel this) = Ok false ->
  button joy_msg (decrement_vel this) = Ok false ->
  ModifyVelocity this joy_msg scale max_vel = Ok (scale, [sleep (f2d (reaction_t this))]).
Proof. unfold ModifyVelocity. intros -> ->. reflexivity. Qed.

Lemma joyCallback_increment (this : Impl) (joy_msg : Joy) :
  increment_frame this joy_msg ->
  joyCallback this joy_msg =
  Ok (set_mov_vel this (incremented (max_vel this) (mov_vel this)),
      [ROS_INFO "Boton B pulsado" [];
       ROS_INFO "Escala de velocidad incrementada a %f"
         [arg_f (f2d (incremented (max_vel this) (mov_vel this)))];
       sleep (f2d (reaction_t this));
       publish (cmd_vel_msg this)]
      ++ printTwistInfo (cmd_vel_msg this) "Velocidad publicada").
Proof.
  intros [En Inc]. unfold joyCallback.
  rewrite En. cbn [bind]. rewrite Inc. cbn [bind].
  rewrite (ModifyVelocity_increment _ _ _ _ Inc). reflexivity.
Qed.

Lemma joyCallback_decrement (this : Impl) (joy_msg : Joy) :
  decrement_frame this joy_msg ->
  joyCallback this joy_msg =
  Ok (set_mov_vel this (decremented (min_vel this) (mov_vel this)),
      [ROS_INFO "Boton B pulsado" [];
       ROS_INFO "Escala de velocidad decrementada a %f"
         [arg_f (f2d (decremented (min_vel this) (mov_vel this)))];
       sleep (f2d (reaction_t this));
       publish (cmd_vel_msg this)]
      ++ printTwistInfo (cmd_vel_msg this) "Velocidad publicada").
Proof.
  intros [En [Inc Dec]]. unfold joyCallback.
  rewrite En. cbn [bind]. rewrite Inc. cbn [bind]. rewrite Dec. cbn [bind].
  rewrite (ModifyVelocity_decrement _ _ _ _ Inc Dec). reflexivity.
Qed.

Lemma joyCallback_motion (this : Impl) (joy_msg : Joy) (vx vy vz : double) :
  motion_frame this joy_msg ->
  getVal joy_msg (axis_position_map this) "x" = Ok vx ->
  getVal joy_msg (axis_position_map this) "y" = Ok vy ->
  getVal joy_msg (axis_orientation_map this) "z" = Ok vz ->
  joyCallback this joy_msg =
  Ok (set_cmd_vel_msg this (motion_msg this vx vy vz),
      [ROS_INFO "Boton B pulsado" []; ROS_INFO "Boton B pulsado" [];
       publish (motion_msg this vx vy vz)]
      ++ printTwistInfo (motion_msg this vx vy vz) "Velocidad publicada").
Proof.
  intros [En [Inc Dec]] X Y Z. unfold joyCallback.
  rewrite En. cbn [bind]. rewrite Inc. cbn [bind]. rewrite Dec. cbn [bind].
  rewrite X, Y, Z. reflexivity.
Qed.

(** A callback that returns has seen a frame of one of the four kinds. *)
Lemma joyCallback_Ok_kind (this this' : Impl) (joy_msg : Joy) (evs : list event) :
  joyCallback this joy_msg = Ok (this', evs) ->
  gate_closed this joy_msg \/ increment_frame this joy_msg \/
  decrement_frame this joy_msg \/ motion_frame this joy_msg.
Proof.
  unfold joyCallback, gate_closed, increment_frame,
    decrement_frame, motion_frame.
  destruct (button joy_msg (enable_mov this)) as [[]|]; [|auto|discriminate].
  destruct (button joy_msg (increment_vel this)) as [[]|]; [auto 10| |discriminate].
  destruct (button joy_msg (decrement_vel this)) as [[]|]; [auto 10|auto 10|discriminate].
Qed.

(** The callback publishes one message, the [cmd_vel_msg] it leaves in the
    state, and leaves the configuration as it was. *)
Lemma joyCallback_Ok_effect (this this' : Impl) (joy_msg : Joy) (evs : list event) :
  joyCallback this joy_msg = Ok (this', evs) ->
  published evs = [cmd_vel_msg this'] /\
  enable_mov this' = enable_mov this /\
  increment_vel this' = increment_vel this /\
  decrement_vel this' = decrement_vel this /\
  min_vel this' = min_vel this /\
  max_vel this' = max_vel this /\
  z (linear (cmd_vel_msg this')) = z (linear (cmd_vel_msg this)) /\
  x (angular (cmd_vel_msg this')) = x (angular (cmd_vel_msg this)) /\
  y (angular (cmd_vel_msg this')) = y (angular (cmd_vel_msg this)).
Proof.
  intros H.
  destruct (joyCallback_Ok_kind _ _ _ _ H) as [K|[K|[K|K]]].
  - rewrite (joyCallback_gate_closed _ _ K) in H. injection H as <- <-.
    repeat split; reflexivity.
  - rewrite (joyCallback_increment _ _ K) in H. injection H as <- <-.
    repeat split; reflexivity.
  - rewrite (joyCallback_decrement _ _ K) in H. injection H as <- <-.
    repeat split; reflexivity.
  - destruct (getVal_total joy_msg (axis_position_map this) "x") as [vx X].
    destruct (getVal_total joy_msg (axis_position_map this) "y") as [vy Y].
    destruct (getVal_total joy_msg (axis_orientation_map this) "z") as [vz Z].
    rewrite (joyCallback_motion _ _ _ _ _ K X Y Z) in H. injection H as <- <-.
    repeat split; reflexivity.
Qed.

(** The three fields the callback never writes are zero in every state. *)
Lemma reachable_unwritten (this : Impl) :
  reachable this ->
  z (linear (cmd_vel_msg this)) = Zero false /\
  x (angular (cmd_vel_msg this)) = Zero false /\
  y (angular (cmd_vel_msg this)) = Zero false.
Proof.
  induction 1 as [nh_param|this this' joy_msg evs R IH H].
  - repeat split; reflexivity.
  - destruct (joyCallback_Ok_effect _ _ _ _ H) as (_ & _ & _ & _ & _ & _ & A & B & C).
    rewrite A, B, C. exact IH.
Qed.

(** ** Runs *)

Lemma same_buttons_refl (this : Impl) : same_buttons this this.
Proof. repeat split. Qed.

Lemma same_buttons_trans (a b c : Impl) :
  same_buttons a b -> same_buttons b c -> same_buttons a c.
Proof. unfold same_buttons. intros (A1 & A2 & A3) (B1 & B2 & B3). repeat split; congruence. Qed.

Lemma joyCallback_same_buttons (this this' : Impl) (joy_msg : Joy) (evs : list event) :
  joyCallback this joy_msg = Ok (this', evs) -> same_buttons this this'.
Proof.
  intros H. destruct (joyCallback_Ok_effect _ _ _ _ H) as (_ & A & B & C & _).
  repeat split; assumption.
Qed.

Lemma decrement_frame_same (this this' : Impl) (joy_msg : Joy) :
  same_buttons this this' -> decrement_frame this joy_msg -> decrement_frame this' joy_msg.
Proof. unfold same_buttons, decrement_frame. intros (-> & -> & ->). trivial. Qed.

Lemma readable_same (this this' : Impl) (joy_msg : Joy) :
  same_buttons this this' -> readable this joy_msg -> readable this' joy_msg.
Proof.
  unfold same_buttons, readable, gate_closed, scaling_frame, increment_frame,
    decrement_frame, motion_frame.
  intros (-> & -> & ->). trivial.
Qed.

Lemma Forall_same {A : Type} (P Q : A -> Prop) (l : list A) :
  (forall a, P a -> Q a) -> Forall P l -> Forall Q l.
Proof. intros H. induction 1; constructor; auto. Qed.

(** A readable frame is handled without fault. *)
Lemma joyCallback_readable (this : Impl) (joy_msg : Joy) :
  readable this joy_msg -> exists this' evs, joyCallback this joy_msg = Ok (this', evs).
Proof.
  intros [K|[[K|K]|K]].
  - rewrite (joyCallback_gate_closed _ _ K). eauto.
  - rewrite (joyCallback_increment _ _ K). eauto.
  - rewrite (joyCallback_decrement _ _ K). eauto.
  - destruct (getVal_total joy_msg (axis_position_map this) "x") as [vx X].
    destruct (getVal_total joy_msg (axis_position_map this) "y") as [vy Y].
    destruct (getVal_total joy_msg (axis_orientation_map this) "z") as [vz Z].
    rewrite (joyCallback_motion _ _ _ _ _ K X Y Z). eauto.
Qed.

Lemma run_cons (this this1 : Impl) (joy_msg : Joy) (rest : list Joy) (evs1 : list event) :
  joyCallback this joy_msg = Ok (this1, evs1) ->
  run this (joy_msg :: rest) =
  do r' <- run this1 rest; Ok (fst r', evs1 ++ snd r').
Proof. intros H. cbn [run]. rewrite H. reflexivity. Qed.

Lemma run_app (this this1 this2 : Impl) (l1 l2 : list Joy) (evs1 evs2 : list event) :
  run this l1 = Ok (this1, evs1) ->
  run this1 l2 = Ok (this2, evs2) ->
  run this (l1 ++ l2) = Ok (this2, evs1 ++ evs2).
Proof.
  revert this evs1. induction l1 as [|j l1 IH]; intros this evs1 H1 H2.
  - injection H1 as <- <-. exact H2.
  - cbn [run app] in H1 |- *.
    destruct (joyCallback this j) as [[t e]|] eqn:E; [|discriminate].
    cbn [bind fst snd] in H1 |- *.
    destruct (run t l1) as [[t' e']|] eqn:E1; [|discriminate].
    cbn [bind fst snd] in H1. injection H1 as <- <-.
    rewrite (IH t e' E1 H2). cbn [bind fst snd]. rewrite app_assoc. reflexivity.
Qed.

(** A property kept by every callback on a readable frame is kept by a run
    over readable frames, and the run returns. *)
Lemma run_invariant (I : Impl -> Impl -> Prop) (F : Impl -> Joy -> Prop) :
  (forall a, I a a) ->
  (forall a b c, I a b -> I b c -> I a c) ->
  (forall a b joy_msg, I a b -> F a joy_msg -> F b joy_msg) ->
  (forall a joy_msg, F a joy_msg -> readable a joy_msg) ->
  forall P : Impl -> Prop,
  (forall a b joy_msg evs,
     P a -> F a joy_msg -> joyCallback a joy_msg = Ok (b, evs) -> P b /\ I a b) ->
  forall (frames : list Joy) (this : Impl),
    P this -> Forall (F this) frames ->
    exists this' evs, run this frames = Ok (this', evs) /\ P this' /\ I this this'.
Proof.
  intros Irefl Itrans FI FR P Step frames.
  induction frames as [|j rest IH]; intros this HP HF.
  - exists this, []. repeat split; auto.
  - inversion HF as [|? ? Hj Hrest]; subst.
    destruct (joyCallback_readable this j (FR _ _ Hj)) as (t & e & E).
    destruct (Step _ _ _ _ HP Hj E) as [HPt HI].
    destruct (IH t HPt) as (t' & e' & E' & HP' & HI').
    { eapply Forall_same; [|exact Hrest]. intros a. apply FI, HI. }
    exists t', (e ++ e'). rewrite (run_cons _ _ _ _ _ E), E'.
    repeat split; eauto.
Qed.

(* ===================================================================== *)
(** * Part IV. Properties of the command generation *)
(* ===================================================================== *)

(** C1. When the enable-move button of the frame reads as not held, the
    callback returns and the one command it publishes has linear.x,
    linear.y and angular.z equal to 0.0, whatever the axes of the frame. *)
Theorem C1_gate_closed_zero_command (this : Impl) (joy_msg : Joy) :
  gate_closed this joy_msg ->
  exists (this' : Impl) (evs : list event) (msg : Twist),
    joyCallback this joy_msg = Ok (this', evs) /\
    published evs = [msg] /\
    x (linear msg) = Zero false /\
    y (linear msg) = Zero false /\
    z (angular msg) = Zero false.
Proof.
  intros K. rewrite (joyCallback_gate_closed _ _ K).
  eexists _, _, _. split; [reflexivity|]. repeat split.
Qed.

Lemma C1_gate_closed_zero_command_witness :
  exists (this' : Impl) (evs : list event) (msg : Twist),
    joyCallback (TeleopTwistJoy (pad_params (float_of_lit 2)))
      (frame [5 # 10; -5 # 10; 1]%Q [0; 1; 1]%Z) = Ok (this', evs) /\
    published evs = [msg] /\
    x (linear msg) = Zero false /\
    y (linear msg) = Zero false /\
    z (angular msg) = Zero false.
Proof.
  apply (C1_gate_closed_zero_command
           (TeleopTwistJoy (pad_params (float_of_lit 2)))
           (frame [5 # 10; -5 # 10; 1]%Q [0; 1; 1]%Z)).
  reflexivity.
Defined.

(** C2 (what the code does). The three button reads are unchecked
    [operator[]] calls.  Whenever the gate is open and the increment button
    is unassigned (a negative index, -1 by default), the callback reads
    outside [buttons].  With the constructor defaults (enable 0, increment
    and decrement -1) a frame whose enable button is held makes it read
    [buttons[-1]]; a frame with no buttons makes it read [buttons[0]] of an
    empty array; an unassigned decrement button is read as soon as the gate
    is open and the increment button is not held.  Each is a read outside
    the array, not a button taken as released. *)
Theorem C2_button_reads_are_unchecked :
  (forall (this : Impl) (joy_msg : Joy),
     button joy_msg (enable_mov this) = Ok true ->
     int_range (increment_vel this) -> (increment_vel this < 0)%Z ->
     (Z.of_nat (length (buttons joy_msg)) <= vector_max_size)%Z ->
     joyCallback this joy_msg = Fault out_of_bounds) /\
  joyCallback (TeleopTwistJoy (no_params (float_of_lit 2))) (frame [] [1]%Z)
  = Fault out_of_bounds /\
  joyCallback (TeleopTwistJoy (no_params (float_of_lit 2))) (frame [] [])
  = Fault out_of_bounds /\
  joyCallback
    (TeleopTwistJoy
       {| p_enable_mov := Some 0%Z;
          p_increment_velocity := Some 1%Z;
          p_decrement_velocity := None;
          p_axis_position_map := None;
          p_axis_orientation_map := None;
          p_max_displacement_in_a_second := float_of_lit 2 |})
    (frame [] [1; 0]%Z)
  = Fault out_of_bounds.
Proof.
  split; [|repeat split].
  intros this joy_msg En R N L. unfold joyCallback. rewrite En. cbn [bind].
  unfold button at 1. rewrite (vec_at_negative _ _ R N L). reflexivity.
Qed.

(** C5 (as stated, against the code). Scenario C: scale 1.0, [max_vel]
    2.0, the increment button held on two frames in a row.  As the
    specification words it, the first request is applied (scale 1.2) and
    the second, made 0.1 s later with a cooldown of 0.5 s, is dropped.
    The code has no time of last adjustment to compare with: it applies
    both requests (scale 1.2, then about 1.44) and sleeps for [reaction_t]
    after each. *)
Lemma C5_counterexample :
  let this := set_mov_vel (TeleopTwistJoy (pad_params (float_of_lit 2)))
                (float_of_lit 1) in
  let inc := frame [] [1; 1; 0]%Z in
  let state0 := {| currentScale := mov_vel this;
                   lastAdjustmentTime := None;
                   cooldown := (1 # 2)%Q |} in
  let state1 :=
    spec_adjust state0
      (Some (incremented (max_vel this) (currentScale state0))) 0%Q in
  let state2 :=
    spec_adjust state1
      (Some (incremented (max_vel this) (currentScale state1))) (1 # 10)%Q in
  currentScale state1 = float_of_lit (12 # 10) /\
  currentScale state2 = float_of_lit (12 # 10) /\
  scale_after this [inc] = Ok (float_of_lit (12 # 10)) /\
  scale_after this [inc; inc] = Ok (Fin (3019899 # 2097152)%Q) /\
  Fin (3019899 # 2097152)%Q <> float_of_lit (12 # 10) /\
  exists (this' : Impl) (evs : list event),
    run this [inc; inc] = Ok (this', evs) /\
    List.filter is_sleep evs = [sleep (Fin (1 # 2)%Q); sleep (Fin (1 # 2)%Q)].
Proof.
  cbv zeta. repeat split; try (vm_compute; reflexivity).
  - vm_compute. discriminate.
  - eexists _, _. split; vm_compute; reflexivity.
Qed.

(** C5 (amended). A request for a scale adjustment that reaches
    [ModifyVelocity] is always applied: the scale becomes the candidate of
    the branch taken.  The function keeps no time of last adjustment and
    drops nothing; after the assignment it blocks the calling thread for
    [reaction_t] (0.5 s by default), which is the only event of the call
    besides the log line. *)
Theorem C5_request_applied_then_sleep
  (this : Impl) (joy_msg : Joy) (scale max_vel : float) :
  button joy_msg (increment_vel this) = Ok true \/
  (button joy_msg (increment_vel this) = Ok false /\
   button joy_msg (decrement_vel this) = Ok true) ->
  exists (candidate : float) (log : event),
    candidate =
      match button joy_msg (increment_vel this) with
      | Ok true => incremented max_vel scale
      | _ => decremented (min_vel this) scale
      end /\
    ModifyVelocity this joy_msg scale max_vel =
      Ok (candidate, [log; sleep (f2d (reaction_t this))]) /\
    is_sleep log = false.
Proof.
  intros [Inc|[Inc Dec]].
  - rewrite (ModifyVelocity_increment _ _ _ _ Inc), Inc.
    eexists _, _. repeat split.
  - rewrite (ModifyVelocity_decrement _ _ _ _ Inc Dec), Inc.
    eexists _, _. repeat split.
Qed.

Lemma C5_request_applied_then_sleep_witness :
  exists (candidate : float) (log : event),
    candidate = float_of_lit (10 # 12) /\
    ModifyVelocity (TeleopTwistJoy (pad_params (float_of_lit 2)))
      (frame [] [1; 0; 1]%Z) (float_of_lit 1) (float_of_lit 2) =
      Ok (candidate, [log; sleep (Fin (1 # 2)%Q)]) /\
    is_sleep log = false.
Proof.
  destruct (C5_request_applied_then_sleep
              (TeleopTwistJoy (pad_params (float_of_lit 2)))
              (frame [] [1; 0; 1]%Z) (float_of_lit 1) (float_of_lit 2))
    as (candidate & log & E & H & L).
  - right. split; reflexivity.
  - exists candidate, log. split; [|split; [exact H|exact L]].
    rewrite E. vm_compute. reflexivity.
Defined.

(** C6. On a frame with the gate open and the increment or the decrement
    button held, the callback leaves [cmd_vel_msg] as it is and publishes
    it: the command is the one the previous callback published, all six
    components included, and nothing is computed from the axes. *)
Theorem C6_scaling_frame_repeats_command
  (this0 this : Impl) (joy0 joy_msg : Joy) (evs0 : list event) :
  joyCallback this0 joy0 = Ok (this, evs0) ->
  scaling_frame this joy_msg ->
  exists (this' : Impl) (evs : list event) (msg : Twist),
    joyCallback this joy_msg = Ok (this', evs) /\
    published evs0 = [msg] /\
    published evs = [msg] /\
    cmd_vel_msg this' = msg.
Proof.
  intros H0 K.
  destruct (joyCallback_Ok_effect _ _ _ _ H0) as [P0 _].
  exists (set_mov_vel this
            (match button joy_msg (increment_vel this) with
             | Ok true => incremented (max_vel this) (mov_vel this)
             | _ => decremented (min_vel this) (mov_vel this)
             end)).
  destruct K as [K|K].
  - rewrite (joyCallback_increment _ _ K). destruct K as [_ ->].
    eexists _, (cmd_vel_msg this). repeat split. exact P0.
  - rewrite (joyCallback_decrement _ _ K). destruct K as [_ [-> _]].
    eexists _, (cmd_vel_msg this). repeat split. exact P0.
Qed.

Lemma C6_scaling_frame_repeats_command_witness :
  exists (this' : Impl) (evs : list event),
    joyCallback
      (set_cmd_vel_msg (TeleopTwistJoy (pad_params (float_of_lit 2)))
         (motion_msg (TeleopTwistJoy (pad_params (float_of_lit 2)))
            (Fin (1 # 2)%Q) (Fin (-1 # 2)%Q) (Fin 1%Q)))
      (frame [1; 1; 1]%Q [1; 0; 1]%Z) = Ok (this', evs) /\
    published evs =
      [{| linear := {| x := Fin (1 # 4)%Q; y := Fin (-1 # 4)%Q; z := Zero false |};
          angular := {| x := Zero false; y := Zero false; z := Fin (1 # 2)%Q |} |}].
Proof.
  destruct (C6_scaling_frame_repeats_command
              (TeleopTwistJoy (pad_params (float_of_lit 2)))
              (set_cmd_vel_msg (TeleopTwistJoy (pad_params (float_of_lit 2)))
                 (motion_msg (TeleopTwistJoy (pad_params (float_of_lit 2)))
                    (Fin (1 # 2)%Q) (Fin (-1 # 2)%Q) (Fin 1%Q)))
              (frame [5 # 10; -5 # 10; 1]%Q [1; 0; 0]%Z)
              (frame [1; 1; 1]%Q [1; 0; 1]%Z)
              ([ROS_INFO "Boton B pulsado" []; ROS_INFO "Boton B pulsado" [];
                publish (motion_msg (TeleopTwistJoy (pad_params (float_of_lit 2)))
                           (Fin (1 # 2)%Q) (Fin (-1 # 2)%Q) (Fin 1%Q))]
               ++ printTwistInfo
                    (motion_msg (TeleopTwistJoy (pad_params (float_of_lit 2)))
                       (Fin (1 # 2)%Q) (Fin (-1 # 2)%Q) (Fin 1%Q))
                    "Velocidad publicada"))
    as (this' & evs & msg & H & P0 & P & _).
  - reflexivity.
  - right. repeat split.
  - exists this', evs. split; [exact H|].
    rewrite P, <- P0. vm_compute. reflexivity.
Defined.

(** C7. On a frame with the gate open and neither scaling button held, the
    command published has linear.x = mov_vel * getVal(position map, "x"),
    linear.y = mov_vel * getVal(position map, "y") and angular.z =
    mov_vel * getVal(orientation map, "z"), the products taken in
    [double]; linear.z, angular.x and angular.y are 0.0 in every state the
    node reaches.  With the maps x:0, y:1 and z:2, the axes 0.5, -0.5, 1.0
    and the scale 0.5 the command is (0.25, -0.25, 0.5). *)
Theorem C7_motion_command :
  (forall (this : Impl) (joy_msg : Joy),
     reachable this ->
     motion_frame this joy_msg ->
     exists (vx vy vz : double) (this' : Impl) (evs : list event),
       getVal joy_msg (axis_position_map this) "x" = Ok vx /\
       getVal joy_msg (axis_position_map this) "y" = Ok vy /\
       getVal joy_msg (axis_orientation_map this) "z" = Ok vz /\
       joyCallback this joy_msg = Ok (this', evs) /\
       published evs =
         [{| linear := {| x := dmul (f2d (mov_vel this)) vx;
                          y := dmul (f2d (mov_vel this)) vy;
                          z := Zero false |};
             angular := {| x := Zero false;
                           y := Zero false;
                           z := dmul (f2d (mov_vel this)) vz |} |}]) /\
  (let this := TeleopTwistJoy (pad_params (float_of_lit 2)) in
   let joy_msg := frame [5 # 10; -5 # 10; 1]%Q [1; 0; 0]%Z in
   mov_vel this = Fin (1 # 2)%Q /\
   exists (this' : Impl) (evs : list event),
     joyCallback this joy_msg = Ok (this', evs) /\
     published evs =
       [{| linear := {| x := Fin (1 # 4)%Q; y := Fin (-1 # 4)%Q; z := Zero false |};
           angular := {| x := Zero false; y := Zero false; z := Fin (1 # 2)%Q |} |}]).
Proof.
  split.
  - intros this joy_msg R K.
    destruct (getVal_total joy_msg (axis_position_map this) "x") as [vx X].
    destruct (getVal_total joy_msg (axis_position_map this) "y") as [vy Y].
    destruct (getVal_total joy_msg (axis_orientation_map this) "z") as [vz Z].
    destruct (reachable_unwritten this R) as (A & B & C).
    exists vx, vy, vz. rewrite (joyCallback_motion _ _ _ _ _ K X Y Z).
    eexists _, _. repeat split; try assumption.
    cbn. unfold motion_msg, set_xy_z. rewrite A, B, C. reflexivity.
  - cbv zeta. split; [reflexivity|]. eexists _, _. split; vm_compute; reflexivity.
Qed.

Lemma C7_motion_command_witness :
  exists (vx vy vz : double) (this' : Impl) (evs : list event),
    getVal (frame [1; 0; -1]%Q [1; 0; 0]%Z) (<["x" := 0%Z]> (<["y" := 1%Z]> ∅)) "x" = Ok vx /\
    getVal (frame [1; 0; -1]%Q [1; 0; 0]%Z) (<["x" := 0%Z]> (<["y" := 1%Z]> ∅)) "y" = Ok vy /\
    getVal (frame [1; 0; -1]%Q [1; 0; 0]%Z) (<["z" := 2%Z]> ∅) "z" = Ok vz /\
    joyCallback (TeleopTwistJoy (pad_params (float_of_lit 2)))
      (frame [1; 0; -1]%Q [1; 0; 0]%Z) = Ok (this', evs) /\
    published evs =
      [{| linear := {| x := dmul (Fin (1 # 2)%Q) vx;
                       y := dmul (Fin (1 # 2)%Q) vy;
                       z := Zero false |};
          angular := {| x := Zero false;
                        y := Zero false;
                        z := dmul (Fin (1 # 2)%Q) vz |} |}].
Proof.
  apply (proj1 C7_motion_command
           (TeleopTwistJoy (pad_params (float_of_lit 2)))
           (frame [1; 0; -1]%Q [1; 0; 0]%Z)).
  - apply reachable_init.
  - repeat split.
Defined.

(** C8. When the increment and the decrement button both read true on a
    frame with the gate open, the increment branch runs: the new scale is
    min(mov_vel * 1.2, max_vel), the product computed in [double] and the
    result stored as [float]; the log line is the one of the increment, and
    the decrement branch is not entered.  That the new scale is the least
    of the two: for a positive scale and a positive [max_vel] it is at or
    below [max_vel], at or below the product stored as [float], and it is
    one of them. *)
Theorem C8_increment_wins (this : Impl) (joy_msg : Joy) :
  button joy_msg (enable_mov this) = Ok true ->
  button joy_msg (increment_vel this) = Ok true ->
  button joy_msg (decrement_vel this) = Ok true ->
  let product := dmul (f2d (mov_vel this)) lit_1_2 in
  let scale' := d2f (std_min product (f2d (max_vel this))) in
  ModifyVelocity this joy_msg (mov_vel this) (max_vel this) =
    Ok (scale',
        [ROS_INFO "Escala de velocidad incrementada a %f" [arg_f (f2d scale')];
         sleep (f2d (reaction_t this))]) /\
  (exists this' : Impl,
     joyCallback this joy_msg =
       Ok (this',
           [ROS_INFO "Boton B pulsado" [];
            ROS_INFO "Escala de velocidad incrementada a %f" [arg_f (f2d scale')];
            sleep (f2d (reaction_t this));
            publish (cmd_vel_msg this)]
           ++ printTwistInfo (cmd_vel_msg this) "Velocidad publicada") /\
     mov_vel this' = scale') /\
  (is_float (mov_vel this) -> fpos (mov_vel this) = true ->
   is_float (max_vel this) -> fpos (max_vel this) = true ->
   fle scale' (max_vel this) = true /\
   fle scale' (d2f product) = true /\
   (scale' = max_vel this \/ scale' = d2f product)).
Proof.
  intros En Inc Dec product scale'. split; [|split].
  - apply (ModifyVelocity_increment _ _ _ _ Inc).
  - rewrite (joyCallback_increment this joy_msg (conj En Inc)).
    eexists. split; reflexivity.
  - intros Fs Ps FM PM.
    exact (incremented_is_min (mov_vel this) (max_vel this) Fs Ps FM PM).
Qed.

(** With both buttons held, the scale 1.9 and [max_vel] 2: the product
    2.28 is above [max_vel], and the new scale is [max_vel]. *)
Lemma C8_increment_wins_witness :
  ModifyVelocity
    (set_mov_vel (TeleopTwistJoy (pad_params (float_of_lit 2))) (float_of_lit (19 # 10)))
    (frame [] [1; 1; 1]%Z) (float_of_lit (19 # 10)) (float_of_lit 2) =
  Ok (float_of_lit 2,
      [ROS_INFO "Escala de velocidad incrementada a %f" [arg_f (float_of_lit 2)];
       sleep (Fin (1 # 2)%Q)]) /\
  fle (float_of_lit 2) (float_of_lit 2) = true /\
  flt (float_of_lit 2) (d2f (dmul (float_of_lit (19 # 10)) lit_1_2)) = true.
Proof.
  destruct (C8_increment_wins
              (set_mov_vel (TeleopTwistJoy (pad_params (float_of_lit 2)))
                 (float_of_lit (19 # 10)))
              (frame [] [1; 1; 1]%Z) eq_refl eq_refl eq_refl) as (MV & _ & Min).
  destruct Min as (Hi & _ & _); try (vm_compute; reflexivity).
  split; [|split].
  - vm_compute in MV |- *. exact MV.
  - vm_compute in Hi |- *. exact Hi.
  - vm_compute. reflexivity.
Defined.

(** ** The scale under adjustment *)

(** C3. Over any sequence of frames the node can read, starting from a
    scale between [min_vel] and [max_vel], the run returns and the scale it
    leaves is again between [min_vel] and [max_vel]; the bounds themselves
    do not change.  [min_vel] is positive: the code fixes it to 0.1. *)
Theorem C3_scale_stays_within_bounds (this : Impl) (frames : list Joy) :
  is_float (min_vel this) -> fpos (min_vel this) = true ->
  is_float (max_vel this) -> is_float (mov_vel this) ->
  fle (min_vel this) (mov_vel this) = true ->
  fle (mov_vel this) (max_vel this) = true ->
  Forall (readable this) frames ->
  exists (this' : Impl) (evs : list event),
    run this frames = Ok (this', evs) /\
    min_vel this' = min_vel this /\
    max_vel this' = max_vel this /\
    is_float (mov_vel this') /\
    fle (min_vel this') (mov_vel this') = true /\
    fle (mov_vel this') (max_vel this') = true.
Proof.
  intros Fm Pm FM Fs Lo Hi HF.
  destruct (run_invariant
              (fun a b => same_buttons a b /\ min_vel b = min_vel a /\ max_vel b = max_vel a)
              readable) with
    (P := fun a => is_float (min_vel a) /\ fpos (min_vel a) = true /\
                   is_float (max_vel a) /\ is_float (mov_vel a) /\
                   fle (min_vel a) (mov_vel a) = true /\
                   fle (mov_vel a) (max_vel a) = true)
    (frames := frames) (this := this)
    as (this' & evs & E & (_ & _ & _ & F' & Lo' & Hi') & (_ & Em & EM)).
  - intros a. split; [apply same_buttons_refl|split; reflexivity].
  - intros a b c (A1 & A2 & A3) (B1 & B2 & B3).
    split; [eapply same_buttons_trans; eassumption|split; congruence].
  - intros a b joy_msg (A1 & _). apply readable_same, A1.
  - trivial.
  - intros a b joy_msg evs (Fm' & Pm' & FM' & Fs' & Lo' & Hi') K H.
    pose proof (joyCallback_same_buttons _ _ _ _ H) as SB.
    destruct (joyCallback_Ok_effect _ _ _ _ H) as (_ & _ & _ & _ & Em & EM & _).
    split; [|auto]. rewrite Em, EM.
    split; [exact Fm'|]. split; [exact Pm'|]. split; [exact FM'|].
    destruct (joyCallback_Ok_kind _ _ _ _ H) as [G|[G|[G|G]]].
    + rewrite (joyCallback_gate_closed _ _ G) in H. injection H as <- _. auto.
    + rewrite (joyCallback_increment _ _ G) in H. injection H as <- _.
      apply (increment_bounds (min_vel a) (mov_vel a) (max_vel a)); assumption.
    + rewrite (joyCallback_decrement _ _ G) in H. injection H as <- _.
      destruct (decrement_bounds (min_vel a) (mov_vel a) (max_vel a))
        as (A & B & C); try assumption.
      split; [exact A|]. split; [exact B|].
      eapply fle_trans; [exact C|exact Hi'].
    + destruct (getVal_total joy_msg (axis_position_map a) "x") as [vx X].
      destruct (getVal_total joy_msg (axis_position_map a) "y") as [vy Y].
      destruct (getVal_total joy_msg (axis_orientation_map a) "z") as [vz Z].
      rewrite (joyCallback_motion _ _ _ _ _ G X Y Z) in H. injection H as <- _. auto.
  - auto 10.
  - exact HF.
  - exists this', evs. rewrite Em, EM in *. repeat split; assumption || reflexivity.
Qed.

Lemma C3_scale_stays_within_bounds_witness :
  exists (this' : Impl) (evs : list event),
    run (TeleopTwistJoy (pad_params (float_of_lit 2)))
      [frame [] [1; 1; 0]%Z; frame [] [1; 1; 1]%Z; frame [1]%Q [1; 0; 0]%Z;
       frame [] [1; 0; 1]%Z; frame [] [0; 1; 0]%Z; frame [] [1; 1; 0]%Z;
       frame [] [1; 1; 0]%Z; frame [] [1; 1; 0]%Z; frame [] [1; 1; 0]%Z;
       frame [] [1; 1; 0]%Z; frame [] [1; 1; 0]%Z; frame [] [1; 1; 0]%Z;
       frame [] [1; 1; 0]%Z] = Ok (this', evs) /\
    min_vel this' = min_vel_default /\
    max_vel this' = float_of_lit 2 /\
    is_float (mov_vel this') /\
    fle (min_vel this') (mov_vel this') = true /\
    fle (mov_vel this') (max_vel this') = true.
Proof.
  apply (C3_scale_stays_within_bounds (TeleopTwistJoy (pad_params (float_of_lit 2)))).
  - vm_compute; reflexivity.
  - vm_compute; reflexivity.
  - vm_compute; reflexivity.
  - vm_compute; reflexivity.
  - vm_compute; reflexivity.
  - vm_compute; reflexivity.
  - repeat (constructor; [vm_compute; auto 10|]). constructor.
Defined.

(** ** Repeated decrement *)

Lemma scale_after_decrements (frames : list Joy) (this : Impl) :
  Forall (decrement_frame this) frames ->
  scale_after this frames = Ok (decrements (length frames) (min_vel this) (mov_vel this)).
Proof.
  revert this. induction frames as [|j rest IH]; intros this HF.
  - reflexivity.
  - inversion HF as [|? ? Hj Hrest]; subst.
    unfold scale_after. cbn [run length decrements].
    rewrite (joyCallback_decrement _ _ Hj). cbn [bind fst snd].
    set (this1 := set_mov_vel this (decremented (min_vel this) (mov_vel this))).
    assert (H1 : Forall (decrement_frame this1) rest).
    { eapply Forall_same; [|exact Hrest]. intros a Ha. exact Ha. }
    pose proof (IH this1 H1) as E. unfold scale_after in E.
    destruct (run this1 rest) as [[t e]|]; [|discriminate].
    cbn [bind fst snd] in E |- *. exact E.
Qed.

Lemma decrements_add (n k : nat) (m s : float) :
  decrements (n + k) m s = decrements k m (decrements n m s).
Proof. revert s. induction n as [|n IH]; intros s; [reflexivity|apply IH]. Qed.

Section DecrementsBounds.
Local Open Scope Q_scope.

Lemma decrements_bounds (n : nat) (q : Q) :
  is_float (Fin q) -> min_vel_q <= q ->
  exists q', decrements n min_vel_default (Fin q) = Fin q' /\
             is_float (Fin q') /\ min_vel_q <= q' /\ q' <= q.
Proof.
  revert q. induction n as [|n IH]; intros q F Hm.
  - exists q. repeat split; [exact F|exact Hm|lra].
  - cbn [decrements].
    destruct (decremented_step q F Hm) as (q1 & -> & F1 & A1 & B1 & _).
    destruct (IH q1 F1 A1) as (q' & E & F' & A & B).
    exists q'. repeat split; [exact E|exact F'|exact A|lra].
Qed.

(** The number of decrements after which a scale [q] is at [min_vel]. *)
Lemma decrements_reach_N (q : Q) :
  is_float (Fin q) -> min_vel_q <= q ->
  exists N : nat, forall n : nat,
    (N <= n)%nat -> decrements n min_vel_default (Fin q) = min_vel_default.
Proof.
  intros F Hm.
  exists (Z.to_nat (Qceiling ((q - min_vel_q) * 128))).
  intros n Hn. apply decrements_reach; [exact F|exact Hm|].
  pose proof (Qle_ceiling ((q - min_vel_q) * 128)) as Hc.
  assert (H : inject_Z (Qceiling ((q - min_vel_q) * 128)) <= inject_Z (Z.of_nat n)).
  { rewrite <- Zle_Qle. lia. }
  lra.
Qed.
End DecrementsBounds.

Lemma decrements_Inf (n : nat) :
  decrements n min_vel_default (Inf false) = Inf false.
Proof. induction n as [|n IH]; [reflexivity|exact IH]. Qed.

Lemma run_Ok_effect (frames : list Joy) (this this' : Impl) (evs : list event) :
  run this frames = Ok (this', evs) ->
  same_buttons this this' /\ min_vel this' = min_vel this.
Proof.
  revert this evs. induction frames as [|j rest IH]; intros this evs H.
  - injection H as <- _. split; [apply same_buttons_refl|reflexivity].
  - cbn [run] in H.
    destruct (joyCallback this j) as [[t e]|] eqn:E; [|discriminate].
    cbn [bind fst snd] in H.
    destruct (run t rest) as [[t' e']|] eqn:E'; [|discriminate].
    cbn [bind fst snd] in H. injection H as <- _.
    destruct (IH _ _ E') as [SB Em].
    destruct (joyCallback_Ok_effect _ _ _ _ E) as (_ & _ & _ & _ & Em0 & _).
    split; [|congruence].
    eapply same_buttons_trans; [eapply joyCallback_same_buttons; exact E|exact SB].
Qed.

Lemma scale_after_app (this this1 : Impl) (l1 l2 : list Joy) (evs1 : list event) :
  run this l1 = Ok (this1, evs1) ->
  scale_after this (l1 ++ l2) = scale_after this1 l2.
Proof.
  intros H1. unfold scale_after.
  destruct (run this1 l2) as [[t2 e2]|] eqn:E2.
  - rewrite (run_app _ _ _ _ _ _ _ H1 E2). reflexivity.
  - revert this evs1 H1. induction l1 as [|j l1 IH]; intros this evs1 H1.
    + injection H1 as <- _. cbn [app]. rewrite E2. reflexivity.
    + cbn [run app] in H1 |- *.
      destruct (joyCallback this j) as [[t e]|]; [|discriminate].
      cbn [bind fst snd] in H1 |- *.
      destruct (run t l1) as [[t' e']|] eqn:E1; [|discriminate].
      cbn [bind fst snd] in H1. injection H1 as <- _.
      specialize (IH t e' E1).
      destruct (run t (l1 ++ l2)) as [[t3 e3]|]; cbn [bind] in IH |- *;
        [discriminate|exact IH].
Qed.

Lemma scale_after_inv (this : Impl) (frames : list Joy) (v : float) :
  scale_after this frames = Ok v ->
  exists (this' : Impl) (evs : list event),
    run this frames = Ok (this', evs) /\ mov_vel this' = v.
Proof.
  unfold scale_after. destruct (run this frames) as [[t e]|]; [|discriminate].
  cbn [bind fst]. intros H; injection H as <-. eauto.
Qed.

Lemma Forall_repeat {A : Type} (P : A -> Prop) (a : A) (n : nat) :
  P a -> Forall P (repeat a n).
Proof. intros H. induction n; constructor; assumption. Qed.

(** With [max_vel] plus infinity nothing clamps the product: 500 frames
    that request an increment take the scale from 0.5 past the range of
    [float], to plus infinity. *)
Lemma scale_overflows :
  scale_after (TeleopTwistJoy (pad_params (Inf false)))
    (repeat (frame [] [1; 1; 0]%Z) 500) = Ok (Inf false).
Proof. vm_compute. reflexivity. Qed.

Lemma run_reachable (frames : list Joy) (this this' : Impl) (evs : list event) :
  reachable this -> run this frames = Ok (this', evs) -> reachable this'.
Proof.
  revert this evs. induction frames as [|j rest IH]; intros this evs R H.
  - injection H as <- _. exact R.
  - cbn [run] in H.
    destruct (joyCallback this j) as [[t e]|] eqn:E; [|discriminate].
    cbn [bind fst snd] in H.
    destruct (run t rest) as [[t' e']|] eqn:E'; [|discriminate].
    cbn [bind fst snd] in H. injection H as <- _.
    exact (IH t e' (reachable_step _ _ _ _ R E) E').
Qed.

(** C9, as the claim words it ("from any scale at or above [min_vel]"),
    fails at plus infinity.  The node reaches a state whose scale is plus
    infinity, a [float] at or above [min_vel]; there a decrement computes
    inf / 1.2 = inf and max(inf, 0.1) = inf: frames that request a
    decrement exist, and after any number of them the scale is still plus
    infinity, never [min_vel]. *)
Lemma C9_counterexample :
  exists this : Impl,
    reachable this /\
    min_vel this = min_vel_default /\
    mov_vel this = Inf false /\
    is_float (mov_vel this) /\
    fle (min_vel this) (mov_vel this) = true /\
    decrement_frame this (frame [] [1; 0; 1]%Z) /\
    forall frames : list Joy,
      Forall (decrement_frame this) frames ->
      scale_after this frames = Ok (Inf false) /\
      Inf false <> min_vel this.
Proof.
  destruct (scale_after_inv _ _ _ scale_overflows) as (this & evs & R & Es).
  destruct (run_Ok_effect _ _ _ _ R) as [SB Em].
  assert (Emin : min_vel this = min_vel_default) by exact Em.
  exists this.
  split; [exact (run_reachable _ _ _ _ (reachable_init _) R)|].
  split; [exact Emin|]. split; [exact Es|].
  split; [rewrite Es; reflexivity|].
  split; [rewrite Emin, Es, min_vel_default_eq; reflexivity|].
  split; [apply (decrement_frame_same _ _ _ SB); repeat split|].
  intros frames HF. rewrite (scale_after_decrements _ _ HF), Emin, Es, decrements_Inf.
  split; [reflexivity|rewrite min_vel_default_eq; discriminate].
Qed.

(** C9 (amended). From a finite scale [q] at or above [min_vel] (0.1 as a
    [float]), frames that each request a decrement give scales that never
    increase from one frame to the next, never go below [min_vel], and are
    exactly [min_vel] from some number of frames on.  From the scale 0.2
    the scales are about 0.1667, 0.1389 and 0.1157, then exactly [min_vel],
    and a further decrement leaves [min_vel]. *)
Theorem C9_repeated_decrement_reaches_min_vel :
  (forall (this : Impl) (q : Q),
     min_vel this = min_vel_default ->
     mov_vel this = Fin q -> is_float (mov_vel this) ->
     fle (min_vel this) (mov_vel this) = true ->
     (forall frames1 frames2 : list Joy,
        Forall (decrement_frame this) (frames1 ++ frames2) ->
        exists q1 q2 : Q,
          scale_after this frames1 = Ok (Fin q1) /\
          scale_after this (frames1 ++ frames2) = Ok (Fin q2) /\
          (min_vel_q <= q2)%Q /\ (q2 <= q1)%Q /\ (q1 <= q)%Q) /\
     (exists N : nat, forall frames : list Joy,
        Forall (decrement_frame this) frames ->
        (N <= length frames)%nat ->
        scale_after this frames = Ok min_vel_default)) /\
  (let this := set_mov_vel (TeleopTwistJoy (pad_params (float_of_lit 2)))
                 (float_of_lit (2 # 10)) in
   let dec := frame [] [1; 0; 1]%Z in
   min_vel_default = Fin min_vel_q /\
   (Qabs (min_vel_q - (1 # 10)) < 1 # 100000000)%Q /\
   scale_after this [dec] = Ok (Fin (11184811 # 67108864)%Q) /\
   (Qabs ((11184811 # 67108864) - (1667 # 10000)) < 1 # 10000)%Q /\
   scale_after this [dec; dec] = Ok (Fin (2330169 # 16777216)%Q) /\
   (Qabs ((2330169 # 16777216) - (1389 # 10000)) < 1 # 10000)%Q /\
   scale_after this [dec; dec; dec] = Ok (Fin (3883615 # 33554432)%Q) /\
   (Qabs ((3883615 # 33554432) - (1157 # 10000)) < 1 # 10000)%Q /\
   scale_after this [dec; dec; dec; dec] = Ok min_vel_default /\
   scale_after this [dec; dec; dec; dec; dec] = Ok min_vel_default).
Proof.
  split.
  - intros this q Em Es F Hm.
    rewrite Es in F. rewrite Em, Es, min_vel_default_eq in Hm. apply fle_Fin in Hm.
    split.
    + intros frames1 frames2 HF.
      pose proof (proj1 (Forall_app _ _ _) HF) as [HF1 _].
      rewrite (scale_after_decrements _ _ HF), (scale_after_decrements _ _ HF1).
      rewrite length_app, decrements_add, Em, Es.
      destruct (decrements_bounds (length frames1) q F Hm) as (q1 & -> & F1 & A1 & B1).
      destruct (decrements_bounds (length frames2) q1 F1 A1) as (q2 & -> & F2 & A2 & B2).
      exists q1, q2. auto.
    + destruct (decrements_reach_N q F Hm) as [N HN].
      exists N. intros frames HF Hlen.
      rewrite (scale_after_decrements _ _ HF), Em, Es. f_equal. apply HN, Hlen.
  - cbv zeta. repeat split; vm_compute; reflexivity.
Qed.

Lemma C9_repeated_decrement_reaches_min_vel_witness :
  exists q1 q2 : Q,
    scale_after
      (set_mov_vel (TeleopTwistJoy (pad_params (float_of_lit 2))) (float_of_lit 1))
      [frame [] [1; 0; 1]%Z] = Ok (Fin q1) /\
    scale_after
      (set_mov_vel (TeleopTwistJoy (pad_params (float_of_lit 2))) (float_of_lit 1))
      ([frame [] [1; 0; 1]%Z] ++ [frame [] [1; 0; 2]%Z; frame [1]%Q [3; 0; 1]%Z])
      = Ok (Fin q2) /\
    (min_vel_q <= q2)%Q /\ (q2 <= q1)%Q /\ (q1 <= 1)%Q.
Proof.
  apply (proj1 (proj1 C9_repeated_decrement_reaches_min_vel
                  (set_mov_vel (TeleopTwistJoy (pad_params (float_of_lit 2)))
                     (float_of_lit 1))
                  1%Q eq_refl eq_refl eq_refl eq_refl)).
  repeat (constructor; [repeat split|]). constructor.
Defined.

(* ===================================================================== *)
(** * Part V. Further properties of the node *)
(* ===================================================================== *)

(** ** Which frames the callback can handle *)

Lemma button_in_range (joy_msg : Joy) (i : Z) :
  int_range i -> in_buttons joy_msg i ->
  button joy_msg i = Ok (pressed joy_msg i).
Proof.
  intros R [H0 H1]. unfold button, pressed.
  destruct (vec_at_in_range (buttons joy_msg) i) as [b Hb].
  { rewrite (size_t_of_int_nonneg i R H0). exact H1. }
  rewrite Hb. apply vec_at_Ok in Hb. destruct Hb as [_ Hb].
  rewrite (size_t_of_int_nonneg i R H0) in Hb. rewrite Hb. reflexivity.
Qed.

Lemma button_out_of_range (joy_msg : Joy) (i : Z) :
  int_range i -> (Z.of_nat (length (buttons joy_msg)) <= vector_max_size)%Z ->
  ~ in_buttons joy_msg i ->
  button joy_msg i = Fault out_of_bounds.
Proof.
  intros R L N. unfold button, in_buttons in *.
  destruct (Z_lt_ge_dec i 0) as [Neg|Pos].
  - rewrite (vec_at_negative _ i R Neg L). reflexivity.
  - unfold vec_at. rewrite (size_t_of_int_nonneg i R) by lia.
    destruct (Z.ltb_spec i (Z.of_nat (length (buttons joy_msg)))); [lia|reflexivity].
Qed.

Lemma button_fault (joy_msg : Joy) (i : Z) (f : fault) :
  button joy_msg i = Fault f -> f = out_of_bounds.
Proof.
  unfold button, vec_at.
  destruct (_ <? _)%Z; [|intros H; injection H as <-; reflexivity].
  destruct (nth_error _ _); [discriminate|intros H; injection H as <-; reflexivity].
Qed.

Lemma in_buttons_dec (joy_msg : Joy) (i : Z) :
  in_buttons joy_msg i \/ ~ in_buttons joy_msg i.
Proof. unfold in_buttons. lia. Qed.

(** X1. With the three configured indices in the range of [int], the
    callback returns exactly on the frames whose needed reads fall inside
    [buttons] (the enable button; with the gate open the increment button;
    with the increment button released the decrement button), and on every
    other frame it reads outside the array. *)
Theorem joyCallback_returns_iff_well_indexed (this : Impl) (joy_msg : Joy) :
  int_range (enable_mov this) -> int_range (increment_vel this) ->
  int_range (decrement_vel this) ->
  (Z.of_nat (length (buttons joy_msg)) <= vector_max_size)%Z ->
  ((exists this' evs, joyCallback this joy_msg = Ok (this', evs)) <->
   well_indexed this joy_msg) /\
  (~ well_indexed this joy_msg -> joyCallback this joy_msg = Fault out_of_bounds).
Proof.
  intros Re Ri Rd L.
  assert (Bad : ~ well_indexed this joy_msg ->
                joyCallback this joy_msg = Fault out_of_bounds).
  { intros N. unfold joyCallback.
    destruct (in_buttons_dec joy_msg (enable_mov this)) as [Ie|Ie];
      [|rewrite (button_out_of_range _ _ Re L Ie); reflexivity].
    rewrite (button_in_range _ _ Re Ie).
    destruct (pressed joy_msg (enable_mov this)) eqn:Pe;
      [|exfalso; apply N; split; [exact Ie|rewrite Pe; discriminate]].
    cbn [bind].
    destruct (in_buttons_dec joy_msg (increment_vel this)) as [Ii|Ii];
      [|rewrite (button_out_of_range _ _ Ri L Ii); reflexivity].
    rewrite (button_in_range _ _ Ri Ii).
    destruct (pressed joy_msg (increment_vel this)) eqn:Pi;
      [exfalso; apply N; split; [exact Ie|intros _; split; [exact Ii|rewrite Pi; discriminate]]|].
    cbn [bind].
    destruct (in_buttons_dec joy_msg (decrement_vel this)) as [Id|Id];
      [|rewrite (button_out_of_range _ _ Rd L Id); reflexivity].
    exfalso; apply N; split; [exact Ie|intros _; split; [exact Ii|intros _; exact Id]]. }
  split; [|exact Bad]. split.
  - intros (this' & evs & H).
    destruct (in_buttons_dec joy_msg (enable_mov this)) as [Ie|Ie].
    2:{ unfold joyCallback in H. rewrite (button_out_of_range _ _ Re L Ie) in H. discriminate. }
    split; [exact Ie|]. intros Pe.
    destruct (in_buttons_dec joy_msg (increment_vel this)) as [Ii|Ii].
    2:{ unfold joyCallback in H.
        rewrite (button_in_range _ _ Re Ie), Pe in H. cbn [bind] in H.
        rewrite (button_out_of_range _ _ Ri L Ii) in H. discriminate. }
    split; [exact Ii|]. intros Pi.
    destruct (in_buttons_dec joy_msg (decrement_vel this)) as [Id|Id]; [exact Id|].
    unfold joyCallback in H.
    rewrite (button_in_range _ _ Re Ie), Pe in H. cbn [bind] in H.
    rewrite (button_in_range _ _ Ri Ii), Pi in H. cbn [bind] in H.
    rewrite (button_out_of_range _ _ Rd L Id) in H. discriminate.
  - intros (Ie & W). apply joyCallback_readable.
    unfold readable, gate_closed, scaling_frame, increment_frame, decrement_frame,
      motion_frame.
    rewrite (button_in_range _ _ Re Ie).
    destruct (pressed joy_msg (enable_mov this)) eqn:Pe; [|left; reflexivity].
    destruct (W eq_refl) as [Ii W'].
    rewrite (button_in_range _ _ Ri Ii).
    destruct (pressed joy_msg (increment_vel this)) eqn:Pi; [right; left; left; auto|].
    rewrite (button_in_range _ _ Rd (W' eq_refl)).
    destruct (pressed joy_msg (decrement_vel this)); [right; left; right; auto|right; right; auto].
Qed.

Lemma joyCallback_returns_iff_well_indexed_witness :
  ((exists this' evs,
      joyCallback (TeleopTwistJoy (pad_params (float_of_lit 2)))
        (frame [] [1; 0; 1]%Z) = Ok (this', evs)) <->
   well_indexed (TeleopTwistJoy (pad_params (float_of_lit 2))) (frame [] [1; 0; 1]%Z)) /\
  (~ well_indexed (TeleopTwistJoy (pad_params (float_of_lit 2))) (frame [] [1; 0; 1]%Z) ->
   joyCallback (TeleopTwistJoy (pad_params (float_of_lit 2)))
     (frame [] [1; 0; 1]%Z) = Fault out_of_bounds).
Proof.
  apply (joyCallback_returns_iff_well_indexed
           (TeleopTwistJoy (pad_params (float_of_lit 2))) (frame [] [1; 0; 1]%Z)).
  - unfold int_range; simpl; lia.
  - unfold int_range; simpl; lia.
  - unfold int_range; simpl; lia.
  - vm_compute. discriminate.
Defined.

(** ** No exception *)

Lemma getVal_never_faults (joy_msg : Joy) (axis_map : gmap string Z) (fieldname : string)
  (f : fault) : getVal joy_msg axis_map fieldname <> Fault f.
Proof.
  destruct (getVal_total joy_msg axis_map fieldname) as [v ->]. discriminate.
Qed.

Lemma joyCallback_fault (this : Impl) (joy_msg : Joy) (f : fault) :
  joyCallback this joy_msg = Fault f -> f = out_of_bounds.
Proof.
  unfold joyCallback, ModifyVelocity.
  destruct (button joy_msg (enable_mov this)) as [[]|fe] eqn:Ee; cbn [bind].
  - destruct (button joy_msg (increment_vel this)) as [[]|fi] eqn:Ei; cbn [bind].
    + discriminate.
    + destruct (button joy_msg (decrement_vel this)) as [[]|fd] eqn:Ed; cbn [bind].
      * discriminate.
      * destruct (getVal_total joy_msg (axis_position_map this) "x") as [vx ->].
        destruct (getVal_total joy_msg (axis_position_map this) "y") as [vy ->].
        destruct (getVal_total joy_msg (axis_orientation_map this) "z") as [vz ->].
        discriminate.
      * intros H; injection H as <-. apply (button_fault _ _ _ Ed).
    + intros H; injection H as <-. apply (button_fault _ _ _ Ei).
  - discriminate.
  - intros H; injection H as <-. apply (button_fault _ _ _ Ee).
Qed.

(** X2. No run of the node ends in the exception of [std::map::at]: the
    only fault of the callback is a read outside [buttons]; and [getVal]
    ends in no fault at all, whatever the map, the name and the frame. *)
Theorem run_never_throws (this : Impl) (frames : list Joy) :
  run this frames <> Fault out_of_range /\
  (forall (axis_map : gmap string Z) (fieldname : string) (joy_msg : Joy) (f : fault),
     getVal joy_msg axis_map fieldname <> Fault f).
Proof.
  split; [|intros; apply getVal_never_faults].
  revert this. induction frames as [|j rest IH]; intros this; [discriminate|].
  cbn [run].
  destruct (joyCallback this j) as [[t e]|f] eqn:E; cbn [bind fst snd].
  - specialize (IH t). destruct (run t rest) as [[t' e']|f']; cbn [bind]; [discriminate|].
    exact IH.
  - rewrite (joyCallback_fault _ _ _ E). discriminate.
Qed.

(** ** One message per frame *)

Lemma published_app (l1 l2 : list event) :
  published (l1 ++ l2) = published l1 ++ published l2.
Proof. unfold published. apply omap_app. Qed.

Lemma sleeps_app (l1 l2 : list event) : sleeps (l1 ++ l2) = sleeps l1 ++ sleeps l2.
Proof. unfold sleeps. apply omap_app. Qed.

(** X3. A run that returns has published one message per frame, and the
    last of them (the initial command when there was no frame) is the
    [cmd_vel_msg] the node holds afterwards. *)
Theorem run_publishes_once_per_frame
  (this this' : Impl) (frames : list Joy) (evs : list event) :
  run this frames = Ok (this', evs) ->
  length (published evs) = length frames /\
  List.last (published evs) (cmd_vel_msg this) = cmd_vel_msg this'.
Proof.
  revert this evs. induction frames as [|j rest IH]; intros this evs H.
  - injection H as <- <-. split; reflexivity.
  - cbn [run] in H.
    destruct (joyCallback this j) as [[t e]|] eqn:E; [|discriminate].
    cbn [bind fst snd] in H.
    destruct (run t rest) as [[t' e']|] eqn:E'; [|discriminate].
    cbn [bind fst snd] in H. injection H as <- <-.
    destruct (joyCallback_Ok_effect _ _ _ _ E) as (P & _).
    destruct (IH _ _ E') as [Len Last].
    rewrite published_app, P. cbn [app length]. split; [congruence|].
    rewrite <- Last. cbn [List.last].
    destruct (published e') as [|m ms]; [reflexivity|].
    clear. revert m. induction ms as [|a ms IHm]; intros m; [reflexivity|].
    cbn [List.last] in *. apply (IHm a).
Qed.

Lemma run_publishes_once_per_frame_witness :
  length (published
            (publish (stop_msg Twist_new)
             :: printTwistInfo (stop_msg Twist_new) "Velocidad publicada" ++ [])) = 1%nat /\
  List.last (published
               (publish (stop_msg Twist_new)
                :: printTwistInfo (stop_msg Twist_new) "Velocidad publicada" ++ []))
    Twist_new = stop_msg Twist_new.
Proof.
  apply (run_publishes_once_per_frame
           (TeleopTwistJoy (pad_params (float_of_lit 2)))
           (set_cmd_vel_msg (TeleopTwistJoy (pad_params (float_of_lit 2)))
              (stop_msg Twist_new))
           [frame [] [0; 0; 0]%Z]).
  vm_compute. reflexivity.
Defined.

(** ** Blocking *)

Lemma joyCallback_same_config (this this' : Impl) (joy_msg : Joy) (evs : list event) :
  joyCallback this joy_msg = Ok (this', evs) -> same_config this this'.
Proof.
  intros H.
  destruct (joyCallback_Ok_kind _ _ _ _ H) as [K|[K|[K|K]]].
  - rewrite (joyCallback_gate_closed _ _ K) in H. injection H as <- _.
    repeat split; reflexivity.
  - rewrite (joyCallback_increment _ _ K) in H. injection H as <- _.
    repeat split; reflexivity.
  - rewrite (joyCallback_decrement _ _ K) in H. injection H as <- _.
    repeat split; reflexivity.
  - destruct (getVal_total joy_msg (axis_position_map this) "x") as [vx X].
    destruct (getVal_total joy_msg (axis_position_map this) "y") as [vy Y].
    destruct (getVal_total joy_msg (axis_orientation_map this) "z") as [vz Z].
    rewrite (joyCallback_motion _ _ _ _ _ K X Y Z) in H. injection H as <- _.
    repeat split; reflexivity.
Qed.

Lemma same_config_refl (this : Impl) : same_config this this.
Proof. repeat split. Qed.

Lemma same_config_trans (a b c : Impl) :
  same_config a b -> same_config b c -> same_config a c.
Proof.
  unfold same_config.
  intros (A1 & A2 & A3 & A4 & A5 & A6 & A7 & A8) (B1 & B2 & B3 & B4 & B5 & B6 & B7 & B8).
  repeat split; congruence.
Qed.

Lemma scaling_frame_not_others (this : Impl) (joy_msg : Joy) :
  scaling_frame this joy_msg ->
  ~ gate_closed this joy_msg /\ ~ motion_frame this joy_msg.
Proof.
  unfold scaling_frame, increment_frame, decrement_frame, gate_closed, motion_frame.
  intros [[A B]|[A [B C]]]; split.
  - intros D. congruence.
  - intros (D1 & D2 & D3). congruence.
  - intros D. congruence.
  - intros (D1 & D2 & D3). congruence.
Qed.

(** What a callback that returns does besides publishing: on a scaling
    frame one sleep and no new command, on any other frame no sleep and no
    new scale. *)
Lemma joyCallback_sleeps (this this' : Impl) (joy_msg : Joy) (evs : list event) :
  joyCallback this joy_msg = Ok (this', evs) ->
  (scaling_frame this joy_msg /\
   sleeps evs = [f2d (reaction_t this)] /\ cmd_vel_msg this' = cmd_vel_msg this) \/
  (~ scaling_frame this joy_msg /\
   sleeps evs = [] /\ mov_vel this' = mov_vel this).
Proof.
  intros H.
  destruct (joyCallback_Ok_kind _ _ _ _ H) as [K|[K|[K|K]]].
  - rewrite (joyCallback_gate_closed _ _ K) in H. injection H as <- <-.
    right. split; [|split; reflexivity].
    intros S. apply (proj1 (scaling_frame_not_others _ _ S)), K.
  - rewrite (joyCallback_increment _ _ K) in H. injection H as <- <-.
    left. split; [left; exact K|split; reflexivity].
  - rewrite (joyCallback_decrement _ _ K) in H. injection H as <- <-.
    left. split; [right; exact K|split; reflexivity].
  - destruct (getVal_total joy_msg (axis_position_map this) "x") as [vx X].
    destruct (getVal_total joy_msg (axis_position_map this) "y") as [vy Y].
    destruct (getVal_total joy_msg (axis_orientation_map this) "z") as [vz Z].
    rewrite (joyCallback_motion _ _ _ _ _ K X Y Z) in H. injection H as <- <-.
    right. split; [|split; reflexivity].
    intros S. apply (proj2 (scaling_frame_not_others _ _ S)), K.
Qed.

(** X4. A callback that returns has blocked exactly when the frame was a
    scaling frame: then it has slept once, for [reaction_t], and left the
    command as it was; on every other frame it has not slept and has left
    the scale as it was. *)
Theorem joyCallback_blocks_iff_scaling
  (this this' : Impl) (joy_msg : Joy) (evs : list event) :
  joyCallback this joy_msg = Ok (this', evs) ->
  (scaling_frame this joy_msg <-> sleeps evs <> []) /\
  (scaling_frame this joy_msg ->
   sleeps evs = [f2d (reaction_t this)] /\ cmd_vel_msg this' = cmd_vel_msg this) /\
  (~ scaling_frame this joy_msg -> mov_vel this' = mov_vel this).
Proof.
  intros H.
  destruct (joyCallback_sleeps _ _ _ _ H) as [(S & E & C)|(N & E & C)].
  - split; [|split; [auto|intros N; contradiction]].
    split; [intros _; rewrite E; discriminate|auto].
  - split; [|split; [intros S; contradiction|auto]].
    split; [intros S; contradiction|intros D; rewrite E in D; congruence].
Qed.

Lemma joyCallback_blocks_iff_scaling_witness :
  (scaling_frame (TeleopTwistJoy (pad_params (float_of_lit 2))) (frame [] [1; 1; 0]%Z) <->
   sleeps [ROS_INFO "Boton B pulsado" [];
           ROS_INFO "Escala de velocidad incrementada a %f"
             [arg_f (Fin (5033165 # 8388608)%Q)];
           sleep (Fin (1 # 2)%Q); publish Twist_new;
           ROS_INFO "%s - Lineal (x, y): (%.5f, %.5f), Angular (z): (%.5f)"
             [arg_s "Velocidad publicada"; arg_f (Zero false); arg_f (Zero false);
              arg_f (Zero false)]] <> []) /\
  (scaling_frame (TeleopTwistJoy (pad_params (float_of_lit 2))) (frame [] [1; 1; 0]%Z) ->
   sleeps [ROS_INFO "Boton B pulsado" [];
           ROS_INFO "Escala de velocidad incrementada a %f"
             [arg_f (Fin (5033165 # 8388608)%Q)];
           sleep (Fin (1 # 2)%Q); publish Twist_new;
           ROS_INFO "%s - Lineal (x, y): (%.5f, %.5f), Angular (z): (%.5f)"
             [arg_s "Velocidad publicada"; arg_f (Zero false); arg_f (Zero false);
              arg_f (Zero false)]]
   = [f2d (reaction_t (TeleopTwistJoy (pad_params (float_of_lit 2))))] /\
   cmd_vel_msg (set_mov_vel (TeleopTwistJoy (pad_params (float_of_lit 2)))
                  (Fin (5033165 # 8388608)%Q))
   = cmd_vel_msg (TeleopTwistJoy (pad_params (float_of_lit 2)))) /\
  (~ scaling_frame (TeleopTwistJoy (pad_params (float_of_lit 2))) (frame [] [1; 1; 0]%Z) ->
   mov_vel (set_mov_vel (TeleopTwistJoy (pad_params (float_of_lit 2)))
              (Fin (5033165 # 8388608)%Q))
   = mov_vel (TeleopTwistJoy (pad_params (float_of_lit 2)))).
Proof.
  apply (joyCallback_blocks_iff_scaling
           (TeleopTwistJoy (pad_params (float_of_lit 2)))
           (set_mov_vel (TeleopTwistJoy (pad_params (float_of_lit 2)))
              (Fin (5033165 # 8388608)%Q))
           (frame [] [1; 1; 0]%Z)).
  vm_compute. reflexivity.
Defined.

Lemma scaling_frame_same (this this' : Impl) (joy_msg : Joy) :
  same_config this this' -> scaling_frame this' joy_msg -> scaling_frame this joy_msg.
Proof.
  unfold same_config, scaling_frame, increment_frame, decrement_frame.
  intros (-> & -> & -> & _). trivial.
Qed.

(** X5. A run that returns leaves the configuration (button indices,
    [min_vel], [max_vel], [reaction_t], both axis maps) as it was, has
    slept at most once per frame, each time for [reaction_t], and, when no
    frame was a scaling frame, has not slept and has kept the scale. *)
Theorem run_blocking_time
  (this this' : Impl) (frames : list Joy) (evs : list event) :
  run this frames = Ok (this', evs) ->
  same_config this this' /\
  (length (sleeps evs) <= length frames)%nat /\
  Forall (fun d => d = f2d (reaction_t this)) (sleeps evs) /\
  (Forall (fun joy_msg => ~ scaling_frame this joy_msg) frames ->
   sleeps evs = [] /\ mov_vel this' = mov_vel this).
Proof.
  revert this evs. induction frames as [|j rest IH]; intros this evs H.
  - injection H as <- <-. split; [apply same_config_refl|].
    split; [reflexivity|]. split; [constructor|]. intros _; split; reflexivity.
  - cbn [run] in H.
    destruct (joyCallback this j) as [[t e]|] eqn:E; [|discriminate].
    cbn [bind fst snd] in H.
    destruct (run t rest) as [[t' e']|] eqn:E'; [|discriminate].
    cbn [bind fst snd] in H. injection H as <- <-.
    pose proof (joyCallback_same_config _ _ _ _ E) as C.
    destruct (IH _ _ E') as (C' & Len & All & Quiet).
    assert (Er : reaction_t t = reaction_t this) by apply C.
    rewrite Er in All.
    split; [eapply same_config_trans; eassumption|].
    rewrite sleeps_app, length_app. cbn [length].
    destruct (joyCallback_sleeps _ _ _ _ E) as [(S & Es & _)|(N & Es & Em)];
      rewrite Es; cbn [length app].
    { split; [lia|]. split; [constructor; [reflexivity|exact All]|].
      intros HF. inversion HF as [|? ? Hj Hrest]; subst. contradiction. }
    split; [lia|]. split; [exact All|].
    intros HF. inversion HF as [|? ? Hj Hrest]; subst.
    destruct Quiet as [-> Em'].
    { eapply Forall_same; [|exact Hrest]. intros a Na Sa. apply Na.
      apply (scaling_frame_same _ _ _ C Sa). }
    split; [reflexivity|congruence].
Qed.

Lemma run_blocking_time_witness :
  same_config (TeleopTwistJoy (pad_params (float_of_lit 2)))
    (set_mov_vel (TeleopTwistJoy (pad_params (float_of_lit 2)))
       (Fin (5033165 # 8388608)%Q)) /\
  (length (sleeps
     ([ROS_INFO "Boton B pulsado" [];
       ROS_INFO "Escala de velocidad incrementada a %f"
         [arg_f (Fin (5033165 # 8388608)%Q)];
       sleep (Fin (1 # 2)%Q); publish Twist_new;
       ROS_INFO "%s - Lineal (x, y): (%.5f, %.5f), Angular (z): (%.5f)"
         [arg_s "Velocidad publicada"; arg_f (Zero false); arg_f (Zero false);
          arg_f (Zero false)]] ++ [])) <= 1)%nat /\
  Forall (fun d => d = f2d (reaction_t (TeleopTwistJoy (pad_params (float_of_lit 2)))))
    (sleeps
       ([ROS_INFO "Boton B pulsado" [];
         ROS_INFO "Escala de velocidad incrementada a %f"
           [arg_f (Fin (5033165 # 8388608)%Q)];
         sleep (Fin (1 # 2)%Q); publish Twist_new;
         ROS_INFO "%s - Lineal (x, y): (%.5f, %.5f), Angular (z): (%.5f)"
           [arg_s "Velocidad publicada"; arg_f (Zero false); arg_f (Zero false);
            arg_f (Zero false)]] ++ [])) /\
  (Forall (fun joy_msg =>
             ~ scaling_frame (TeleopTwistJoy (pad_params (float_of_lit 2))) joy_msg)
     [frame [] [1; 1; 0]%Z] ->
   sleeps
     ([ROS_INFO "Boton B pulsado" [];
       ROS_INFO "Escala de velocidad incrementada a %f"
         [arg_f (Fin (5033165 # 8388608)%Q)];
       sleep (Fin (1 # 2)%Q); publish Twist_new;
       ROS_INFO "%s - Lineal (x, y): (%.5f, %.5f), Angular (z): (%.5f)"
         [arg_s "Velocidad publicada"; arg_f (Zero false); arg_f (Zero false);
          arg_f (Zero false)]] ++ []) = [] /\
   mov_vel (set_mov_vel (TeleopTwistJoy (pad_params (float_of_lit 2)))
              (Fin (5033165 # 8388608)%Q))
   = mov_vel (TeleopTwistJoy (pad_params (float_of_lit 2)))).
Proof.
  apply (run_blocking_time
           (TeleopTwistJoy (pad_params (float_of_lit 2)))
           (set_mov_vel (TeleopTwistJoy (pad_params (float_of_lit 2)))
              (Fin (5033165 # 8388608)%Q))
           [frame [] [1; 1; 0]%Z]).
  vm_compute. reflexivity.
Defined.

(** ** The scale in every state *)

(** [min_vel] and [reaction_t] are never assigned. *)
Lemma reachable_config (this : Impl) :
  reachable this ->
  min_vel this = min_vel_default /\ reaction_t this = reaction_t_default.
Proof.
  induction 1 as [nh_param|this this' joy_msg evs R IH H]; [split; reflexivity|].
  destruct (joyCallback_same_config _ _ _ _ H) as (_ & _ & _ & Em & _ & Er & _).
  rewrite Em, Er. exact IH.
Qed.

Lemma initial_scale_facts :
  is_float (float_of_lit (5 # 10)) /\
  fle min_vel_default (float_of_lit (5 # 10)) = true.
Proof. split; vm_compute; reflexivity. Qed.

(** X6. From any positive scale, also one outside the bounds, a frame
    that requests an increment leaves a scale at or below [max_vel], and
    exactly [max_vel] when the scale was at or above it; a frame that
    requests a decrement leaves a scale at or above [min_vel], and exactly
    [min_vel] when the scale was at or below it. *)
Theorem adjustment_restores_bound (this : Impl) (joy_msg : Joy) :
  is_float (mov_vel this) -> fpos (mov_vel this) = true ->
  is_float (min_vel this) -> fpos (min_vel this) = true ->
  is_float (max_vel this) -> max_vel this <> NaN ->
  (increment_frame this joy_msg ->
   exists v : float,
     scale_after this [joy_msg] = Ok v /\
     fle v (max_vel this) = true /\
     (fle (max_vel this) (mov_vel this) = true -> v = max_vel this)) /\
  (decrement_frame this joy_msg ->
   exists v : float,
     scale_after this [joy_msg] = Ok v /\
     fle (min_vel this) v = true /\
     (fle (mov_vel this) (min_vel this) = true -> v = min_vel this)).
Proof.
  intros Fs Ps Fm Pm FM NM. split; intros K.
  - exists (incremented (max_vel this) (mov_vel this)).
    unfold scale_after. cbn [run]. rewrite (joyCallback_increment _ _ K).
    split; [reflexivity|]. apply incremented_clamps; assumption.
  - exists (decremented (min_vel this) (mov_vel this)).
    unfold scale_after. cbn [run]. rewrite (joyCallback_decrement _ _ K).
    split; [reflexivity|].
    destruct (decremented_clamps _ _ Fs Ps Fm Pm) as (A & _ & B). auto.
Qed.

Lemma adjustment_restores_bound_witness :
  (increment_frame (TeleopTwistJoy (pad_params (float_of_lit (3 # 10))))
     (frame [] [1; 1; 0]%Z) ->
   exists v : float,
     scale_after (TeleopTwistJoy (pad_params (float_of_lit (3 # 10))))
       [frame [] [1; 1; 0]%Z] = Ok v /\
     fle v (max_vel (TeleopTwistJoy (pad_params (float_of_lit (3 # 10))))) = true /\
     (fle (max_vel (TeleopTwistJoy (pad_params (float_of_lit (3 # 10)))))
          (mov_vel (TeleopTwistJoy (pad_params (float_of_lit (3 # 10))))) = true ->
      v = max_vel (TeleopTwistJoy (pad_params (float_of_lit (3 # 10)))))) /\
  (decrement_frame (TeleopTwistJoy (pad_params (float_of_lit (3 # 10))))
     (frame [] [1; 1; 0]%Z) ->
   exists v : float,
     scale_after (TeleopTwistJoy (pad_params (float_of_lit (3 # 10))))
       [frame [] [1; 1; 0]%Z] = Ok v /\
     fle (min_vel (TeleopTwistJoy (pad_params (float_of_lit (3 # 10))))) v = true /\
     (fle (mov_vel (TeleopTwistJoy (pad_params (float_of_lit (3 # 10)))))
          (min_vel (TeleopTwistJoy (pad_params (float_of_lit (3 # 10))))) = true ->
      v = min_vel (TeleopTwistJoy (pad_params (float_of_lit (3 # 10)))))).
Proof.
  apply (adjustment_restores_bound
           (TeleopTwistJoy (pad_params (float_of_lit (3 # 10)))) (frame [] [1; 1; 0]%Z)).
  - vm_compute; reflexivity.
  - vm_compute; reflexivity.
  - vm_compute; reflexivity.
  - vm_compute; reflexivity.
  - vm_compute; reflexivity.
  - vm_compute; discriminate.
Defined.

(** A callback keeps the scale between any [lo] below [min_vel] and
    [max_vel] and any [hi] above them. *)
Lemma joyCallback_between (lo hi : fval) (this this' : Impl) (joy_msg : Joy)
  (evs : list event) :
  joyCallback this joy_msg = Ok (this', evs) ->
  is_float lo -> fpos lo = true ->
  is_float (min_vel this) -> is_float (max_vel this) ->
  fle lo (min_vel this) = true -> fle lo (max_vel this) = true ->
  fle (min_vel this) hi = true -> fle (max_vel this) hi = true ->
  is_float (mov_vel this) /\ fle lo (mov_vel this) = true /\
  fle (mov_vel this) hi = true ->
  is_float (mov_vel this') /\ fle lo (mov_vel this') = true /\
  fle (mov_vel this') hi = true.
Proof.
  intros H Fl Pl Fm FM Hlm HlM Hmh HMh (Fs & Lo & Hi).
  destruct (adjust_between lo hi (min_vel this) (max_vel this) (mov_vel this)
              Fl Pl Fs Fm FM Hlm HlM Hmh HMh Lo Hi) as [I D].
  destruct (joyCallback_Ok_kind _ _ _ _ H) as [G|[G|[G|G]]].
  - rewrite (joyCallback_gate_closed _ _ G) in H. injection H as <- _.
    cbn [set_cmd_vel_msg mov_vel]. auto.
  - rewrite (joyCallback_increment _ _ G) in H. injection H as <- _. exact I.
  - rewrite (joyCallback_decrement _ _ G) in H. injection H as <- _. exact D.
  - destruct (getVal_total joy_msg (axis_position_map this) "x") as [vx X].
    destruct (getVal_total joy_msg (axis_position_map this) "y") as [vy Y].
    destruct (getVal_total joy_msg (axis_orientation_map this) "z") as [vz Z].
    rewrite (joyCallback_motion _ _ _ _ _ G X Y Z) in H. injection H as <- _.
    cbn [set_cmd_vel_msg mov_vel]. auto.
Qed.

(** In every state of the node the scale lies between any [lo] below 0.1,
    0.5 and [max_vel] and any [hi] above them. *)
Lemma reachable_between (lo hi h m : fval) (this : Impl) :
  reachable this ->
  h = float_of_lit (5 # 10) -> m = min_vel_default ->
  is_float h -> is_float m ->
  is_float lo -> fpos lo = true -> is_float (max_vel this) ->
  fle lo m = true -> fle lo (max_vel this) = true -> fle lo h = true ->
  fle m hi = true -> fle (max_vel this) hi = true -> fle h hi = true ->
  is_float (mov_vel this) /\ fle lo (mov_vel this) = true /\
  fle (mov_vel this) hi = true.
Proof.
  intros R Eh Em Fh Fm Fl Pl.
  induction R as [nh_param|this this' joy_msg evs R IH H];
    intros FM Hlm HlM Hlh Hmh HMh Hhh.
  - change (mov_vel (TeleopTwistJoy nh_param)) with (float_of_lit (5 # 10)).
    rewrite <- Eh. split; [exact Fh|]. split; [exact Hlh|exact Hhh].
  - pose proof (joyCallback_same_config _ _ _ _ H) as (_ & _ & _ & _ & EM & _).
    rewrite EM in FM, HlM, HMh.
    destruct (reachable_config _ R) as [Emin _]. rewrite <- Em in Emin.
    apply (joyCallback_between lo hi this this' joy_msg evs H Fl Pl).
    + rewrite Emin. exact Fm.
    + exact FM.
    + rewrite Emin. exact Hlm.
    + exact HlM.
    + rewrite Emin. exact Hmh.
    + exact HMh.
    + apply IH; assumption.
Qed.

(** In every state of a node with a positive [max_vel] the scale is a
    positive [float] between the least of 0.1 and [max_vel] and the
    greatest of 0.5 and [max_vel]. *)
Lemma reachable_scale_general (this : Impl) :
  reachable this ->
  is_float (max_vel this) -> fpos (max_vel this) = true ->
  is_float (mov_vel this) /\ fpos (mov_vel this) = true /\
  fle (std_min min_vel_default (max_vel this)) (mov_vel this) = true /\
  fle (mov_vel this) (std_max (float_of_lit (5 # 10)) (max_vel this)) = true.
Proof.
  intros R FM PM.
  destruct initial_scale_facts as [Fh Hmh].
  pose proof is_float_min_vel_default as Fm.
  pose proof fpos_min_vel_default as Pm.
  remember (float_of_lit (5 # 10)) as h eqn:Eh.
  remember min_vel_default as m eqn:Em.
  pose proof (fpos_not_nan _ Pm) as Nm.
  pose proof (fpos_not_nan _ PM) as NM.
  pose proof (fle_fpos _ _ Pm Hmh) as Ph.
  pose proof (fpos_not_nan _ Ph) as Nh.
  set (M := max_vel this) in *.
  assert (Flo : is_float (std_min m M)).
  { destruct (std_min_cases m M) as [-> | ->]; assumption. }
  assert (Plo : fpos (std_min m M) = true).
  { destruct (std_min_cases m M) as [-> | ->]; assumption. }
  assert (Hlm : fle (std_min m M) m = true) by (apply std_min_le_l; assumption).
  assert (HlM : fle (std_min m M) M = true) by (apply std_min_le_r; assumption).
  assert (Hhh : fle h (std_max h M) = true) by (apply std_max_ge_l; assumption).
  assert (HMh : fle M (std_max h M) = true) by (apply std_max_ge_r; assumption).
  destruct (reachable_between (std_min m M) (std_max h M) h m this R Eh Em Fh Fm Flo Plo FM
              Hlm HlM (fle_trans _ _ _ Hlm Hmh) (fle_trans _ _ _ Hmh Hhh) HMh Hhh)
    as (Fs & Lo & Hi).
  fold M in Lo, Hi |- *.
  split; [exact Fs|]. split; [exact (fle_fpos _ _ Plo Lo)|].
  split; [exact Lo|exact Hi].
Qed.

(** With [max_vel] at or above the initial scale 0.5, the scale is between
    [min_vel] and [max_vel] in every state. *)
Lemma reachable_scale_bounded (this : Impl) :
  reachable this ->
  is_float (max_vel this) ->
  fle (float_of_lit (5 # 10)) (max_vel this) = true ->
  is_float (mov_vel this) /\ fpos (mov_vel this) = true /\
  fle (min_vel this) (mov_vel this) = true /\
  fle (mov_vel this) (max_vel this) = true.
Proof.
  intros R FM HhM.
  destruct initial_scale_facts as [_ Hmh].
  pose proof fpos_min_vel_default as Pm.
  pose proof (fle_fpos _ _ (fle_fpos _ _ Pm Hmh) HhM) as PM.
  destruct (reachable_scale_general this R FM PM) as (Fs & Ps & Lo & Hi).
  destruct (reachable_config _ R) as [-> _].
  revert Hmh HhM Lo Hi.
  generalize (float_of_lit (5 # 10)) as h. generalize min_vel_default as m.
  generalize (max_vel this) as M. intros M m h Hmh HhM Lo Hi.
  split; [exact Fs|]. split; [exact Ps|]. split.
  - unfold std_min in Lo.
    destruct (flt M m) eqn:C; [|exact Lo].
    exfalso. pose proof (fle_trans _ _ _ Hmh HhM) as HmM.
    clear - C HmM. unfold flt in C. unfold fle in HmM.
    destruct M as [|[]|[]|q], m as [|[]|[]|p]; simpl in C, HmM; try discriminate;
      qcmp; try discriminate; lra.
  - unfold std_max in Hi.
    destruct (flt h M) eqn:C; [exact Hi|].
    exact (fle_trans _ _ _ Hi HhM).
Qed.

(** X7. In every state of a node whose [max_vel] is a positive [float],
    the scale is a positive [float] between the least of 0.1 and [max_vel]
    and the greatest of 0.5 (the scale the constructor sets) and [max_vel];
    when [max_vel] is at least 0.5 the scale is between [min_vel] and
    [max_vel]. *)
Theorem reachable_scale_bounds (this : Impl) :
  reachable this ->
  is_float (max_vel this) -> fpos (max_vel this) = true ->
  is_float (mov_vel this) /\ fpos (mov_vel this) = true /\
  fle (std_min min_vel_default (max_vel this)) (mov_vel this) = true /\
  fle (mov_vel this) (std_max (float_of_lit (5 # 10)) (max_vel this)) = true /\
  (fle (float_of_lit (5 # 10)) (max_vel this) = true ->
   fle (min_vel this) (mov_vel this) = true /\
   fle (mov_vel this) (max_vel this) = true).
Proof.
  intros R FM PM.
  destruct (reachable_scale_general this R FM PM) as (Fs & Ps & Lo & Hi).
  split; [exact Fs|]. split; [exact Ps|]. split; [exact Lo|]. split; [exact Hi|].
  intros HhM. apply (reachable_scale_bounded this R FM HhM).
Qed.

Lemma reachable_scale_bounds_witness :
  is_float (mov_vel (TeleopTwistJoy (pad_params (float_of_lit (3 # 10))))) /\
  fpos (mov_vel (TeleopTwistJoy (pad_params (float_of_lit (3 # 10))))) = true /\
  fle (std_min min_vel_default
         (max_vel (TeleopTwistJoy (pad_params (float_of_lit (3 # 10))))))
      (mov_vel (TeleopTwistJoy (pad_params (float_of_lit (3 # 10))))) = true /\
  fle (mov_vel (TeleopTwistJoy (pad_params (float_of_lit (3 # 10)))))
      (std_max (float_of_lit (5 # 10))
         (max_vel (TeleopTwistJoy (pad_params (float_of_lit (3 # 10)))))) = true /\
  (fle (float_of_lit (5 # 10))
       (max_vel (TeleopTwistJoy (pad_params (float_of_lit (3 # 10))))) = true ->
   fle (min_vel (TeleopTwistJoy (pad_params (float_of_lit (3 # 10)))))
       (mov_vel (TeleopTwistJoy (pad_params (float_of_lit (3 # 10))))) = true /\
   fle (mov_vel (TeleopTwistJoy (pad_params (float_of_lit (3 # 10)))))
       (max_vel (TeleopTwistJoy (pad_params (float_of_lit (3 # 10))))) = true).
Proof.
  apply (reachable_scale_bounds (TeleopTwistJoy (pad_params (float_of_lit (3 # 10))))).
  - apply reachable_init.
  - vm_compute; reflexivity.
  - vm_compute; reflexivity.
Defined.

(** ** How much an increment raises the scale *)

Section Increase.
Local Open Scope Q_scope.

(** Above a [float] [q >= 2^-4] lies a number of both formats between
    [q + 1/256] and [9/8 q]. *)
Lemma float_above (q : Q) :
  0 < q -> is_float (Fin q) -> 2 ^ (-4) <= q ->
  exists u, 0 < u /\ Qred u = u /\
            round_pos binary32 u == u /\ round_pos binary64 u == u /\
            q + (1 # 256) <= u /\ u <= (9 # 8) * q.
Proof.
  intros Hq F Hlo. unfold is_float in F; simpl in F.
  destruct (round_fix_inv binary32 false q Hq F) as [E [C B]].
  destruct (round_pos_shape binary32 prec32 q Hq) as [S [N0 N]].
  pose proof (ilog2_ge q (-4) Hlo) as Hk.
  destruct (ilog2_spec q Hq) as [K1 K2].
  set (k := ilog2 q) in *.
  assert (He : ulp_exp binary32 q = (k - 23)%Z).
  { unfold ulp_exp. fold k. simpl. lia. }
  rewrite He in S, N0, N. set (e := (k - 23)%Z) in *.
  set (n := rne (q / 2 ^ e)) in *.
  rewrite E in S.
  pose proof (pow2_pos e) as Pe.
  assert (P23 : 2 ^ k == inject_Z (2 ^ 23) * 2 ^ e).
  { rewrite pow2_Z by lia. rewrite <- pow2_add. subst e.
    replace (23 + (k - 23))%Z with k by lia. reflexivity. }
  assert (P19 : 2 ^ (k - 4) == inject_Z (2 ^ 19) * 2 ^ e).
  { rewrite pow2_Z by lia. rewrite <- pow2_add. subst e.
    replace (19 + (k - 23))%Z with (k - 4)%Z by lia. reflexivity. }
  assert (P16 : 2 ^ k == 16 * 2 ^ (k - 4)).
  { change 16 with (2 ^ 4). rewrite <- pow2_add.
    replace (4 + (k - 4))%Z with k by lia. reflexivity. }
  assert (Pe1 : 2 ^ (e + 1) == 2 * 2 ^ e) by apply pow2_succ.
  assert (Hn : (2 ^ 23 <= n)%Z).
  { rewrite Zle_Qle. apply Qmult_le_r with (z := 2 ^ e); [exact Pe|].
    rewrite <- P23, <- S. exact K1. }
  set (m := ((n + 2 ^ 20) / 2)%Z).
  assert (Hm : (n + 2 ^ 20 - 1 <= 2 * m <= n + 2 ^ 20)%Z).
  { subst m. pose proof (Z.div_mod (n + 2 ^ 20) 2 ltac:(lia)).
    pose proof (Z.mod_pos_bound (n + 2 ^ 20) 2 ltac:(lia)). lia. }
  set (V := inject_Z m * 2 ^ (e + 1)).
  assert (EV : V == inject_Z (2 * m) * 2 ^ e).
  { subst V. rewrite inject_Z_mult, Pe1. change (inject_Z 2) with 2. ring. }
  assert (HV0 : 0 < V).
  { subst V. apply Qmult_lt_0_compat; [|apply pow2_pos].
    apply (Qlt_inject_Z 0). simpl in *. lia. }
  assert (Lo : q + 2 ^ (k - 4) <= V).
  { rewrite EV, P19, S. rewrite <- Qmult_plus_distr_l, <- inject_Z_plus.
    apply Qmult_le_compat_r; [|lra]. rewrite <- Zle_Qle. simpl in *. lia. }
  assert (Hi : V <= q + 2 * 2 ^ (k - 4)).
  { rewrite EV, P19, S.
    assert (H : inject_Z n * 2 ^ e + 2 * (inject_Z (2 ^ 19) * 2 ^ e)
                == inject_Z (n + 2 ^ 20) * 2 ^ e).
    { rewrite inject_Z_plus. change (inject_Z (2 ^ 20)) with (2 * inject_Z (2 ^ 19)). ring. }
    rewrite H. apply Qmult_le_compat_r; [|lra]. rewrite <- Zle_Qle. lia. }
  assert (R32 : round_pos binary32 V == V).
  { apply (round_pos_repr binary32 prec32 V m (e + 1)); [reflexivity|simpl in *; lia|].
    subst e; simpl; lia. }
  assert (R64 : round_pos binary64 V == V).
  { apply (round_pos_repr binary64 prec64 V m (e + 1)); [reflexivity|simpl in *; lia|].
    subst e; simpl; lia. }
  assert (HrV : 0 < Qred V) by (rewrite Qred_correct; exact HV0).
  exists (Qred V). split; [exact HrV|]. split; [apply Qred_complete, Qred_correct|].
  split; [|split; [|split]].
  - rewrite (round_pos_comp binary32 (Qred V) V HrV (Qred_correct V)).
    rewrite R32. symmetry; apply Qred_correct.
  - rewrite (round_pos_comp binary64 (Qred V) V HrV (Qred_correct V)).
    rewrite R64. symmetry; apply Qred_correct.
  - rewrite Qred_correct.
    assert (H8 : 2 ^ (-8) <= 2 ^ (k - 4)) by (apply pow2_le; lia).
    change (2 ^ (-8)) with (1 # 256) in H8. lra.
  - rewrite Qred_correct. lra.
Qed.

(** One increment from a finite scale [q >= 1/16] below a finite
    [max_vel]: the new scale is a float between [q] and [max_vel], and it
    is [max_vel] or at least [q + 1/256]. *)
Lemma incremented_step (q M : Q) :
  is_float (Fin q) -> is_float (Fin M) -> 1 # 16 <= q -> q <= M ->
  exists q', incremented (Fin M) (Fin q) = Fin q' /\
             is_float (Fin q') /\ q <= q' /\ q' <= M /\
             (Fin q' = Fin M \/ q + (1 # 256) <= q').
Proof.
  intros F FM Hlo HqM.
  assert (Hq : 0 < q) by lra.
  assert (HM : 0 < M) by lra.
  destruct (float_above q Hq F Hlo) as (u & Hu0 & Cu & R32 & R64 & Hul & Huh).
  pose proof F as F'. unfold is_float in F'; simpl in F'.
  destruct (round_fix_inv binary32 false q Hq F') as [_ [_ Bq]].
  pose proof FM as FM'. unfold is_float in FM'; simpl in FM'.
  destruct (round_fix_inv binary32 false M HM FM') as [_ [_ BM]].
  assert (Pq : fpos (Fin q) = true) by (apply fpos_Fin, Hq).
  pose proof (is_float_d2f (std_min (dmul (f2d (Fin q)) lit_1_2) (f2d (Fin M)))) as Fs'.
  fold (incremented (Fin M) (Fin q)) in Fs'.
  unfold incremented, f2d in *.
  set (p := dmul (Fin q) lit_1_2) in *.
  unfold std_min in *. destruct (flt (Fin M) p) eqn:Cmp.
  - rewrite FM. exists M. split; [reflexivity|]. split; [exact FM|].
    split; [exact HqM|]. split; [lra|left; reflexivity].
  - assert (Hup : fle (Fin u) p = true).
    { assert (B64 : u <= max_finite binary64).
      { assert (H : (9 # 8) * max_finite binary32 <= max_finite binary64)
          by (apply Qle_bool_iff; vm_compute; reflexivity).
        lra. }
      rewrite <- (round_fix binary64 false u Hu0 R64 Cu B64).
      subst p. rewrite lit_1_2_eq. unfold dmul, fmul.
      apply round_mono; [apply prec64|exact Hu0|].
      assert (Hc : 9 # 8 <= lit_1_2_q) by (apply Qle_bool_iff; reflexivity).
      nra. }
    destruct (fle_not_nan _ _ Hup) as [_ Np].
    assert (NM : Fin M <> NaN) by discriminate.
    pose proof (flt_false_fle _ _ Cmp NM Np) as HpM.
    destruct (fle_sandwich p u M Hu0 Hup HpM) as (pv & Ep & A & B).
    rewrite Ep in *.
    assert (Fu : is_float (Fin u)).
    { unfold is_float; simpl. apply round_fix; [exact Hu0|exact R32|exact Cu|lra]. }
    assert (Pu : fpos (Fin u) = true) by (apply fpos_Fin, Hu0).
    pose proof (d2f_mono _ _ Pu Hup) as Lo'. rewrite Fu in Lo'.
    pose proof (d2f_mono _ _ (fle_fpos _ _ Pu Hup) HpM) as Hi'. rewrite FM in Hi'.
    destruct (fle_sandwich _ u M Hu0 Lo' Hi') as (q' & Eq' & A' & B').
    exists q'. rewrite Eq' in Fs' |- *.
    split; [reflexivity|]. split; [exact Fs'|]. split; [lra|]. split; [exact B'|right; lra].
Qed.

Lemma increments_bounds (n : nat) (q M : Q) :
  is_float (Fin q) -> is_float (Fin M) -> 1 # 16 <= q -> q <= M ->
  exists q', increments n (Fin M) (Fin q) = Fin q' /\
             is_float (Fin q') /\ q <= q' /\ q' <= M.
Proof.
  revert q. induction n as [|n IH]; intros q F FM Hlo HqM.
  - exists q. repeat split; [exact F|lra|exact HqM].
  - cbn [increments].
    destruct (incremented_step q M F FM Hlo HqM) as (q1 & -> & F1 & A1 & B1 & _).
    destruct (IH q1 F1 FM) as (q' & E & F' & A & B); [lra|exact B1|].
    exists q'. repeat split; [exact E|exact F'|lra|exact B].
Qed.

(** After [n] increments a scale that started at most [n/256] below
    [max_vel] is [max_vel]. *)
Lemma increments_reach (n : nat) (q M : Q) :
  is_float (Fin q) -> is_float (Fin M) -> 1 # 16 <= q -> q <= M ->
  M <= q + inject_Z (Z.of_nat n) * (1 # 256) ->
  increments n (Fin M) (Fin q) = Fin M.
Proof.
  revert q. induction n as [|n IH]; intros q F FM Hlo HqM Hn.
  - simpl. apply fle_antisym_pos; [exact F|exact FM|apply fpos_Fin; lra| |].
    + apply fle_Fin, HqM.
    + apply fle_Fin. change (inject_Z (Z.of_nat 0)) with 0 in Hn. lra.
  - cbn [increments].
    destruct (incremented_step q M F FM Hlo HqM) as (q' & -> & F' & A & B & D).
    apply IH; [exact F'|exact FM|lra|exact B|].
    rewrite Nat2Z.inj_succ in Hn. unfold Z.succ in Hn. rewrite inject_Z_plus in Hn.
    change (inject_Z 1) with 1 in Hn.
    assert (H0 : inject_Z 0 <= inject_Z (Z.of_nat n)) by (rewrite <- Zle_Qle; lia).
    change (inject_Z 0) with 0 in H0.
    destruct D as [D|D]; [|lra].
    injection D as D. rewrite D. nra.
Qed.

End Increase.

Lemma increments_add (n k : nat) (M s : float) :
  increments (n + k) M s = increments k M (increments n M s).
Proof. revert s. induction n as [|n IH]; intros s; [reflexivity|apply IH]. Qed.

Lemma scale_after_increments (frames : list Joy) (this : Impl) :
  Forall (increment_frame this) frames ->
  scale_after this frames = Ok (increments (length frames) (max_vel this) (mov_vel this)).
Proof.
  revert this. induction frames as [|j rest IH]; intros this HF.
  - reflexivity.
  - inversion HF as [|? ? Hj Hrest]; subst.
    unfold scale_after. cbn [run length increments].
    rewrite (joyCallback_increment _ _ Hj). cbn [bind fst snd].
    set (this1 := set_mov_vel this (incremented (max_vel this) (mov_vel this))).
    assert (H1 : Forall (increment_frame this1) rest).
    { eapply Forall_same; [|exact Hrest]. intros a Ha. exact Ha. }
    pose proof (IH this1 H1) as E. unfold scale_after in E.
    destruct (run this1 rest) as [[t e]|]; [|discriminate].
    cbn [bind fst snd] in E |- *. exact E.
Qed.

(** X8. From a finite scale [q >= 1/16] (the scale of the node is at
    least 0.1) at or below a finite [max_vel], frames that each request an
    increment give scales that never decrease from one frame to the next,
    never exceed [max_vel], and are exactly [max_vel] once their number
    reaches 256 ([max_vel] - [q]) rounded up: each increment raises the
    scale by at least 1/256 or lands on [max_vel]. *)
Theorem repeated_increment_reaches_max_vel (this : Impl) (q M : Q) :
  mov_vel this = Fin q -> max_vel this = Fin M ->
  is_float (mov_vel this) -> is_float (max_vel this) ->
  (1 # 16 <= q)%Q -> (q <= M)%Q ->
  (forall frames1 frames2 : list Joy,
     Forall (increment_frame this) (frames1 ++ frames2) ->
     exists q1 q2 : Q,
       scale_after this frames1 = Ok (Fin q1) /\
       scale_after this (frames1 ++ frames2) = Ok (Fin q2) /\
       (q <= q1)%Q /\ (q1 <= q2)%Q /\ (q2 <= M)%Q) /\
  (forall frames : list Joy,
     Forall (increment_frame this) frames ->
     (Z.to_nat (Qceiling ((M - q) * 256)) <= length frames)%nat ->
     scale_after this frames = Ok (max_vel this)).
Proof.
  intros Es EM F FM Hlo HqM. rewrite Es in F. rewrite EM in FM. split.
  - intros frames1 frames2 HF.
    pose proof (proj1 (Forall_app _ _ _) HF) as [HF1 _].
    rewrite (scale_after_increments _ _ HF), (scale_after_increments _ _ HF1).
    rewrite length_app, increments_add, EM, Es.
    destruct (increments_bounds (length frames1) q M F FM Hlo HqM) as (q1 & -> & F1 & A1 & B1).
    destruct (increments_bounds (length frames2) q1 M F1 FM) as (q2 & -> & F2 & A2 & B2);
      [lra|exact B1|].
    exists q1, q2. auto.
  - intros frames HF Hlen.
    rewrite (scale_after_increments _ _ HF), EM, Es. f_equal.
    apply increments_reach; [exact F|exact FM|exact Hlo|exact HqM|].
    pose proof (Qle_ceiling ((M - q) * 256)) as Hc.
    assert (H : (inject_Z (Qceiling ((M - q) * 256)) <= inject_Z (Z.of_nat (length frames)))%Q).
    { rewrite <- Zle_Qle. lia. }
    lra.
Qed.

Lemma repeated_increment_reaches_max_vel_witness :
  scale_after (TeleopTwistJoy (pad_params (float_of_lit (6 # 10))))
    (repeat (frame [] [1; 1; 0]%Z) 26)
  = Ok (max_vel (TeleopTwistJoy (pad_params (float_of_lit (6 # 10))))).
Proof.
  apply (proj2 (repeated_increment_reaches_max_vel
                  (TeleopTwistJoy (pad_params (float_of_lit (6 # 10))))
                  (1 # 2)%Q (5033165 # 8388608)%Q
                  ltac:(vm_compute; reflexivity) ltac:(vm_compute; reflexivity)
                  ltac:(vm_compute; reflexivity) ltac:(vm_compute; reflexivity)
                  ltac:(vm_compute; discriminate) ltac:(vm_compute; discriminate))).
  - apply Forall_repeat. split; vm_compute; reflexivity.
  - vm_compute. lia.
Defined.

(** ** The size of the command *)

Section Magnitude.
Local Open Scope Q_scope.

Lemma within_le (a b : Q) (v : fval) : a <= b -> within a v -> within b v.
Proof. intros H. destruct v; simpl; auto. intros; lra. Qed.

(** Rounding does not take a number past a number of the format. *)
Lemma round_within (fmt : format) (z : bool) (p b : Q) :
  (1 <= prec fmt)%Z ->
  0 < b -> round_pos fmt b == b -> b <= max_finite fmt ->
  Qabs p <= b -> within b (round fmt z p).
Proof.
  intros Hprec Hb Rb Bb Hp.
  assert (Hp' : - b <= p /\ p <= b) by (apply Qabs_Qle_condition, Hp).
  unfold round. destruct (Qcompare_spec p 0) as [E|L|G]; [exact I| |].
  - assert (P : 0 < - p) by lra.
    pose proof (round_pos_mono fmt Hprec (- p) b P ltac:(lra)) as M. rewrite Rb in M.
    destruct (pack_cases fmt true _ (round_pos_nonneg fmt _ P))
      as [[A ->]|[[A [B ->]]|[A [B ->]]]]; [exact I| |exfalso; lra].
    simpl. rewrite Qred_correct. apply Qabs_Qle_condition. lra.
  - pose proof (round_pos_mono fmt Hprec p b G ltac:(lra)) as M. rewrite Rb in M.
    destruct (pack_cases fmt false _ (round_pos_nonneg fmt _ G))
      as [[A ->]|[[A [B ->]]|[A [B ->]]]]; [exact I| |exfalso; lra].
    simpl. rewrite Qred_correct. apply Qabs_Qle_condition. lra.
Qed.

(** The product of a positive finite scale and an axis between -1 and 1 is
    of magnitude at most the scale. *)
Lemma dmul_within (q : Q) (v : fval) :
  0 < q -> is_float (Fin q) -> within 1 v -> within q (dmul (Fin q) v).
Proof.
  intros Hq F Hv.
  pose proof (float_is_double false q Hq F) as D.
  destruct (round_fix_inv binary64 false q Hq D) as (Rq & _ & Bq).
  destruct v as [|s|s|a]; simpl in Hv; try contradiction; [exact I|].
  unfold dmul, fmul. apply round_within; [apply prec64|exact Hq|exact Rq|exact Bq|].
  rewrite Qabs_Qmult. rewrite (Qabs_pos q) by lra.
  pose proof (Qabs_nonneg a). nra.
Qed.
End Magnitude.

Lemma Forall_nth_error {A : Type} (P : A -> Prop) (l : list A) (n : nat) (a : A) :
  Forall P l -> nth_error l n = Some a -> P a.
Proof.
  intros H. revert n. induction H as [|b l Hb Hl IH]; intros [|n]; simpl; try discriminate.
  - intros E; injection E as <-. exact Hb.
  - apply IH.
Qed.

(** [getVal] returns 0.0 or one of the axes of the frame. *)
Lemma getVal_from_axes (joy_msg : Joy) (axis_map : gmap string Z) (fieldname : string)
  (v : double) :
  getVal joy_msg axis_map fieldname = Ok v ->
  v = Zero false \/ exists n : nat, nth_error (axes joy_msg) n = Some v.
Proof.
  destruct (axis_map !! fieldname) as [i|] eqn:E.
  - rewrite (getVal_present _ _ _ i E).
    destruct (_ <=? _)%Z; [intros H; injection H as <-; left; reflexivity|].
    destruct (vec_at (axes joy_msg) i) as [a|] eqn:Ea; [|discriminate].
    cbn [bind]. intros H; injection H as <-.
    right. exists (Z.to_nat (size_t_of_int i)). apply (vec_at_Ok _ _ _ Ea).
  - rewrite (getVal_absent _ _ _ E). intros H; injection H as <-. left; reflexivity.
Qed.

Lemma getVal_within (joy_msg : Joy) (axis_map : gmap string Z) (fieldname : string)
  (v : double) :
  normalized joy_msg -> getVal joy_msg axis_map fieldname = Ok v -> within 1 v.
Proof.
  intros N H. destruct (getVal_from_axes _ _ _ _ H) as [->|[n Hn]]; [exact I|].
  exact (Forall_nth_error _ _ _ _ N Hn).
Qed.

(** The command of a motion frame, for a positive finite scale. *)
Lemma motion_within (this this' : Impl) (joy_msg : Joy) (evs : list event) (q : Q) :
  motion_frame this joy_msg -> normalized joy_msg ->
  mov_vel this = Fin q -> is_float (mov_vel this) -> (0 < q)%Q ->
  joyCallback this joy_msg = Ok (this', evs) ->
  Twist_within q (cmd_vel_msg this').
Proof.
  intros K N Es F Hq H. rewrite Es in F.
  destruct (getVal_total joy_msg (axis_position_map this) "x") as [vx X].
  destruct (getVal_total joy_msg (axis_position_map this) "y") as [vy Y].
  destruct (getVal_total joy_msg (axis_orientation_map this) "z") as [vz Z].
  rewrite (joyCallback_motion _ _ _ _ _ K X Y Z) in H. injection H as <- _.
  unfold Twist_within, motion_msg, f2d. cbn [set_cmd_vel_msg cmd_vel_msg set_xy_z linear angular x y z].
  rewrite Es.
  split; [|split]; apply dmul_within; try assumption; eapply getVal_within; eassumption.
Qed.

(** X9. On a frame with the gate open and both scaling buttons released,
    with every axis of the frame between -1 and 1 and a positive finite
    scale, the callback returns and each of linear.x, linear.y and
    angular.z of the command it publishes is of magnitude at most the
    scale: rounding the products does not take them past it. *)
Theorem motion_command_within_scale (this : Impl) (joy_msg : Joy) (q : Q) :
  motion_frame this joy_msg -> normalized joy_msg ->
  mov_vel this = Fin q -> is_float (mov_vel this) -> (0 < q)%Q ->
  exists (this' : Impl) (evs : list event),
    joyCallback this joy_msg = Ok (this', evs) /\
    published evs = [cmd_vel_msg this'] /\
    Twist_within q (cmd_vel_msg this').
Proof.
  intros K N Es F Hq.
  destruct (joyCallback_readable this joy_msg) as (this' & evs & H).
  { right; right; exact K. }
  exists this', evs. split; [exact H|].
  split; [apply (joyCallback_Ok_effect _ _ _ _ H)|].
  exact (motion_within _ _ _ _ _ K N Es F Hq H).
Qed.

Lemma motion_command_within_scale_witness :
  exists (this' : Impl) (evs : list event),
    joyCallback (TeleopTwistJoy (pad_params (float_of_lit 2)))
      (frame [1; -1; 5 # 10]%Q [1; 0; 0]%Z) = Ok (this', evs) /\
    published evs = [cmd_vel_msg this'] /\
    Twist_within (1 # 2) (cmd_vel_msg this').
Proof.
  apply (motion_command_within_scale
           (TeleopTwistJoy (pad_params (float_of_lit 2)))
           (frame [1; -1; 5 # 10]%Q [1; 0; 0]%Z) (1 # 2)%Q).
  - repeat split.
  - vm_compute. repeat constructor; discriminate.
  - vm_compute; reflexivity.
  - vm_compute; reflexivity.
  - vm_compute; reflexivity.
Defined.

Lemma half_eq : float_of_lit (5 # 10) = Fin (1 # 2).
Proof. vm_compute. reflexivity. Qed.

(** A callback keeps the command within any bound that is at least 0.5 and
    at least [max_vel]. *)
Lemma joyCallback_within (this this' : Impl) (joy_msg : Joy) (evs : list event) (M B : Q) :
  reachable this -> max_vel this = Fin M -> is_float (max_vel this) ->
  (0 < M)%Q -> (1 # 2 <= B)%Q -> (M <= B)%Q ->
  normalized joy_msg ->
  Twist_within B (cmd_vel_msg this) ->
  joyCallback this joy_msg = Ok (this', evs) ->
  Twist_within B (cmd_vel_msg this').
Proof.
  intros R EM FM HM HB HMB N W H.
  destruct (joyCallback_Ok_kind _ _ _ _ H) as [K|[K|[K|K]]].
  - rewrite (joyCallback_gate_closed _ _ K) in H. injection H as <- _.
    repeat split; exact I.
  - rewrite (joyCallback_increment _ _ K) in H. injection H as <- _. exact W.
  - rewrite (joyCallback_decrement _ _ K) in H. injection H as <- _. exact W.
  - assert (PM : fpos (max_vel this) = true) by (rewrite EM; apply fpos_Fin, HM).
    destruct (reachable_scale_general this R FM PM) as (Fs & Ps & _ & Hi).
    rewrite EM, half_eq in Hi.
    destruct (fpos_cases _ Ps) as [E|[q [E Hq]]].
    { rewrite E in Hi. destruct (std_max_cases (Fin (1 # 2)) (Fin M)) as [Em|Em];
        rewrite Em in Hi; discriminate. }
    assert (HqB : (q <= B)%Q).
    { rewrite E in Hi. destruct (std_max_cases (Fin (1 # 2)) (Fin M)) as [Em|Em];
        rewrite Em in Hi; apply fle_Fin in Hi; lra. }
    pose proof (motion_within _ _ _ _ q K N E Fs Hq H) as (A & B' & C).
    repeat split; eapply within_le; eassumption.
Qed.

Lemma run_within (M B : Q) (frames : list Joy) (this this' : Impl) (evs : list event) :
  reachable this -> max_vel this = Fin M -> is_float (max_vel this) ->
  (0 < M)%Q -> (1 # 2 <= B)%Q -> (M <= B)%Q ->
  Twist_within B (cmd_vel_msg this) ->
  Forall normalized frames ->
  run this frames = Ok (this', evs) ->
  Forall (Twist_within B) (published evs).
Proof.
  revert this evs.
  induction frames as [|j rest IH]; intros this evs R EM FM HM HB HMB W HF H.
  - injection H as _ <-. constructor.
  - inversion HF as [|? ? Hj Hrest]; subst.
    cbn [run] in H.
    destruct (joyCallback this j) as [[t e]|] eqn:E; [|discriminate].
    cbn [bind fst snd] in H.
    destruct (run t rest) as [[t' e']|] eqn:E'; [|discriminate].
    cbn [bind fst snd] in H. injection H as <- <-.
    pose proof (joyCallback_within _ _ _ _ M B R EM FM HM HB HMB Hj W E) as W'.
    destruct (joyCallback_Ok_effect _ _ _ _ E) as (P & _ & _ & _ & _ & EM' & _).
    rewrite published_app, P. constructor; [exact W'|].
    apply (IH t e'); try assumption.
    + exact (reachable_step _ _ _ _ R E).
    + congruence.
    + rewrite EM'. exact FM.
Qed.

(** A run over readable frames returns. *)
Lemma run_returns (this : Impl) (frames : list Joy) :
  Forall (readable this) frames ->
  exists (this' : Impl) (evs : list event), run this frames = Ok (this', evs).
Proof.
  intros HF.
  destruct (run_invariant same_buttons readable) with
    (P := fun _ : Impl => True) (frames := frames) (this := this)
    as (this' & evs & E & _).
  - apply same_buttons_refl.
  - apply same_buttons_trans.
  - intros a b joy_msg. apply readable_same.
  - trivial.
  - intros a b joy_msg evs _ _ H. split; [exact I|].
    exact (joyCallback_same_buttons _ _ _ _ H).
  - exact I.
  - exact HF.
  - eauto.
Qed.

(** X10. A node built by the constructor with a positive finite
    [max_displacement_in_a_second], run over frames it can read whose axes
    are between -1 and 1, returns, and linear.x, linear.y and angular.z of
    every command it publishes are of magnitude at most any bound that is
    at least 0.5 and at least [max_vel]: at most [max_vel] itself when
    [max_vel] is 0.5 or more. *)
Theorem commands_never_exceed_max_vel
  (nh_param : params) (M B : Q) (frames : list Joy) :
  p_max_displacement_in_a_second nh_param = Fin M ->
  is_float (Fin M) -> (0 < M)%Q -> (1 # 2 <= B)%Q -> (M <= B)%Q ->
  Forall normalized frames ->
  Forall (readable (TeleopTwistJoy nh_param)) frames ->
  exists (this' : Impl) (evs : list event),
    run (TeleopTwistJoy nh_param) frames = Ok (this', evs) /\
    Forall (Twist_within B) (published evs).
Proof.
  intros EM FM HM HB HMB HN HF.
  destruct (run_returns _ _ HF) as (this' & evs & H).
  exists this', evs. split; [exact H|].
  apply (run_within M B frames (TeleopTwistJoy nh_param) this' evs); try assumption.
  - apply reachable_init.
  - cbn [TeleopTwistJoy max_vel]. rewrite EM. exact FM.
  - repeat split; exact I.
Qed.

Lemma commands_never_exceed_max_vel_witness :
  exists (this' : Impl) (evs : list event),
    run (TeleopTwistJoy (pad_params (float_of_lit 2)))
      [frame [1; -1; 5 # 10]%Q [1; 0; 0]%Z; frame [] [1; 1; 0]%Z;
       frame [-1; 1; 1]%Q [1; 0; 0]%Z; frame [1]%Q [0; 0; 0]%Z] = Ok (this', evs) /\
    Forall (Twist_within 2) (published evs).
Proof.
  apply (commands_never_exceed_max_vel (pad_params (float_of_lit 2)) 2%Q 2%Q).
  - vm_compute; reflexivity.
  - vm_compute; reflexivity.
  - vm_compute; reflexivity.
  - vm_compute; discriminate.
  - vm_compute; discriminate.
  - repeat (constructor; [vm_compute; repeat constructor; discriminate|]). constructor.
  - repeat (constructor; [vm_compute; auto 10|]). constructor.
Defined.

(** X11. On a frame with the gate open and both scaling buttons released,
    an axis whose name is not in its map gives exactly +0.0 in the
    published command for every positive finite scale, whatever the axes of
    the frame; for an infinite scale it gives NaN (the product of infinity
    and zero). *)
Theorem unmapped_axes_give_zero (this : Impl) (joy_msg : Joy) :
  motion_frame this joy_msg ->
  exists (this' : Impl) (evs : list event),
    joyCallback this joy_msg = Ok (this', evs) /\
    published evs = [cmd_vel_msg this'] /\
    (axis_position_map this !! "x" = None ->
     (forall q : Q, mov_vel this = Fin q -> (0 < q)%Q ->
        x (linear (cmd_vel_msg this')) = Zero false) /\
     (forall s : bool, mov_vel this = Inf s -> x (linear (cmd_vel_msg this')) = NaN)) /\
    (axis_position_map this !! "y" = None ->
     (forall q : Q, mov_vel this = Fin q -> (0 < q)%Q ->
        y (linear (cmd_vel_msg this')) = Zero false) /\
     (forall s : bool, mov_vel this = Inf s -> y (linear (cmd_vel_msg this')) = NaN)) /\
    (axis_orientation_map this !! "z" = None ->
     (forall q : Q, mov_vel this = Fin q -> (0 < q)%Q ->
        z (angular (cmd_vel_msg this')) = Zero false) /\
     (forall s : bool, mov_vel this = Inf s -> z (angular (cmd_vel_msg this')) = NaN)).
Proof.
  intros K.
  destruct (getVal_total joy_msg (axis_position_map this) "x") as [vx X].
  destruct (getVal_total joy_msg (axis_position_map this) "y") as [vy Y].
  destruct (getVal_total joy_msg (axis_orientation_map this) "z") as [vz Z].
  pose proof (joyCallback_motion _ _ _ _ _ K X Y Z) as H.
  eexists _, _. split; [exact H|]. split; [reflexivity|].
  cbn [set_cmd_vel_msg cmd_vel_msg motion_msg set_xy_z linear angular x y z]. unfold f2d.
  assert (Zq : forall q : Q, (0 < q)%Q -> dmul (Fin q) (Zero false) = Zero false).
  { intros q Hq. unfold dmul, fmul. cbn [sign].
    destruct (Qcompare_spec q 0); try reflexivity. exfalso. lra. }
  split; [|split]; intros E.
  - rewrite (getVal_absent joy_msg _ _ E) in X. injection X as <-.
    split; [intros q -> Hq; exact (Zq q Hq)|intros s ->; reflexivity].
  - rewrite (getVal_absent joy_msg _ _ E) in Y. injection Y as <-.
    split; [intros q -> Hq; exact (Zq q Hq)|intros s ->; reflexivity].
  - rewrite (getVal_absent joy_msg _ _ E) in Z. injection Z as <-.
    split; [intros q -> Hq; exact (Zq q Hq)|intros s ->; reflexivity].
Qed.

Lemma unmapped_axes_give_zero_witness :
  exists (this' : Impl) (evs : list event),
    joyCallback
      (TeleopTwistJoy
         {| p_enable_mov := Some 0%Z;
            p_increment_velocity := Some 1%Z;
            p_decrement_velocity := Some 2%Z;
            p_axis_position_map := None;
            p_axis_orientation_map := None;
            p_max_displacement_in_a_second := float_of_lit 2 |})
      (frame [1; -1; 1]%Q [1; 0; 0]%Z) = Ok (this', evs) /\
    published evs = [cmd_vel_msg this'] /\
    x (linear (cmd_vel_msg this')) = Zero false /\
    y (linear (cmd_vel_msg this')) = Zero false /\
    z (angular (cmd_vel_msg this')) = Zero false.
Proof.
  destruct (unmapped_axes_give_zero
              (TeleopTwistJoy
                 {| p_enable_mov := Some 0%Z;
                    p_increment_velocity := Some 1%Z;
                    p_decrement_velocity := Some 2%Z;
                    p_axis_position_map := None;
                    p_axis_orientation_map := None;
                    p_max_displacement_in_a_second := float_of_lit 2 |})
              (frame [1; -1; 1]%Q [1; 0; 0]%Z))
    as (this' & evs & H & P & A & B & C).
  - repeat split.
  - exists this', evs. split; [exact H|]. split; [exact P|].
    assert (E : float_of_lit (5 # 10) = Fin (1 # 2)%Q) by (vm_compute; reflexivity).
    split; [|split].
    + apply (proj1 (A eq_refl) (1 # 2)%Q); [exact E|reflexivity].
    + apply (proj1 (B eq_refl) (1 # 2)%Q); [exact E|reflexivity].
    + apply (proj1 (C eq_refl) (1 # 2)%Q); [exact E|reflexivity].
Defined.

(** ** From any state to either end of the range *)

Lemma ceiling_frames (r : Q) (n : nat) :
  (Z.to_nat (Qceiling r) <= n)%nat -> (r <= inject_Z (Z.of_nat n))%Q.
Proof.
  intros H. pose proof (Qle_ceiling r) as Hc.
  assert (H' : (inject_Z (Qceiling r) <= inject_Z (Z.of_nat n))%Q).
  { rewrite <- Zle_Qle. lia. }
  lra.
Qed.

(** X12. In every state of a node whose [max_vel] is a finite [float] of
    at least 0.5, wherever the scale stands, 256 ([max_vel] - 0.1) frames
    (rounded up) that each request an increment bring the scale to exactly
    [max_vel], and 128 ([max_vel] - 0.1) frames that each request a
    decrement bring it to exactly [min_vel]. *)
Theorem scale_range_is_traversed (this : Impl) (M : Q) :
  reachable this ->
  max_vel this = Fin M -> is_float (max_vel this) -> (1 # 2 <= M)%Q ->
  (forall frames : list Joy,
     Forall (increment_frame this) frames ->
     (Z.to_nat (Qceiling ((M - min_vel_q) * 256)) <= length frames)%nat ->
     scale_after this frames = Ok (max_vel this)) /\
  (forall frames : list Joy,
     Forall (decrement_frame this) frames ->
     (Z.to_nat (Qceiling ((M - min_vel_q) * 128)) <= length frames)%nat ->
     scale_after this frames = Ok (min_vel this)).
Proof.
  intros R EM FM HM.
  assert (HhM : fle (float_of_lit (5 # 10)) (max_vel this) = true).
  { rewrite EM, half_eq. apply fle_Fin, HM. }
  destruct (reachable_scale_bounded this R FM HhM) as (Fs & Ps & Lo & Hi).
  destruct (reachable_config _ R) as [Em _].
  rewrite Em, min_vel_default_eq in Lo. rewrite EM in Hi, FM.
  assert (M0 : (0 < min_vel_q)%Q) by reflexivity.
  assert (M16 : (1 # 16 <= min_vel_q)%Q) by (apply Qle_bool_iff; reflexivity).
  destruct (fle_sandwich _ min_vel_q M M0 Lo Hi) as (q & Es & A & B).
  rewrite Es in Fs. split; intros frames HF Hlen.
  - rewrite (scale_after_increments _ _ HF), EM, Es. f_equal.
    apply increments_reach; [exact Fs|exact FM|lra|exact B|].
    pose proof (ceiling_frames _ _ Hlen). lra.
  - rewrite (scale_after_decrements _ _ HF), Em, Es. f_equal.
    apply decrements_reach; [exact Fs|exact A|].
    pose proof (ceiling_frames _ _ Hlen). lra.
Qed.

Lemma scale_range_is_traversed_witness :
  (forall frames : list Joy,
     Forall (increment_frame (TeleopTwistJoy (pad_params (float_of_lit (6 # 10))))) frames ->
     (Z.to_nat (Qceiling (((5033165 # 8388608) - min_vel_q) * 256)) <= length frames)%nat ->
     scale_after (TeleopTwistJoy (pad_params (float_of_lit (6 # 10)))) frames
     = Ok (max_vel (TeleopTwistJoy (pad_params (float_of_lit (6 # 10)))))) /\
  (forall frames : list Joy,
     Forall (decrement_frame (TeleopTwistJoy (pad_params (float_of_lit (6 # 10))))) frames ->
     (Z.to_nat (Qceiling (((5033165 # 8388608) - min_vel_q) * 128)) <= length frames)%nat ->
     scale_after (TeleopTwistJoy (pad_params (float_of_lit (6 # 10)))) frames
     = Ok (min_vel (TeleopTwistJoy (pad_params (float_of_lit (6 # 10)))))).
Proof.
  apply (scale_range_is_traversed
           (TeleopTwistJoy (pad_params (float_of_lit (6 # 10)))) (5033165 # 8388608)%Q).
  - apply reachable_init.
  - vm_compute; reflexivity.
  - vm_compute; reflexivity.
  - vm_compute; discriminate.
Defined.

(** ** The error of one rounding *)

Section RelativeError.
Local Open Scope Q_scope.

Lemma rne_half (y : Q) : Qabs (inject_Z (rne y) - y) <= 1 # 2.
Proof.
  pose proof (Qfloor_le y) as Lo. pose proof (Qlt_floor y) as Hi.
  rewrite inject_Z_plus in Hi. change (inject_Z 1) with 1 in Hi.
  pose proof (rne_nearest y (Qfloor y)) as A.
  pose proof (rne_nearest y (Qfloor y + 1)) as B.
  rewrite inject_Z_plus in B. change (inject_Z 1) with 1 in B.
  set (f := inject_Z (Qfloor y)) in *.
  rewrite (Qabs_neg (f - y)) in A by lra.
  rewrite (Qabs_pos (f + 1 - y)) in B by lra.
  lra.
Qed.

(** In the normal range a rounding moves a number by at most its
    [2^-prec]-th part. *)
Lemma round_pos_rel (fmt : format) (x : Q) :
  0 < x -> (emin fmt <= ilog2 x - prec fmt + 1)%Z ->
  Qabs (round_pos fmt x - x) <= x * 2 ^ (- prec fmt).
Proof.
  intros Hx Hn. unfold round_pos.
  assert (He : ulp_exp fmt x = (ilog2 x - prec fmt + 1)%Z) by (unfold ulp_exp; lia).
  rewrite He. set (e := (ilog2 x - prec fmt + 1)%Z).
  pose proof (pow2_pos e) as Pe.
  assert (S : inject_Z (rne (x / 2 ^ e)) * 2 ^ e - x
              == (inject_Z (rne (x / 2 ^ e)) - x / 2 ^ e) * 2 ^ e).
  { field. lra. }
  rewrite S, Qabs_Qmult, (Qabs_pos (2 ^ e)) by lra.
  pose proof (rne_half (x / 2 ^ e)) as H.
  destruct (ilog2_spec x Hx) as [K _].
  assert (P : 2 ^ e == 2 * (2 ^ ilog2 x * 2 ^ (- prec fmt))).
  { rewrite <- pow2_add, <- pow2_succ. subst e.
    replace (ilog2 x + - prec fmt + 1)%Z with (ilog2 x - prec fmt + 1)%Z by lia.
    reflexivity. }
  pose proof (pow2_pos (- prec fmt)) as Pp.
  set (a := Qabs (inject_Z (rne (x / 2 ^ e)) - x / 2 ^ e)) in *.
  assert (A0 : 0 <= a) by apply Qabs_nonneg.
  rewrite P. set (u := 2 ^ ilog2 x) in *. set (w := 2 ^ (- prec fmt)) in *.
  assert (U0 : 0 < u) by apply pow2_pos.
  assert (H1 : a * (2 * (u * w)) <= (1 # 2) * (2 * (u * w))).
  { apply Qmult_le_compat_r; [exact H|]. nra. }
  assert (H2 : u * w <= x * w) by (apply Qmult_le_compat_r; lra).
  lra.
Qed.

(** The rounding of a positive number below a number [B] of the format, in
    the normal range: finite, at most [B], within the relative error. *)
Lemma round_rel (fmt : format) (z : bool) (x B : Q) :
  (1 <= prec fmt)%Z ->
  0 < x -> (emin fmt <= ilog2 x - prec fmt + 1)%Z ->
  x <= B -> round_pos fmt B == B -> B <= max_finite fmt ->
  exists r, round fmt z x = Fin r /\
            (1 - 2 ^ (- prec fmt)) * x <= r /\ r <= (1 + 2 ^ (- prec fmt)) * x /\
            r <= B.
Proof.
  intros Hp Hx Hn HxB RB BB.
  pose proof (round_pos_rel fmt x Hx Hn) as Rel.
  pose proof (round_pos_mono fmt Hp x B Hx HxB) as Mono. rewrite RB in Mono.
  apply Qabs_Qle_condition in Rel.
  assert (W : 2 ^ (- prec fmt) <= 1 # 2).
  { change (1 # 2) with (2 ^ (-1)). apply pow2_le. lia. }
  set (w := 2 ^ (- prec fmt)) in *.
  assert (W0 : 0 < w) by apply pow2_pos.
  set (r := round_pos fmt x) in *.
  assert (R0 : 0 < r) by nra.
  rewrite (round_gt fmt z x Hx). fold r.
  destruct (pack_cases fmt false r (Qlt_le_weak _ _ R0))
    as [[A _]|[[_ [_ E]]|[A _]]]; [exfalso; lra| |exfalso; lra].
  exists (Qred r). split; [exact E|].
  pose proof (Qred_correct r) as C.
  split; [lra|]. split; lra.
Qed.
End RelativeError.

(** ** An increment followed by a decrement *)

Section RoundTrip.
Local Open Scope Q_scope.

(** A positive [float] is on the grid of both formats and in their range. *)
Lemma float_on_grids (M : Q) :
  0 < M -> is_float (Fin M) ->
  (round_pos binary32 M == M /\ M <= max_finite binary32) /\
  (round_pos binary64 M == M /\ M <= max_finite binary64).
Proof.
  intros HM F. pose proof (float_is_double false M HM F) as D.
  unfold is_float in F; simpl in F.
  destruct (round_fix_inv binary32 false M HM F) as (A & _ & B).
  destruct (round_fix_inv binary64 false M HM D) as (A' & _ & B').
  auto.
Qed.

Lemma to_double_rel (z : bool) (x M : Q) :
  1 # 32 <= x -> x <= M -> is_float (Fin M) ->
  exists r, round binary64 z x = Fin r /\
            (1 - (1 # 9007199254740992)) * x <= r /\
            r <= (1 + (1 # 9007199254740992)) * x /\ r <= M.
Proof.
  intros Hx HxM F.
  assert (X0 : 0 < x) by lra. assert (M0 : 0 < M) by lra.
  destruct (float_on_grids M M0 F) as [_ [R B]].
  assert (K : (-5 <= ilog2 x)%Z) by (apply ilog2_ge; change (2 ^ (-5)) with (1 # 32); exact Hx).
  destruct (round_rel binary64 z x M prec64 X0) as (r & E & Lo & Hi & Le);
    [simpl; lia|exact HxM|exact R|exact B|].
  change (2 ^ (- prec binary64)) with (1 # 9007199254740992) in Lo, Hi.
  exists r. auto.
Qed.

Lemma to_float_rel (z : bool) (x M : Q) :
  1 # 32 <= x -> x <= M -> is_float (Fin M) ->
  exists r, round binary32 z x = Fin r /\
            (1 - (1 # 16777216)) * x <= r /\
            r <= (1 + (1 # 16777216)) * x /\ r <= M.
Proof.
  intros Hx HxM F.
  assert (X0 : 0 < x) by lra. assert (M0 : 0 < M) by lra.
  destruct (float_on_grids M M0 F) as [[R B] _].
  assert (K : (-5 <= ilog2 x)%Z) by (apply ilog2_ge; change (2 ^ (-5)) with (1 # 32); exact Hx).
  destruct (round_rel binary32 z x M prec32 X0) as (r & E & Lo & Hi & Le);
    [simpl; lia|exact HxM|exact R|exact B|].
  change (2 ^ (- prec binary32)) with (1 # 16777216) in Lo, Hi.
  exists r. auto.
Qed.

(** An increment that [max_vel] does not clamp, then a decrement: the
    scale comes back to within one part in 2^22. *)
Lemma inc_dec_close (q M m : Q) :
  is_float (Fin M) -> is_float (Fin m) ->
  0 < m -> m <= q -> 1 # 16 <= q -> (5 # 4) * q <= M ->
  exists q', decremented (Fin m) (incremented (Fin M) (Fin q)) = Fin q' /\
             Qabs (q' - q) <= q * (1 # 4194304).
Proof.
  intros FM Fm Hm Hmq Hq HqM.
  unfold decremented, incremented, f2d. rewrite lit_1_2_eq.
  unfold dmul, ddiv. cbn [fmul].
  set (z1 := xorb _ _).
  assert (Hc : 0 < lit_1_2_q) by reflexivity.
  destruct (to_double_rel z1 (q * lit_1_2_q) M) as (d1 & E1 & L1 & U1 & B1);
    [unfold lit_1_2_q; lra|unfold lit_1_2_q; lra|exact FM|].
  rewrite E1. unfold lit_1_2_q in L1, U1.
  unfold std_min. destruct (flt (Fin M) (Fin d1)) eqn:C1; [apply flt_Fin in C1; lra|].
  cbn [d2f].
  destruct (to_float_rel false d1 M) as (s1 & E2 & L2 & U2 & B2); [lra|exact B1|exact FM|].
  rewrite E2. cbn [fdiv].
  set (z2 := xorb _ _).
  assert (X2 : exists x2, x2 == s1 / lit_1_2_q /\
                 (1 - (1 # 16777216)) * ((1 - (1 # 9007199254740992)) * q) <= x2 /\
                 x2 <= (1 + (1 # 16777216)) * ((1 + (1 # 9007199254740992)) * q) /\
                 x2 <= M).
  { exists (s1 / lit_1_2_q). split; [reflexivity|]. split; [|split].
    - apply Qle_shift_div_l; [exact Hc|]. unfold lit_1_2_q. lra.
    - apply Qle_shift_div_r; [exact Hc|]. unfold lit_1_2_q. lra.
    - apply Qle_shift_div_r; [exact Hc|]. unfold lit_1_2_q. lra. }
  destruct X2 as (x2 & EX & LX & UX & BX).
  assert (ER : round binary64 z2 (s1 / lit_1_2_q) = round binary64 z2 x2).
  { assert (P : 0 < s1 / lit_1_2_q) by (rewrite <- EX; lra).
    assert (P2 : 0 < x2) by lra.
    rewrite (round_gt binary64 z2 _ P), (round_gt binary64 z2 _ P2).
    apply pack_comp. apply round_pos_comp; [exact P|symmetry; exact EX]. }
  rewrite ER.
  destruct (to_double_rel z2 x2 M) as (t & E3 & L3 & U3 & B3); [lra|exact BX|exact FM|].
  rewrite E3. unfold std_max. destruct (flt (Fin t) (Fin m)) eqn:C2.
  - apply flt_Fin in C2. rewrite Fm. exists m. split; [reflexivity|].
    apply Qabs_Qle_condition. split; lra.
  - cbn [d2f].
    destruct (to_float_rel false t M) as (s2 & E4 & L4 & U4 & _); [lra|exact B3|exact FM|].
    rewrite E4. exists s2. split; [reflexivity|].
    apply Qabs_Qle_condition. split; lra.
Qed.
End RoundTrip.

Lemma scale_after_inc_dec (this : Impl) (inc dec : Joy) :
  increment_frame this inc -> decrement_frame this dec ->
  scale_after this [inc; dec] =
  Ok (decremented (min_vel this) (incremented (max_vel this) (mov_vel this))).
Proof.
  intros Ki Kd. unfold scale_after. cbn [run].
  rewrite (joyCallback_increment _ _ Ki). cbn [bind fst snd].
  set (this1 := set_mov_vel this (incremented (max_vel this) (mov_vel this))).
  assert (Kd1 : decrement_frame this1 dec) by exact Kd.
  rewrite (joyCallback_decrement _ _ Kd1). reflexivity.
Qed.

(** X13. When the increment is not clamped (1.25 times the scale is at
    most [max_vel]), a frame that requests an increment followed by a frame
    that requests a decrement brings a finite scale [q >= 1/16] back to
    within one part in 2^22 of [q]: the four roundings of the two
    adjustments do not accumulate to more. *)
Theorem increment_then_decrement_returns (this : Impl) (q M m : Q) (inc dec : Joy) :
  mov_vel this = Fin q -> max_vel this = Fin M -> min_vel this = Fin m ->
  is_float (max_vel this) -> is_float (min_vel this) ->
  (0 < m)%Q -> (m <= q)%Q -> (1 # 16 <= q)%Q -> ((5 # 4) * q <= M)%Q ->
  increment_frame this inc -> decrement_frame this dec ->
  exists q' : Q,
    scale_after this [inc; dec] = Ok (Fin q') /\
    (Qabs (q' - q) <= q * (1 # 4194304))%Q.
Proof.
  intros Es EM Em FM Fm Hm Hmq Hq HqM Ki Kd.
  rewrite (scale_after_inc_dec _ _ _ Ki Kd), Es, EM, Em.
  rewrite EM in FM. rewrite Em in Fm.
  destruct (inc_dec_close q M m FM Fm Hm Hmq Hq HqM) as (q' & E & B).
  exists q'. rewrite E. auto.
Qed.

Lemma increment_then_decrement_returns_witness :
  exists q' : Q,
    scale_after (TeleopTwistJoy (pad_params (float_of_lit 2)))
      [frame [] [1; 1; 0]%Z; frame [] [1; 0; 1]%Z] = Ok (Fin q') /\
    (Qabs (q' - (1 # 2)) <= (1 # 2) * (1 # 4194304))%Q.
Proof.
  apply (increment_then_decrement_returns
           (TeleopTwistJoy (pad_params (float_of_lit 2)))
           (1 # 2)%Q 2%Q min_vel_q).
  - vm_compute; reflexivity.
  - vm_compute; reflexivity.
  - vm_compute; reflexivity.
  - vm_compute; reflexivity.
  - vm_compute; reflexivity.
  - vm_compute; reflexivity.
  - vm_compute; discriminate.
  - vm_compute; discriminate.
  - vm_compute; discriminate.
  - split; vm_compute; reflexivity.
  - repeat split; vm_compute; reflexivity.
Defined.
